(** * EventChains build system: a shallow embedding and its verified properties

    The development follows the C sources file by file:
    [dependency_resolver.c], [cache_metadata.c], [compile_events.c],
    [ecbuild.c], [eventchains_build.c] and [eventchains_middleware.c].

    Conventions of the embedding.
    - C strings are [string]; [strcmp (a, b) == 0] is [String.eqb a b].
    - A pointer into [graph->files] is the index of the file in the list
      [files]; a [BuildOrder] is the list of such indices, in array order.
    - [size_t] statistics counters are [Z] with the wrap-around modulo 2^64
      written out; array lengths and indices are [nat].
    - The file system is an explicit finite map from paths to file nodes.
    - Pointer arguments are taken to be non-NULL: the NULL guards at the top
      of the C functions return before touching any state. Where the
      program itself passes or stores a NULL (no store behind the cache
      layer, no graph in the context), the value is an [option].
    - Fixed-size buffers are written out: a text copied or formatted into
      [char buf[N]] is cut to [N - 1] characters, and [snprintf_defined]
      tells whether a sequence of [snprintf] calls stays inside its buffer.
    - Where the C code reads a structure it has not initialised its
      behaviour is undefined: [build_project] and
      [eventchains_build_project_with] return [None] there.
    - [clock ()] readings and the [double] times derived from them are left
      out; so is text printed outside the cache and the layers. *)

From Stdlib Require Import ZArith Lia Ascii String.
From stdpp Require Import base option list strings gmap.

Open Scope string_scope.
Open Scope list_scope.
Open Scope Z_scope.

(* ===================================================================== *)
(** * Part I: the program *)
(* ===================================================================== *)

(** ** C string helpers *)

Module CString.

(** The text that fits into a buffer of [size] bytes: [snprintf] and the
    [strncpy (dst, src, size - 1); dst[size - 1] = 0] idiom both keep the
    first [size - 1] characters. *)
Definition truncate (size : nat) (s : string) : string :=
  String.substring 0 (size - 1) s.

(** [strrchr]: position of the last occurrence of [c]. *)
Fixpoint strrchr_from (pos : nat) (s : string) (c : ascii) (last : option nat)
  : option nat :=
  match s with
  | EmptyString => last
  | String a rest =>
      strrchr_from (S pos) rest c (if Ascii.eqb a c then Some pos else last)
  end.

Definition strrchr (s : string) (c : ascii) : option nat :=
  strrchr_from 0 s c None.

(** The suffix of [s] that starts at position [n] (pointer arithmetic
    [s + n]). *)
Fixpoint drop (n : nat) (s : string) : string :=
  match n, s with
  | O, _ => s
  | S n', String _ rest => drop n' rest
  | S _, EmptyString => EmptyString
  end.

(** [isspace] in the C locale. *)
Definition isspace (c : ascii) : bool :=
  let n := nat_of_ascii c in
  (n =? 32)%nat || ((9 <=? n)%nat && (n <=? 13)%nat).

Fixpoint skip_spaces (s : string) : string :=
  match s with
  | String a rest => if isspace a then skip_spaces rest else s
  | EmptyString => EmptyString
  end.

(** The characters that cannot be written inside a string literal
    conveniently: double quote, backslash and newline. *)
Definition dquote : ascii := ascii_of_nat 34.
Definition backslash : ascii := ascii_of_nat 92.
Definition newline : ascii := ascii_of_nat 10.
Definition nul : ascii := ascii_of_nat 0.

(** [strstr (hay, needle) != NULL]. *)
Fixpoint contains (hay needle : string) : bool :=
  String.prefix needle hay ||
  match hay with
  | EmptyString => false
  | String _ rest => contains rest needle
  end.

End CString.

(** ** dependency_resolver.h: constants and data *)

Definition MAX_SOURCE_FILES : nat := 1024.
Definition MAX_INCLUDES_PER_FILE : nat := 256.
Definition MAX_PATH_LENGTH : nat := 4096.
Definition MAX_INCLUDE_PATHS : nat := 64.

Inductive DependencyErrorCode : Type :=
| DEP_SUCCESS
| DEP_ERROR_NULL_POINTER
| DEP_ERROR_FILE_NOT_FOUND
| DEP_ERROR_PARSE_FAILED
| DEP_ERROR_CIRCULAR_DEPENDENCY
| DEP_ERROR_TOO_MANY_FILES
| DEP_ERROR_TOO_MANY_INCLUDES
| DEP_ERROR_OUT_OF_MEMORY
| DEP_ERROR_INVALID_PATH
| DEP_ERROR_TOPOLOGICAL_SORT_FAILED.

(** [struct SourceFile]; [includes] holds [includes[0 .. include_count)]. *)
Record SourceFile : Type := mkSourceFile {
  path : string;
  includes : list string;
  is_header : bool;
  visited : bool;
  in_stack : bool;
  sort_order : Z
}.

(** [struct DependencyGraph]; [files] holds [files[0 .. file_count)] and
    [include_paths] holds [include_paths[0 .. include_path_count)]. *)
Record DependencyGraph : Type := mkDependencyGraph {
  files : list SourceFile;
  include_paths : list string
}.

(** [struct BuildOrder]: [ordered_files[0 .. file_count)], each pointer
    given as the index of the file in the graph. *)
Abbreviation BuildOrder := (list nat).

Definition null_file : SourceFile :=
  mkSourceFile EmptyString [] false false false (-1).

(** Dereferencing the pointer [graph->files[i]]. *)
Definition file_at (g : DependencyGraph) (i : nat) : SourceFile :=
  default null_file (files g !! i).

(** Writing through the pointer [graph->files[i]]. *)
Definition update_file (g : DependencyGraph) (i : nat)
    (f : SourceFile → SourceFile) : DependencyGraph :=
  mkDependencyGraph (alter f i (files g)) (include_paths g).

Definition file_count (g : DependencyGraph) : nat := length (files g).

(** ** The file system seen by the program

    A path maps to the node that [stat], [access] and [fopen] find there.
    [node_bytes] is the byte sequence that [fread] delivers. *)

Inductive FileKind : Type := RegularFile | DirectoryFile.

Record FileNode : Type := mkFileNode {
  node_kind : FileKind;
  node_readable : bool;
  node_bytes : string;
  node_mtime : Z
}.

Abbreviation FileSystem := (gmap string FileNode).

(** [fopen (path, "r")] followed by reading the whole stream. *)
Definition fopen_read (fs : FileSystem) (p : string) : option string :=
  match fs !! p with
  | Some n => if node_readable n then Some (node_bytes n) else None
  | None => None
  end.

(** ** dependency_resolver.c *)

Definition is_source_file (p : string) : bool :=
  let len := String.length p in
  if (len <? 3)%nat then false
  else
    String.eqb (CString.drop (len - 2) p) ".c" ||
    String.eqb (CString.drop (len - 2) p) ".h" ||
    ((4 <=? len)%nat && String.eqb (CString.drop (len - 4) p) ".cpp") ||
    ((4 <=? len)%nat && String.eqb (CString.drop (len - 4) p) ".hpp") ||
    ((3 <=? len)%nat && String.eqb (CString.drop (len - 3) p) ".cc").

Definition is_header_file (p : string) : bool :=
  let len := String.length p in
  if (len <? 3)%nat then false
  else
    ((2 <=? len)%nat && String.eqb (CString.drop (len - 2) p) ".h") ||
    ((4 <=? len)%nat && String.eqb (CString.drop (len - 4) p) ".hpp").

(** POSIX branch of [normalize_path]: every backslash becomes a slash and
    the result is cut to the destination size. *)
Fixpoint normalize_chars (s : string) : string :=
  match s with
  | EmptyString => EmptyString
  | String c rest =>
      String (if Ascii.eqb c CString.backslash then "/"%char else c) (normalize_chars rest)
  end.

Definition normalize_path (src : string) (dest_size : nat) : string :=
  normalize_chars (CString.truncate dest_size src).

(** [stat (path) == 0 && S_ISREG (st.st_mode)]. *)
Definition file_exists (fs : FileSystem) (p : string) : bool :=
  match fs !! p with
  | Some n => match node_kind n with RegularFile => true | DirectoryFile => false end
  | None => false
  end.

(** The loop over [graph->include_paths] in [resolve_include]. *)
Fixpoint resolve_in_include_paths (fs : FileSystem) (roots : list string)
    (include_name : string) (path_size : nat) : option string :=
  match roots with
  | [] => None
  | root :: rest =>
      let resolved := CString.truncate path_size (root +:+ "/" +:+ include_name) in
      if file_exists fs resolved then Some resolved
      else resolve_in_include_paths fs rest include_name path_size
  end.

(** The first block of [resolve_include]: the directory of the referencing
    file, entered when [include_name[0]] is a double quote. *)
Definition resolve_local (fs : FileSystem) (include_name referencing_file : string)
    (path_size : nat) : option string :=
  match include_name with
  | String c _ =>
      if Ascii.eqb c CString.dquote then
        let dir := CString.truncate MAX_PATH_LENGTH referencing_file in
        match CString.strrchr dir "/"%char with
        | Some k =>
            let resolved :=
              CString.truncate path_size (String.substring 0 (S k) dir +:+ include_name) in
            if file_exists fs resolved then Some resolved else None
        | None => None
        end
      else None
  | EmptyString => None
  end.

Definition resolve_include (fs : FileSystem) (g : DependencyGraph)
    (include_name referencing_file : string) (path_size : nat) : option string :=
  match resolve_local fs include_name referencing_file path_size with
  | Some r => Some r
  | None =>
      match resolve_in_include_paths fs (include_paths g) include_name path_size with
      | Some r => Some r
      | None =>
          if file_exists fs include_name
          then Some (CString.truncate path_size include_name)
          else None
      end
  end.

Definition source_file_create (p : string) : SourceFile :=
  mkSourceFile (normalize_path p MAX_PATH_LENGTH) [] (is_header_file p) false false (-1).

Definition source_file_add_include (file : SourceFile) (include_path : string)
    : DependencyErrorCode * SourceFile :=
  if (MAX_INCLUDES_PER_FILE <=? length (includes file))%nat
  then (DEP_ERROR_TOO_MANY_INCLUDES, file)
  else (DEP_SUCCESS,
        mkSourceFile (path file) (includes file ++ [include_path]) (is_header file)
                     (visited file) (in_stack file) (sort_order file)).

(** [fgets (line, 1024, fp)] applied until end of file: each chunk ends
    after a newline or after [size - 1] characters. *)
Fixpoint fgets_lines (size : nat) (room : nat) (acc : string) (content : string)
    : list string :=
  match content with
  | EmptyString =>
      match acc with EmptyString => [] | _ => [acc] end
  | String c rest =>
      let acc' := acc +:+ String c EmptyString in
      if Ascii.eqb c CString.newline then acc' :: fgets_lines size (size - 1) EmptyString rest
      else if (room <=? 1)%nat then acc' :: fgets_lines size (size - 1) EmptyString rest
      else fgets_lines size (room - 1) acc' rest
  end.

(** A line buffer as C string functions see it: up to the first NUL. *)
Fixpoint c_str (s : string) : string :=
  match s with
  | EmptyString => EmptyString
  | String c rest => if Ascii.eqb c CString.nul then EmptyString else String c (c_str rest)
  end.

(** The capture loop of [parse_includes]:
    [while ( *p && *p != end_char && dest < include_name + MAX_PATH_LENGTH - 1)]. *)
Fixpoint capture_until (end_char : ascii) (room : nat) (p : string) : string :=
  match room, p with
  | S room', String c rest =>
      if Ascii.eqb c end_char then EmptyString
      else String c (capture_until end_char room' rest)
  | _, _ => EmptyString
  end.

(** The body of the [fgets] loop of [parse_includes] up to the call of
    [resolve_include]: the include name extracted from one line, if the
    line is an include directive. *)
Definition scan_include_line (line : string) : option string :=
  match CString.skip_spaces (c_str line) with
  | String c p1 =>
      if Ascii.eqb c "#"%char then
        let p2 := CString.skip_spaces p1 in
        if String.prefix "include" p2 then
          match CString.skip_spaces (CString.drop 7 p2) with
          | String q p4 =>
              if Ascii.eqb q CString.dquote
              then Some (capture_until CString.dquote (MAX_PATH_LENGTH - 1) p4)
              else if Ascii.eqb q "<"%char
              then Some (capture_until ">"%char (MAX_PATH_LENGTH - 1) p4)
              else None
          | EmptyString => None
          end
        else None
      else None
  | EmptyString => None
  end.

(** The [fgets] loop of [parse_includes] over the lines already read. *)
Fixpoint parse_include_lines (fs : FileSystem) (g : DependencyGraph)
    (lines : list string) (file : SourceFile) : DependencyErrorCode * SourceFile :=
  match lines with
  | [] => (DEP_SUCCESS, file)
  | line :: rest =>
      match scan_include_line line with
      | Some include_name =>
          match resolve_include fs g include_name (path file) MAX_PATH_LENGTH with
          | Some resolved =>
              match source_file_add_include file resolved with
              | (DEP_SUCCESS, file') => parse_include_lines fs g rest file'
              | (err, file') => (err, file')
              end
          | None => parse_include_lines fs g rest file
          end
      | None => parse_include_lines fs g rest file
      end
  end.

Definition parse_includes (fs : FileSystem) (g : DependencyGraph) (file : SourceFile)
    : DependencyErrorCode * SourceFile :=
  match fopen_read fs (path file) with
  | None => (DEP_ERROR_FILE_NOT_FOUND, file)
  | Some content =>
      parse_include_lines fs g (fgets_lines 1024 1023 EmptyString content) file
  end.

Fixpoint find_file_from (pos : nat) (l : list SourceFile) (p : string) : option nat :=
  match l with
  | [] => None
  | f :: rest =>
      if String.eqb (path f) p then Some pos else find_file_from (S pos) rest p
  end.

(** Returns the pointer as the index of the first file with that path. *)
Definition dependency_graph_find_file (g : DependencyGraph) (p : string) : option nat :=
  find_file_from 0 (files g) p.

Definition dependency_graph_add_include_path (g : DependencyGraph) (p : string)
    : DependencyErrorCode * DependencyGraph :=
  if (MAX_INCLUDE_PATHS <=? length (include_paths g))%nat
  then (DEP_ERROR_TOO_MANY_INCLUDES, g)
  else (DEP_SUCCESS, mkDependencyGraph (files g) (include_paths g ++ [p])).

(** [dependency_graph_add_file]. The C function recurses on every resolved
    include; [fuel] bounds the depth of that recursion and [None] means it
    was too small. Errors of the recursive calls are ignored, as in C. *)
Fixpoint dependency_graph_add_file (fuel : nat) (fs : FileSystem)
    (g : DependencyGraph) (file_path : string)
    : option (DependencyErrorCode * DependencyGraph) :=
  match fuel with
  | O => None
  | S fuel' =>
      if negb (file_exists fs file_path) then Some (DEP_ERROR_FILE_NOT_FOUND, g)
      else if negb (is_source_file file_path) then Some (DEP_ERROR_INVALID_PATH, g)
      else if dependency_graph_find_file g file_path is Some _ then Some (DEP_SUCCESS, g)
      else if (MAX_SOURCE_FILES <=? file_count g)%nat then Some (DEP_ERROR_TOO_MANY_FILES, g)
      else
        match parse_includes fs g (source_file_create file_path) with
        | (DEP_SUCCESS, file) =>
            let g1 := mkDependencyGraph (files g ++ [file]) (include_paths g) in
            (fix add_includes (incs : list string) (g : DependencyGraph)
               : option (DependencyErrorCode * DependencyGraph) :=
               match incs with
               | [] => Some (DEP_SUCCESS, g)
               | inc :: rest =>
                   match dependency_graph_add_file fuel' fs g inc with
                   | Some (_, g') => add_includes rest g'
                   | None => None
                   end
               end) (includes file) g1
        | (err, _) => Some (err, g)
        end
  end.

(** *** Topological sort *)

Definition set_visited (v : bool) (f : SourceFile) : SourceFile :=
  mkSourceFile (path f) (includes f) (is_header f) v (in_stack f) (sort_order f).

Definition set_in_stack (s : bool) (f : SourceFile) : SourceFile :=
  mkSourceFile (path f) (includes f) (is_header f) (visited f) s (sort_order f).

Definition set_sort_order (n : Z) (f : SourceFile) : SourceFile :=
  mkSourceFile (path f) (includes f) (is_header f) (visited f) (in_stack f) n.

(** Outcome of [topological_sort_dfs]: [true] with the updated graph and
    order, or [false] with the text written to [cycle_path]. The third case
    belongs to the embedding only: the recursion budget ran out. *)
Inductive dfs_result : Type :=
| DfsOk (g : DependencyGraph) (order : BuildOrder)
| DfsCycle (g : DependencyGraph) (order : BuildOrder) (cycle_path : string)
| DfsOutOfFuel.

(** The [for] loop over [file->includes] inside [topological_sort_dfs];
    [dfs] is the recursive call. *)
Fixpoint visit_includes (dfs : DependencyGraph → nat → BuildOrder → dfs_result)
    (path_size : nat) (file : nat) (incs : list string)
    (g : DependencyGraph) (order : BuildOrder) : dfs_result :=
  match incs with
  | [] => DfsOk g order
  | inc :: rest =>
      match dependency_graph_find_file g inc with
      | None => visit_includes dfs path_size file rest g order
      | Some dep =>
          if in_stack (file_at g dep) then
            DfsCycle g order
              (CString.truncate path_size
                 (path (file_at g file) +:+ " -> " +:+ path (file_at g dep)))
          else if negb (visited (file_at g dep)) then
            match dfs g dep order with
            | DfsOk g' order' => visit_includes dfs path_size file rest g' order'
            | failure => failure
            end
          else visit_includes dfs path_size file rest g order
      end
  end.

Fixpoint topological_sort_dfs (fuel : nat) (path_size : nat)
    (g : DependencyGraph) (file : nat) (order : BuildOrder) : dfs_result :=
  match fuel with
  | O => DfsOutOfFuel
  | S fuel' =>
      let g1 := update_file g file (λ f, set_in_stack true (set_visited true f)) in
      match visit_includes (topological_sort_dfs fuel' path_size) path_size file
              (includes (file_at g1 file)) g1 order with
      | DfsOk g2 order2 =>
          let g3 := update_file g2 file
                      (λ f, set_sort_order (Z.of_nat (length order2))
                              (set_in_stack false f)) in
          DfsOk g3 (order2 ++ [file])
      | failure => failure
      end
  end.

Definition reset_marks (g : DependencyGraph) : DependencyGraph :=
  mkDependencyGraph
    ((λ f, set_sort_order (-1) (set_in_stack false (set_visited false f))) <$> files g)
    (include_paths g).

(** [sizeof (cycle_path)] for [char cycle_path[MAX_PATH_LENGTH * 2]]. *)
Definition CYCLE_PATH_SIZE : nat := MAX_PATH_LENGTH * 2.

(** One pass of the loop [for (i = 0; i < graph->file_count; i++)] in
    [dependency_graph_topological_sort], over the indices still to come. *)
Fixpoint sort_pass (fuel : nat) (processing_headers : bool) (idxs : list nat)
    (g : DependencyGraph) (order : BuildOrder) : dfs_result :=
  match idxs with
  | [] => DfsOk g order
  | i :: rest =>
      if negb (Bool.eqb (is_header (file_at g i)) processing_headers)
      then sort_pass fuel processing_headers rest g order
      else if visited (file_at g i)
      then sort_pass fuel processing_headers rest g order
      else
        match topological_sort_dfs fuel CYCLE_PATH_SIZE g i order with
        | DfsOk g' order' => sort_pass fuel processing_headers rest g' order'
        | failure => failure
        end
  end.

(** [dependency_graph_topological_sort]: the error code, the graph with its
    traversal marks, and the build order. [None] only if the recursion
    budget, one unit per registered file, did not suffice. *)
Definition dependency_graph_topological_sort (g : DependencyGraph)
    : option (DependencyErrorCode * DependencyGraph * BuildOrder) :=
  let g0 := reset_marks g in
  let n := file_count g0 in
  match sort_pass n true (seq 0 n) g0 [] with
  | DfsOk g1 order1 =>
      match sort_pass n false (seq 0 n) g1 order1 with
      | DfsOk g2 order2 => Some (DEP_SUCCESS, g2, order2)
      | DfsCycle g2 order2 _ => Some (DEP_ERROR_CIRCULAR_DEPENDENCY, g2, order2)
      | DfsOutOfFuel => None
      end
  | DfsCycle g1 order1 _ => Some (DEP_ERROR_CIRCULAR_DEPENDENCY, g1, order1)
  | DfsOutOfFuel => None
  end.

(** [dependency_graph_has_cycle]: one DFS sweep over all files. *)
Fixpoint has_cycle_loop (fuel : nat) (path_size : nat) (idxs : list nat)
    (g : DependencyGraph) (order : BuildOrder) : dfs_result :=
  match idxs with
  | [] => DfsOk g order
  | i :: rest =>
      if visited (file_at g i) then has_cycle_loop fuel path_size rest g order
      else
        match topological_sort_dfs fuel path_size g i order with
        | DfsOk g' order' => has_cycle_loop fuel path_size rest g' order'
        | failure => failure
        end
  end.

Definition dependency_graph_has_cycle (g : DependencyGraph) (path_size : nat)
    : option (bool * DependencyGraph * string) :=
  let g0 := mkDependencyGraph
              ((λ f, set_in_stack false (set_visited false f)) <$> files g)
              (include_paths g) in
  match has_cycle_loop (file_count g0) path_size (seq 0 (file_count g0)) g0 [] with
  | DfsOk g1 _ => Some (false, g1, EmptyString)
  | DfsCycle g1 _ msg => Some (true, g1, msg)
  | DfsOutOfFuel => None
  end.

(** ** cache_metadata.h and cache_metadata.c *)

Definition MAX_CACHE_ENTRIES : nat := 2048.
Definition MAX_DEPENDENCIES_PER_FILE : nat := 128.
Definition CACHE_VERSION : Z := 1.
Definition FNV_OFFSET_BASIS : Z := 0xcbf29ce484222325.
Definition FNV_PRIME : Z := 0x100000001b3.

(** Arithmetic of [uint64_t] and of the [size_t] counters. *)
Definition wrap64 (z : Z) : Z := z mod 2 ^ 64.

(** [struct CacheEntry]. The parallel arrays [dependencies] and
    [dependency_hashes] are kept zipped, restricted to the
    [dependency_count] live slots. *)
Record CacheEntry : Type := mkCacheEntry {
  source_path : string;
  object_path : string;
  source_hash : Z;
  source_mtime : Z;
  last_compiled : Z;
  dependencies : list (string * Z);
  valid : bool
}.

(** [struct BuildCache]; [entries] is the whole array, of which the first
    [entry_count] slots are in use. *)
Record BuildCache : Type := mkBuildCache {
  version : Z;
  entry_count : nat;
  entries : list CacheEntry;
  cache_dir : string;
  project_dir : string;
  hits : Z;
  misses : Z;
  invalidations : Z
}.

(** A slot as [calloc] and [memset (.., 0, ..)] leave it. *)
Definition zero_entry : CacheEntry :=
  mkCacheEntry EmptyString EmptyString 0 0 0 [] false.

Definition entry_at (cache : BuildCache) (i : nat) : CacheEntry :=
  default zero_entry (entries cache !! i).

(** The inner loop of [hash_file_content]:
    [hash ^= buffer[i]; hash *= FNV_PRIME]. *)
Definition fnv1a_step (hash : Z) (byte : ascii) : Z :=
  wrap64 (Z.lxor hash (Z.of_nat (nat_of_ascii byte)) * FNV_PRIME).

Fixpoint fnv1a (hash : Z) (bytes : string) : Z :=
  match bytes with
  | EmptyString => hash
  | String b rest => fnv1a (fnv1a_step hash b) rest
  end.

Definition hash_file_content (fs : FileSystem) (p : string) : Z :=
  match fopen_read fs p with
  | None => 0
  | Some bytes => fnv1a FNV_OFFSET_BASIS bytes
  end.

Definition get_file_mtime (fs : FileSystem) (p : string) : Z :=
  match fs !! p with
  | Some n => node_mtime n
  | None => 0
  end.

(** [access (path, F_OK) == 0]. *)
Definition file_exists_cache (fs : FileSystem) (p : string) : bool :=
  match fs !! p with
  | Some _ => true
  | None => false
  end.

Fixpoint cache_find_from (pos : nat) (l : list CacheEntry) (p : string)
    : option nat :=
  match l with
  | [] => None
  | e :: rest =>
      if String.eqb (source_path e) p then Some pos
      else cache_find_from (S pos) rest p
  end.

(** The pointer [&cache->entries[i]] is returned as the index [i]. *)
Definition build_cache_find (cache : BuildCache) (p : string) : option nat :=
  cache_find_from 0 (take (entry_count cache) (entries cache)) p.

Definition count_miss (cache : BuildCache) : BuildCache :=
  mkBuildCache (version cache) (entry_count cache) (entries cache)
    (cache_dir cache) (project_dir cache)
    (hits cache) (wrap64 (misses cache + 1)) (invalidations cache).

Definition count_hit (cache : BuildCache) : BuildCache :=
  mkBuildCache (version cache) (entry_count cache) (entries cache)
    (cache_dir cache) (project_dir cache)
    (wrap64 (hits cache + 1)) (misses cache) (invalidations cache).

(** The dependency loop of [build_cache_needs_recompilation]: [true] when
    it leaves through [return true]. *)
Fixpoint dependency_changed (fs : FileSystem) (deps : list (string * Z)) : bool :=
  match deps with
  | [] => false
  | (dep, recorded) :: rest =>
      let dep_hash := hash_file_content fs dep in
      if dep_hash =? 0 then dependency_changed fs rest
      else if negb (dep_hash =? recorded) then true
      else dependency_changed fs rest
  end.

(** [object_path] is accepted and not used, as in C. *)
Definition build_cache_needs_recompilation (fs : FileSystem) (cache : BuildCache)
    (source : SourceFile) (object_path : string) : bool * BuildCache :=
  match build_cache_find cache (path source) with
  | None => (true, count_miss cache)
  | Some i =>
      let entry := entry_at cache i in
      if negb (valid entry) then (true, count_miss cache)
      else
        let current_hash := hash_file_content fs (path source) in
        if current_hash =? 0 then (true, count_miss cache)
        else if negb (current_hash =? source_hash entry) then (true, count_miss cache)
        else if dependency_changed fs (dependencies entry) then (true, count_miss cache)
        else (false, count_hit cache)
  end.

Definition set_entries (cache : BuildCache) (n : nat) (es : list CacheEntry)
    : BuildCache :=
  mkBuildCache (version cache) n es (cache_dir cache) (project_dir cache)
    (hits cache) (misses cache) (invalidations cache).

(** The dependencies captured by [build_cache_update] from the graph. *)
Definition capture_dependencies (fs : FileSystem) (graph : option DependencyGraph)
    (src : string) : list (string * Z) :=
  match graph with
  | None => []
  | Some g =>
      match dependency_graph_find_file g src with
      | None => []
      | Some i =>
          let source := file_at g i in
          let max_deps := Nat.min (length (includes source)) MAX_DEPENDENCIES_PER_FILE in
          (λ inc, (CString.truncate MAX_PATH_LENGTH inc, hash_file_content fs inc))
            <$> take max_deps (includes source)
      end
  end.

Definition cache_full_warning : string :=
  "Warning: Cache full (2048 entries), cannot add more".

(** [build_cache_update]; [now] is the value of [time (NULL)]. Returns the
    cache and the lines printed. *)
Definition build_cache_update (fs : FileSystem) (now : Z) (cache : BuildCache)
    (src obj : string) (graph : option DependencyGraph)
    : BuildCache * list string :=
  let slot :=
    match build_cache_find cache src with
    | Some i => Some (i, entry_count cache)
    | None =>
        if (MAX_CACHE_ENTRIES <=? entry_count cache)%nat then None
        else Some (entry_count cache, S (entry_count cache))
    end in
  match slot with
  | None => (cache, [cache_full_warning])
  | Some (i, n) =>
      let entry :=
        mkCacheEntry (CString.truncate MAX_PATH_LENGTH src)
          (CString.truncate MAX_PATH_LENGTH obj)
          (hash_file_content fs src) (get_file_mtime fs src) now
          (capture_dependencies fs graph src) true in
      (set_entries cache n (<[i := entry]> (entries cache)), [])
  end.

Definition set_valid (v : bool) (e : CacheEntry) : CacheEntry :=
  mkCacheEntry (source_path e) (object_path e) (source_hash e) (source_mtime e)
    (last_compiled e) (dependencies e) v.

Definition count_invalidation (cache : BuildCache) : BuildCache :=
  mkBuildCache (version cache) (entry_count cache) (entries cache)
    (cache_dir cache) (project_dir cache)
    (hits cache) (misses cache) (wrap64 (invalidations cache + 1)).

Definition build_cache_invalidate (cache : BuildCache) (src : string) : BuildCache :=
  match build_cache_find cache src with
  | Some i =>
      count_invalidation
        (set_entries cache (entry_count cache) (alter (set_valid false) i (entries cache)))
  | None => cache
  end.

(** The inner loop of [build_cache_invalidate_dependents]: does the entry
    list [changed_file] among its dependencies? *)
Fixpoint depends_on (deps : list (string * Z)) (changed_file : string) : bool :=
  match deps with
  | [] => false
  | (dep, _) :: rest => String.eqb dep changed_file || depends_on rest changed_file
  end.

(** The outer loop, over the slots [i .. entry_count). *)
Fixpoint invalidate_dependents_loop (todo : nat) (i : nat) (cache : BuildCache)
    (changed_file : string) : BuildCache :=
  match todo with
  | O => cache
  | S todo' =>
      let entry := entry_at cache i in
      let cache' :=
        if valid entry && depends_on (dependencies entry) changed_file
        then count_invalidation
               (set_entries cache (entry_count cache)
                  (alter (set_valid false) i (entries cache)))
        else cache in
      invalidate_dependents_loop todo' (S i) cache' changed_file
  end.

Definition build_cache_invalidate_dependents (cache : BuildCache)
    (changed_file : string) (graph : option DependencyGraph) : BuildCache :=
  match graph with
  | None => cache
  | Some _ => invalidate_dependents_loop (entry_count cache) 0 cache changed_file
  end.

Definition build_cache_clear (cache : BuildCache) : BuildCache :=
  mkBuildCache (version cache) 0 (replicate MAX_CACHE_ENTRIES zero_entry)
    (cache_dir cache) (project_dir cache) 0 0 0.

(** *** The cache file

    [cache.dat] holds the native image of the version word, the entry count
    and the entry array. The image is kept decoded: what the three [fread]
    calls of [build_cache_create] can obtain from it. *)
Record CacheImage : Type := mkCacheImage {
  img_version : option Z;
  img_count : option nat;
  img_entries : list CacheEntry
}.

(** The world outside the process: source and object files, directory
    listings in [readdir] order, cache files, the wall clock read by
    [time (NULL)], and the command lines handed to the shell so far. *)
Record World : Type := mkWorld {
  w_fs : FileSystem;
  w_readdir : gmap string (list string);
  w_cache_files : gmap string CacheImage;
  w_now : Z;
  w_commands : list string
}.

Definition set_fs (w : World) (fs : FileSystem) : World :=
  mkWorld fs (w_readdir w) (w_cache_files w) (w_now w) (w_commands w).

Definition set_cache_files (w : World) (m : gmap string CacheImage) : World :=
  mkWorld (w_fs w) (w_readdir w) m (w_now w) (w_commands w).

Definition log_command (w : World) (command : string) : World :=
  mkWorld (w_fs w) (w_readdir w) (w_cache_files w) (w_now w)
    (w_commands w ++ [command]).

Definition is_directory (fs : FileSystem) (p : string) : bool :=
  match fs !! p with
  | Some n => match node_kind n with DirectoryFile => true | RegularFile => false end
  | None => false
  end.

(** The directory a new path would be entered into: the text before the
    last slash. [None] stands for a directory that is always there: the
    working directory for a name without a slash, the root for a path whose
    only slash comes first. *)
Definition parent_directory (p : string) : option string :=
  match CString.strrchr p "/"%char with
  | None | Some O => None
  | Some k => Some (String.substring 0 k p)
  end.

(** [mkdir (path, 0755)]: creates the directory, unless the path exists
    ([EEXIST]) or its parent is missing or no directory ([ENOENT],
    [ENOTDIR]); the callers ignore the result. *)
Definition mkdir (fs : FileSystem) (p : string) : FileSystem :=
  match fs !! p with
  | Some _ => fs
  | None =>
      match parent_directory p with
      | None => <[p := mkFileNode DirectoryFile true EmptyString 0]> fs
      | Some parent =>
          if is_directory fs parent
          then <[p := mkFileNode DirectoryFile true EmptyString 0]> fs
          else fs
      end
  end.

Definition CACHE_FILENAME : string := "cache.dat".
Definition CACHE_TEMP_FILENAME : string := "cache.dat.tmp".

(** [build_cache_create]: the cache, the world after [mkdir], and the lines
    printed (without the formatted numbers). The [fread] of the entry array
    stores the records it obtains into the first slots. *)
Definition build_cache_create (w : World) (project : string)
    : BuildCache * World * list string :=
  let dir := CString.truncate MAX_PATH_LENGTH (project +:+ "/.eventchains") in
  let cache :=
    mkBuildCache CACHE_VERSION 0 (replicate MAX_CACHE_ENTRIES zero_entry)
      dir (CString.truncate MAX_PATH_LENGTH project) 0 0 0 in
  let w' := set_fs w (mkdir (w_fs w) dir) in
  let cache_file := CString.truncate MAX_PATH_LENGTH (dir +:+ "/" +:+ CACHE_FILENAME) in
  match w_cache_files w !! cache_file with
  | None => (cache, w', [])
  | Some img =>
      match img_version img with
      | None => (cache, w', ["Warning: Failed to read cache version"])
      | Some v =>
          if negb (v =? CACHE_VERSION)
          then (cache, w', ["Warning: Cache version mismatch - rebuilding cache"])
          else
            match img_count img with
            | None => (cache, w', ["Warning: Failed to read cache entry count"])
            | Some n =>
                if (MAX_CACHE_ENTRIES <? n)%nat
                then (cache, w', ["Warning: Invalid cache entry count - rebuilding cache"])
                else
                  let got := take n (img_entries img) in
                  let slots := got ++ drop (length got) (entries cache) in
                  if negb (length got =? n)%nat
                  then (set_entries cache 0 slots, w',
                        ["Warning: Failed to read cache entries - rebuilding cache"])
                  else (set_entries cache n slots, w', ["Loaded cache"])
            end
      end
  end.

(** [build_cache_save]: the image is written under the temporary name and
    renamed over [cache.dat]. Opening the temporary file needs the cache
    directory; write errors of a full disk are outside the model. *)
Definition build_cache_save (w : World) (cache : BuildCache)
    : bool * World * list string :=
  let temp_file :=
    CString.truncate MAX_PATH_LENGTH (cache_dir cache +:+ "/" +:+ CACHE_TEMP_FILENAME) in
  let cache_file :=
    CString.truncate MAX_PATH_LENGTH (cache_dir cache +:+ "/" +:+ CACHE_FILENAME) in
  if negb (is_directory (w_fs w) (cache_dir cache))
  then (false, w, ["Warning: Failed to open cache file for writing: " +:+ temp_file])
  else
    let img := mkCacheImage (Some (version cache)) (Some (entry_count cache))
                 (take (entry_count cache) (entries cache)) in
    (true,
     set_cache_files w (<[cache_file := img]> (delete temp_file (w_cache_files w))),
     []).

(** *** Directory scan (dependency_resolver.c, POSIX branch) *)

Definition DEFAULT_EXCLUSIONS : list string :=
  [ "build"; "builds"; ".git"; ".svn"; ".hg"; "node_modules"; "vendor";
    "__pycache__"; ".eventchains"; "CMakeFiles"; ".vs"; ".vscode"; ".idea" ].

(** The part of a path after its last slash, or after its last backslash
    when there is no slash. *)
Definition base_name (p : string) : string :=
  match CString.strrchr p "/"%char with
  | Some k => CString.drop (S k) p
  | None =>
      match CString.strrchr p CString.backslash with
      | Some k => CString.drop (S k) p
      | None => p
      end
  end.

Definition should_exclude_directory (dir_name : string) (exclude_dirs : list string)
    : bool :=
  let b := base_name dir_name in
  existsb (String.eqb b) DEFAULT_EXCLUSIONS || existsb (String.eqb b) exclude_dirs.

(** [dependency_graph_scan_directory_with_exclusions]; [fuel] bounds the
    depth of the directory recursion. Results of the recursive scans and of
    [dependency_graph_add_file] are ignored, as in C. *)
Fixpoint dependency_graph_scan_directory_with_exclusions (fuel : nat) (w : World)
    (g : DependencyGraph) (directory : string) (recursive : bool)
    (exclude_dirs : list string) : option (DependencyErrorCode * DependencyGraph) :=
  match fuel with
  | O => None
  | S fuel' =>
      match w_readdir w !! directory with
      | None => Some (DEP_ERROR_FILE_NOT_FOUND, g)
      | Some names =>
          (fix scan_entries (names : list string) (g : DependencyGraph)
             : option (DependencyErrorCode * DependencyGraph) :=
             match names with
             | [] => Some (DEP_SUCCESS, g)
             | name :: rest =>
                 if String.eqb name "." || String.eqb name ".."
                 then scan_entries rest g
                 else
                   let full_path :=
                     CString.truncate MAX_PATH_LENGTH (directory +:+ "/" +:+ name) in
                   match w_fs w !! full_path with
                   | None => scan_entries rest g
                   | Some n =>
                       match node_kind n with
                       | DirectoryFile =>
                           if should_exclude_directory name exclude_dirs
                           then scan_entries rest g
                           else if recursive then
                             match dependency_graph_scan_directory_with_exclusions
                                     fuel' w g full_path true exclude_dirs with
                             | Some (_, g') => scan_entries rest g'
                             | None => None
                             end
                           else scan_entries rest g
                       | RegularFile =>
                           if is_source_file full_path then
                             match dependency_graph_add_file (S MAX_SOURCE_FILES)
                                     (w_fs w) g full_path with
                             | Some (_, g') => scan_entries rest g'
                             | None => None
                             end
                           else scan_entries rest g
                       end
                   end
             end) names g
      end
  end.

(** ** compile_events.h and compile_events.c *)

Definition MAX_COMPILER_FLAGS : nat := 64.
Definition MAX_LIBRARY_PATHS : nat := 64.
Definition MAX_LIBRARIES : nat := 64.
Definition MAX_COMMAND_LENGTH : nat := 2 * 4096.

Inductive CompilerType : Type :=
| COMPILER_AUTO | COMPILER_GCC | COMPILER_CLANG | COMPILER_MSVC.

Module Config.

(** [struct BuildConfig]; each flag or path array is the list of its
    entries in use, and [compiler_path] is [None] for a NULL pointer. *)
Record BuildConfig : Type := mk {
  compiler : CompilerType;
  compiler_path : option string;
  cflags : list string;
  ldflags : list string;
  include_paths : list string;
  library_paths : list string;
  libraries : list string;
  output_dir : string;
  output_binary : string;
  verbose : bool;
  debug : bool;
  optimize : bool;
  parallel_jobs : Z
}.

Definition set_cflags (c : BuildConfig) (l : list string) : BuildConfig :=
  mk (compiler c) (compiler_path c) l (ldflags c) (include_paths c)
    (library_paths c) (libraries c) (output_dir c) (output_binary c)
    (verbose c) (debug c) (optimize c) (parallel_jobs c).

Definition set_include_paths (c : BuildConfig) (l : list string) : BuildConfig :=
  mk (compiler c) (compiler_path c) (cflags c) (ldflags c) l
    (library_paths c) (libraries c) (output_dir c) (output_binary c)
    (verbose c) (debug c) (optimize c) (parallel_jobs c).

Definition set_output_dir (c : BuildConfig) (d : string) : BuildConfig :=
  mk (compiler c) (compiler_path c) (cflags c) (ldflags c) (include_paths c)
    (library_paths c) (libraries c) d (output_binary c)
    (verbose c) (debug c) (optimize c) (parallel_jobs c).

Definition set_output_binary (c : BuildConfig) (b : string) : BuildConfig :=
  mk (compiler c) (compiler_path c) (cflags c) (ldflags c) (include_paths c)
    (library_paths c) (libraries c) (output_dir c) b
    (verbose c) (debug c) (optimize c) (parallel_jobs c).

Definition set_compiler (c : BuildConfig) (t : CompilerType) (p : option string)
    : BuildConfig :=
  mk t p (cflags c) (ldflags c) (include_paths c)
    (library_paths c) (libraries c) (output_dir c) (output_binary c)
    (verbose c) (debug c) (optimize c) (parallel_jobs c).

Definition set_options (c : BuildConfig) (v d o : bool) (j : Z) : BuildConfig :=
  mk (compiler c) (compiler_path c) (cflags c) (ldflags c) (include_paths c)
    (library_paths c) (libraries c) (output_dir c) (output_binary c) v d o j.

End Config.

Abbreviation BuildConfig := Config.BuildConfig.

Definition build_config_add_cflag (config : BuildConfig) (flag : string)
    : bool * BuildConfig :=
  if (MAX_COMPILER_FLAGS <=? length (Config.cflags config))%nat then (false, config)
  else (true, Config.set_cflags config (Config.cflags config ++ [flag])).

Definition build_config_add_include_path (config : BuildConfig) (p : string)
    : bool * BuildConfig :=
  if (MAX_INCLUDE_PATHS <=? length (Config.include_paths config))%nat
  then (false, config)
  else (true, Config.set_include_paths config (Config.include_paths config ++ [p])).

(** [build_config_create]: the [calloc]'ed structure with its defaults, then
    the default flags; [optimize] was set to [true] just before it is
    tested. *)
Definition build_config_create : BuildConfig :=
  let config :=
    Config.mk COMPILER_AUTO None [] [] [] [] [] "build" "program"
      false false true 1 in
  let config := (build_config_add_cflag config "-Wall").2 in
  if Config.optimize config
  then (build_config_add_cflag config "-O2").2
  else config.

Definition build_config_set_output_dir (config : BuildConfig) (p : string)
    : BuildConfig := Config.set_output_dir config p.

Definition build_config_set_output_binary (config : BuildConfig) (name : string)
    : BuildConfig := Config.set_output_binary config name.

(** What a child process does: given the command line and the files, its
    exit status ([None] when it did not exit normally), its combined
    output, and the files afterwards. *)
Definition Toolchain : Type :=
  string → FileSystem → option Z * string * FileSystem.

(** [system (command)]: the model records the command line and runs it. *)
Definition system (tc : Toolchain) (command : string) (w : World) : option Z * World :=
  let '(status, _, fs') := tc command (w_fs w) in
  (status, set_fs (log_command w command) fs').

(** [execute_command] with an output buffer: success flag, captured
    output, exit code, world. *)
Definition execute_command (tc : Toolchain) (command : string) (output_size : nat)
    (w : World) : bool * string * Z * World :=
  let '(status, out, fs') := tc command (w_fs w) in
  (if status is Some 0 then true else false,
   CString.truncate output_size out,
   default (-1) status,
   set_fs (log_command w command) fs').

(** [build_config_auto_detect_compiler], POSIX branch. *)
Fixpoint detect_compiler (tc : Toolchain) (candidates : list (string * CompilerType))
    (config : BuildConfig) (w : World) : bool * BuildConfig * World :=
  match candidates with
  | [] => (false, config, w)
  | (name, kind) :: rest =>
      let test_cmd := CString.truncate 256 ("which " +:+ name +:+ " > /dev/null 2>&1") in
      let '(status, w') := system tc test_cmd w in
      if status is Some 0
      then (true, Config.set_compiler config kind (Some name), w')
      else detect_compiler tc rest config w'
  end.

Definition build_config_auto_detect_compiler (tc : Toolchain) (config : BuildConfig)
    (w : World) : bool * BuildConfig * World :=
  detect_compiler tc
    [("gcc", COMPILER_GCC); ("clang", COMPILER_CLANG); ("cl", COMPILER_MSVC)]
    config w.

Definition is_absolute (p : string) : bool :=
  match p with
  | String c rest =>
      Ascii.eqb c "/"%char ||
      match rest with
      | String d _ => Ascii.eqb d ":"%char
      | EmptyString => false
      end
  | EmptyString => false
  end.

Definition create_build_dir_path (source_dir build_dir_name : string)
    (dest_size : nat) : string :=
  if is_absolute build_dir_name
  then CString.truncate dest_size build_dir_name
  else CString.truncate dest_size (source_dir +:+ "/" +:+ build_dir_name).

Definition get_object_file_path (source_path output_dir : string) (dest_size : nat)
    : string :=
  let filename := base_name source_path in
  let obj_name := CString.truncate 512 filename in
  let obj_name :=
    match CString.strrchr obj_name "."%char with
    | Some k => String.substring 0 k obj_name +:+ ".o"
    | None => obj_name +:+ ".o"
    end in
  CString.truncate dest_size (output_dir +:+ "/" +:+ obj_name).

(** The modification-time test of compile_events.c. *)
Definition needs_recompilation (fs : FileSystem) (source_file object_file : string)
    : bool :=
  match fs !! object_file with
  | None => true
  | Some o =>
      match fs !! source_file with
      | None => true
      | Some s => node_mtime o <? node_mtime s
      end
  end.

(** [struct CompileResult], without the floating-point [compile_time]. *)
Record CompileResult : Type := mkCompileResult {
  cr_success : bool;
  cr_object_file : option string;
  cr_error_output : option string;
  cr_exit_code : Z
}.

(** One step of the idiom
    [pos += snprintf (command + pos, sizeof (command) - pos, ...)], on the
    text in the buffer and [pos]. While [pos] does not exceed the size the
    call keeps what fits, one byte being left for the terminator, and
    returns the full length of the text. Once [pos] exceeds the size the
    unsigned difference is huge and the C code writes past the buffer: its
    behaviour is undefined, and the embedding leaves the buffer alone;
    [snprintf_defined] tells whether that point is reached. *)
Definition snprintf_at (size : nat) (st : string * nat) (text : string)
    : string * nat :=
  if (st.2 <=? size)%nat
  then (st.1 +:+ CString.truncate (size - st.2) text, (st.2 + String.length text)%nat)
  else (st.1, (st.2 + String.length text)%nat).

Definition snprintf_all (size : nat) (texts : list string) : string :=
  (fold_left (snprintf_at size) texts (EmptyString, 0%nat)).1.

Fixpoint snprintf_defined (size pos : nat) (texts : list string) : bool :=
  match texts with
  | [] => true
  | text :: rest =>
      (pos <=? size)%nat && snprintf_defined size (pos + String.length text) rest
  end.

(** The texts that [compile_source_file] formats one after the other into
    [char command[MAX_COMMAND_LENGTH]]. *)
Definition compile_command_texts (source : SourceFile) (config : BuildConfig)
    (object_path : string) : list string :=
  let compiler := default "gcc" (Config.compiler_path config) in
  (compiler +:+ " -c " +:+ path source +:+ " -o " +:+ object_path)
  :: ((λ i, " -I" +:+ i) <$> Config.include_paths config)
  ++ ((λ f, " " +:+ f) <$> Config.cflags config).

(** The command line in the buffer when [compile_source_file] runs it. *)
Definition compile_command (source : SourceFile) (config : BuildConfig)
    (object_path : string) : string :=
  snprintf_all MAX_COMMAND_LENGTH (compile_command_texts source config object_path).

Definition compile_source_file (tc : Toolchain) (source : SourceFile)
    (config : BuildConfig) (w : World) : bool * CompileResult * World :=
  if is_header source
  then (true, mkCompileResult true None None 0, w)
  else
    let object_path :=
      get_object_file_path (path source) (Config.output_dir config) MAX_PATH_LENGTH in
    if negb (needs_recompilation (w_fs w) (path source) object_path)
    then (true, mkCompileResult true (Some object_path) None 0, w)
    else
      let command := compile_command source config object_path in
      let '(success, out, exit_code, w') := execute_command tc command 4096 w in
      (success,
       mkCompileResult success (Some object_path)
         (match out with EmptyString => None | _ => Some out end) exit_code,
       w').

(** The texts that [link_executable] formats into its command buffer
    (POSIX branch). *)
Definition link_command_texts (object_files : list string) (config : BuildConfig)
    (binary_path : string) : list string :=
  let compiler := default "gcc" (Config.compiler_path config) in
  compiler
  :: ((λ o, " " +:+ o) <$> object_files)
  ++ [" -o " +:+ binary_path]
  ++ ((λ l, " -L" +:+ l) <$> Config.library_paths config)
  ++ ((λ l, " -l" +:+ l) <$> Config.libraries config)
  ++ ((λ f, " " +:+ f) <$> Config.ldflags config).

Definition link_command (object_files : list string) (config : BuildConfig)
    (binary_path : string) : string :=
  snprintf_all MAX_COMMAND_LENGTH (link_command_texts object_files config binary_path).

(** [link_executable]. Without object files the function returns [false]
    before it has written to [*result]: the result is [None], the
    structure of the caller is as it was. *)
Definition link_executable (tc : Toolchain) (object_files : list string)
    (config : BuildConfig) (w : World) : bool * option CompileResult * World :=
  match object_files with
  | [] => (false, None, w)
  | _ =>
      let binary_path :=
        CString.truncate MAX_PATH_LENGTH
          (Config.output_dir config +:+ "/" +:+ Config.output_binary config) in
      let command := link_command object_files config binary_path in
      let '(success, out, exit_code, w') := execute_command tc command 4096 w in
      (success,
       Some (mkCompileResult success (Some binary_path)
               (match out with EmptyString => None | _ => Some out end) exit_code),
       w')
  end.

(** The compile loop of [build_project]: [None] when a file failed. *)
Fixpoint build_project_loop (tc : Toolchain) (g : DependencyGraph)
    (config : BuildConfig) (order : list nat) (objects : list string)
    (compiled cached : nat) (w : World)
    : option (list string * nat * nat) * World :=
  match order with
  | [] => (Some (objects, compiled, cached), w)
  | i :: rest =>
      let file := file_at g i in
      if is_header file then build_project_loop tc g config rest objects compiled cached w
      else
        let '(ok, result, w') := compile_source_file tc file config w in
        if ok then
          match cr_object_file result with
          | Some obj =>
              if needs_recompilation (w_fs w') (path file) obj
              then build_project_loop tc g config rest (objects ++ [obj])
                     (S compiled) cached w'
              else build_project_loop tc g config rest (objects ++ [obj])
                     compiled (S cached) w'
          | None => build_project_loop tc g config rest objects compiled cached w'
          end
        else (None, w')
  end.

(** [build_project]: the exit code and the world afterwards. [None] when
    the behaviour of the C function is undefined: [link_executable] has
    returned [false] without writing to [link_result], and
    [compile_result_destroy] then frees the pointers of that uninitialised
    structure. *)
Definition build_project (tc : Toolchain) (g : DependencyGraph) (config : BuildConfig)
    (source_dir : string) (w : World) : option (Z * World) :=
  let '(found, config, w) :=
    match Config.compiler config, Config.compiler_path config with
    | COMPILER_AUTO, _ | _, None => build_config_auto_detect_compiler tc config w
    | _, Some _ => (true, config, w)
    end in
  if negb found then Some (1, w)
  else
    let absolute_build_dir :=
      create_build_dir_path source_dir (Config.output_dir config) MAX_PATH_LENGTH in
    let config := Config.set_output_dir config absolute_build_dir in
    let w := set_fs w (mkdir (w_fs w) (Config.output_dir config)) in
    match dependency_graph_topological_sort g with
    | Some (DEP_SUCCESS, g', order) =>
        match build_project_loop tc g' config order [] 0 0 w with
        | (None, w') => Some (1, w')
        | (Some (objects, _, _), w') =>
            match link_executable tc objects config w' with
            | (ok, Some _, w'') => Some (if ok then 0 else 1, w'')
            | (_, None, _) => None
            end
        end
    | _ => Some (1, w)
    end.

(** ** ecbuild.c *)

Module Cli.

(** [struct Arguments]. *)
Record Arguments : Type := mk {
  source_dir : string;
  output_dir : string;
  output_binary : string;
  exclude_dirs : list string;
  verbose : bool;
  debug : bool;
  no_optimize : bool;
  clean : bool;
  help : bool;
  version : bool;
  parallel_jobs : Z
}.

End Cli.

Definition is_digit (c : ascii) : bool :=
  let n := nat_of_ascii c in (48 <=? n)%nat && (n <=? 57)%nat.

Fixpoint atoi_digits (acc : Z) (s : string) : Z :=
  match s with
  | String c rest =>
      if is_digit c
      then atoi_digits (acc * 10 + (Z.of_nat (nat_of_ascii c) - 48)) rest
      else acc
  | EmptyString => acc
  end.

(** [strtol (s, NULL, 10)] with a 64-bit [long]: the value read, or
    [LONG_MAX] or [LONG_MIN] when it is out of range. *)
Definition strtol (s : string) : Z :=
  let value :=
    match CString.skip_spaces s with
    | String c rest =>
        if Ascii.eqb c "-"%char then - atoi_digits 0 rest
        else if Ascii.eqb c "+"%char then atoi_digits 0 rest
        else atoi_digits 0 (String c rest)
    | EmptyString => 0
    end in
  Z.max (- 2 ^ 63) (Z.min (2 ^ 63 - 1) value).

(** The conversion of a [long] to the 32-bit [int]. *)
Definition to_int (z : Z) : Z := (z + 2 ^ 31) mod 2 ^ 32 - 2 ^ 31.

(** [atoi] as the C library of the platform computes it,
    [(int) strtol (s, NULL, 10)]; for a value that fits an [int] this is
    the value, and beyond that the C standard promises nothing. *)
Definition atoi (s : string) : Z := to_int (strtol s).

(** The tokens [strtok (list, ",")] delivers: the non-empty runs between
    commas. *)
Fixpoint strtok_commas (cur : string) (s : string) : list string :=
  match s with
  | EmptyString => match cur with EmptyString => [] | _ => [cur] end
  | String c rest =>
      if Ascii.eqb c ","%char
      then match cur with
           | EmptyString => strtok_commas EmptyString rest
           | _ => cur :: strtok_commas EmptyString rest
           end
      else strtok_commas (cur +:+ String c EmptyString) rest
  end.

Definition is_blank (c : ascii) : bool :=
  Ascii.eqb c " "%char || (nat_of_ascii c =? 9)%nat.

Fixpoint skip_blanks (s : string) : string :=
  match s with
  | String c rest => if is_blank c then skip_blanks rest else s
  | EmptyString => EmptyString
  end.

Fixpoint string_rev (acc : string) (s : string) : string :=
  match s with
  | EmptyString => acc
  | String c rest => string_rev (String c acc) rest
  end.

(** The trimming of one exclusion token: leading blanks are skipped, then
    trailing blanks are cut while more than one character remains. *)
Definition trim_token (token : string) : string :=
  match skip_blanks token with
  | EmptyString => EmptyString
  | String c rest => String c (string_rev EmptyString (skip_blanks (string_rev EmptyString rest)))
  end.

Definition set_flag (args : Cli.Arguments) (v d n c h ver : bool) : Cli.Arguments :=
  Cli.mk (Cli.source_dir args) (Cli.output_dir args) (Cli.output_binary args)
    (Cli.exclude_dirs args) v d n c h ver (Cli.parallel_jobs args).

(** The [for] loop of [parse_arguments] over [argv[1 ..]]; [None] stands
    for [return false]. *)
Fixpoint parse_arguments_loop (argv : list string) (args : Cli.Arguments)
    : option Cli.Arguments :=
  let flag v d n c h ver := set_flag args v d n c h ver in
  match argv with
  | [] => Some args
  | a :: rest =>
      if String.eqb a "-h" || String.eqb a "--help" then
        parse_arguments_loop rest
          (flag (Cli.verbose args) (Cli.debug args) (Cli.no_optimize args)
             (Cli.clean args) true (Cli.version args))
      else if String.eqb a "-V" || String.eqb a "--version" then
        parse_arguments_loop rest
          (flag (Cli.verbose args) (Cli.debug args) (Cli.no_optimize args)
             (Cli.clean args) (Cli.help args) true)
      else if String.eqb a "-v" || String.eqb a "--verbose" then
        parse_arguments_loop rest
          (flag true (Cli.debug args) (Cli.no_optimize args)
             (Cli.clean args) (Cli.help args) (Cli.version args))
      else if String.eqb a "-d" || String.eqb a "--debug" then
        parse_arguments_loop rest
          (flag (Cli.verbose args) true (Cli.no_optimize args)
             (Cli.clean args) (Cli.help args) (Cli.version args))
      else if String.eqb a "-O0" || String.eqb a "--no-optimize" then
        parse_arguments_loop rest
          (flag (Cli.verbose args) (Cli.debug args) true
             (Cli.clean args) (Cli.help args) (Cli.version args))
      else if String.eqb a "-c" || String.eqb a "--clean" then
        parse_arguments_loop rest
          (flag (Cli.verbose args) (Cli.debug args) (Cli.no_optimize args)
             true (Cli.help args) (Cli.version args))
      else if String.eqb a "-o" || String.eqb a "--output" then
        match rest with
        | v :: rest' =>
            parse_arguments_loop rest'
              (Cli.mk (Cli.source_dir args) (Cli.output_dir args) v
                 (Cli.exclude_dirs args) (Cli.verbose args) (Cli.debug args)
                 (Cli.no_optimize args) (Cli.clean args) (Cli.help args)
                 (Cli.version args) (Cli.parallel_jobs args))
        | [] => None
        end
      else if String.eqb a "-b" || String.eqb a "--build-dir" then
        match rest with
        | v :: rest' =>
            parse_arguments_loop rest'
              (Cli.mk (Cli.source_dir args) v (Cli.output_binary args)
                 (Cli.exclude_dirs args) (Cli.verbose args) (Cli.debug args)
                 (Cli.no_optimize args) (Cli.clean args) (Cli.help args)
                 (Cli.version args) (Cli.parallel_jobs args))
        | [] => None
        end
      else if String.eqb a "-j" || String.eqb a "--jobs" then
        match rest with
        | v :: rest' =>
            parse_arguments_loop rest'
              (Cli.mk (Cli.source_dir args) (Cli.output_dir args)
                 (Cli.output_binary args) (Cli.exclude_dirs args)
                 (Cli.verbose args) (Cli.debug args) (Cli.no_optimize args)
                 (Cli.clean args) (Cli.help args) (Cli.version args)
                 (if atoi v <? 1 then 1 else atoi v))
        | [] => None
        end
      else if String.eqb a "-e" || String.eqb a "--exclude" then
        match rest with
        | v :: rest' =>
            parse_arguments_loop rest'
              (Cli.mk (Cli.source_dir args) (Cli.output_dir args)
                 (Cli.output_binary args)
                 (trim_token <$> strtok_commas EmptyString v)
                 (Cli.verbose args) (Cli.debug args) (Cli.no_optimize args)
                 (Cli.clean args) (Cli.help args) (Cli.version args)
                 (Cli.parallel_jobs args))
        | [] => None
        end
      else if negb (String.prefix "-" a) then
        parse_arguments_loop rest
          (Cli.mk a (Cli.output_dir args) (Cli.output_binary args)
             (Cli.exclude_dirs args) (Cli.verbose args) (Cli.debug args)
             (Cli.no_optimize args) (Cli.clean args) (Cli.help args)
             (Cli.version args) (Cli.parallel_jobs args))
      else None
  end.

(** [parse_arguments]; [argv] is given without the program name. *)
Definition parse_arguments (argv : list string) : option Cli.Arguments :=
  parse_arguments_loop argv
    (Cli.mk "." "build" "program" [] false false false false false false 1).

(** The blocks "Create build configuration" and "Configure build" of
    [main]. *)
Definition main_configure (args : Cli.Arguments) : BuildConfig :=
  let config := build_config_create in
  let config := build_config_set_output_dir config (Cli.output_dir args) in
  let config := build_config_set_output_binary config (Cli.output_binary args) in
  let config :=
    Config.set_options config (Cli.verbose args) (Cli.debug args)
      (negb (Cli.no_optimize args)) (Cli.parallel_jobs args) in
  let config := (build_config_add_include_path config (Cli.source_dir args)).2 in
  if Cli.debug args then (build_config_add_cflag config "-g").2 else config.

(** The graph set-up of [main]: the two include roots and the scan. *)
Definition main_scan (w : World) (args : Cli.Arguments)
    : option (DependencyErrorCode * DependencyGraph) :=
  let g := mkDependencyGraph [] [] in
  let g := (dependency_graph_add_include_path g (Cli.source_dir args)).2 in
  let g := (dependency_graph_add_include_path g ".").2 in
  dependency_graph_scan_directory_with_exclusions MAX_PATH_LENGTH w g
    (Cli.source_dir args) true (Cli.exclude_dirs args).

Definition clean_command (args : Cli.Arguments) : string :=
  let absolute_build_dir :=
    if is_absolute (Cli.output_dir args)
    then CString.truncate 4096 (Cli.output_dir args)
    else CString.truncate 4096 (Cli.source_dir args +:+ "/" +:+ Cli.output_dir args) in
  CString.truncate 512
    ("rm -rf " +:+ String CString.dquote absolute_build_dir
     +:+ String CString.dquote EmptyString).

(** [main]: the exit code and the world afterwards; [None] only when a
    recursion budget of the embedding was too small or [build_project] has
    no defined behaviour. *)
Definition main (tc : Toolchain) (argv : list string) (w : World)
    : option (Z * World) :=
  match parse_arguments argv with
  | None => Some (1, w)
  | Some args =>
      if Cli.help args then Some (0, w)
      else if Cli.version args then Some (0, w)
      else
        match main_scan w args with
        | None => None
        | Some (DEP_SUCCESS, g) =>
            if (file_count g =? 0)%nat then Some (1, w)
            else
              match dependency_graph_has_cycle g 1024 with
              | None => None
              | Some (true, _, _) => Some (1, w)
              | Some (false, g, _) =>
                  let config := main_configure args in
                  let w :=
                    if Cli.clean args then (system tc (clean_command args) w).2 else w in
                  build_project tc g config (Cli.source_dir args) w
              end
        | Some (_, _) => Some (1, w)
        end
  end.

(** ** eventchains_build.h: event data and statistics *)

Module Event.

(** [struct CompileEventData], without the floating-point [compile_time].
    [source] points into the graph; only the path and the header flag are
    read through it, so the file is kept by value. [None] stands for a NULL
    [source]. *)
Record CompileEventData : Type := mk {
  source : option SourceFile;
  config : option BuildConfig;
  object_path : string;
  cache_hit : bool
}.

Definition set_cache_hit (d : CompileEventData) (h : bool) : CompileEventData :=
  mk (source d) (config d) (object_path d) h.

Definition set_object_path (d : CompileEventData) (o : string) : CompileEventData :=
  mk (source d) (config d) o (cache_hit d).

End Event.

Module Stats.

(** [struct BuildStatistics], without the three floating-point times. *)
Record BuildStatistics : Type := mk {
  total_files : Z;
  compiled_files : Z;
  cached_files : Z;
  failed_files : Z
}.

End Stats.

(** ** The EventChains engine *)

(** Modelled from the spec: the pipeline engine of the EventChains library
    ([EventResult], [EventContext], [ChainableEvent], [EventMiddleware],
    [event_chain_use_middleware], [event_chain_execute]); the repository
    includes it as [include/eventchains.h] and only calls it. Section 4.K:
    a stage receives a shared mutable context, a keyed map from string to
    opaque value, and produces Success or Failed with a message; a layer
    has the contract [call (stage, context, next)]; the layer added
    earliest runs outermost; in Strict mode the first failed stage aborts
    the run. *)
Record EventResult : Type := mkEventResult {
  success : bool;
  error_message : string
}.

Definition event_result_success : EventResult := mkEventResult true EmptyString.

Definition event_result_failure (message : string) : EventResult :=
  mkEventResult false message.

(** Modelled from the spec: the opaque values of the context map; these
    are the ones the build stores. *)
Inductive ContextValue : Type :=
| CtxString (s : string)
| CtxGraph (g : DependencyGraph)
| CtxConfig (c : BuildConfig).

Abbreviation EventContext := (gmap string ContextValue).

(** Modelled from the spec: a stage of the chain, with its name and the
    user data that [chainable_event_get_user_data] returns. *)
Record ChainableEvent : Type := mkEvent {
  event_name : string;
  user_data : option Event.CompileEventData
}.

(** What the layers of one chain share while it runs: the world, the
    store behind the cache layer ([None] for a NULL pointer), the record
    behind the statistics layer, the context map of the chain and the text
    printed. *)
Record BuildState : Type := mkBuildState {
  st_world : World;
  st_cache : option BuildCache;
  st_stats : option Stats.BuildStatistics;
  st_context : EventContext;
  st_stdout : list string
}.

(** Modelled from the spec: the contract [call (stage, context, next)]. A
    handler runs a stage in a state and returns the outcome, the stage with
    its data, and the state; a layer turns the handler [next] into a
    handler. *)
Definition Handler : Type :=
  ChainableEvent → BuildState → EventResult * ChainableEvent * BuildState.

Definition Middleware : Type := Handler → Handler.

(** Modelled from the spec: onion composition, the layer added earliest
    outermost. *)
Definition compose_layers (layers : list Middleware) (core : Handler) : Handler :=
  foldr (λ layer next, layer next) core layers.

(** Modelled from the spec: [event_chain_execute] in Strict mode. Returns
    the overall success, the events with their data, and the state. *)
Fixpoint event_chain_execute (run : Handler) (events : list ChainableEvent)
    (st : BuildState) : bool * list ChainableEvent * BuildState :=
  match events with
  | [] => (true, [], st)
  | ev :: rest =>
      let '(result, ev', st') := run ev st in
      if success result then
        let '(ok, rest', st'') := event_chain_execute run rest st' in
        (ok, ev' :: rest', st'')
      else (false, ev' :: rest, st')
  end.

Definition print (st : BuildState) (text : string) : BuildState :=
  mkBuildState (st_world st) (st_cache st) (st_stats st) (st_context st)
    (st_stdout st ++ [text]).

Definition print_all (st : BuildState) (texts : list string) : BuildState :=
  mkBuildState (st_world st) (st_cache st) (st_stats st) (st_context st)
    (st_stdout st ++ texts).

Definition with_world (st : BuildState) (w : World) : BuildState :=
  mkBuildState w (st_cache st) (st_stats st) (st_context st) (st_stdout st).

Definition with_cache (st : BuildState) (c : option BuildCache) : BuildState :=
  mkBuildState (st_world st) c (st_stats st) (st_context st) (st_stdout st).

Definition with_stats (st : BuildState) (s : option Stats.BuildStatistics)
    : BuildState :=
  mkBuildState (st_world st) (st_cache st) s (st_context st) (st_stdout st).

(** Modelled from the spec: [event_context_set] on the keyed map. *)
Definition event_context_set (st : BuildState) (key : string) (v : ContextValue)
    : BuildState :=
  mkBuildState (st_world st) (st_cache st) (st_stats st)
    (<[key := v]> (st_context st)) (st_stdout st).

Definition with_data (ev : ChainableEvent) (d : Event.CompileEventData)
    : ChainableEvent :=
  mkEvent (event_name ev) (Some d).

(** ** eventchains_build.c *)

Definition object_key (source_path : string) : string :=
  CString.truncate 512 ("object:" +:+ source_path).

(** [compile_event_execute], as the innermost handler of the chain. *)
Definition compile_event_execute (tc : Toolchain) : Handler :=
  λ ev st,
    match user_data ev with
    | Some data =>
        match Event.source data, Event.config data with
        | Some source, Some config =>
            if is_header source
            then (event_result_success, with_data ev (Event.set_cache_hit data true), st)
            else
              let '(ok, compile_result, w') :=
                compile_source_file tc source config (st_world st) in
              let data := Event.set_cache_hit data false in
              let '(data, st') :=
                match cr_object_file compile_result with
                | Some obj =>
                    let data := Event.set_object_path data
                                  (CString.truncate MAX_PATH_LENGTH obj) in
                    (data,
                     event_context_set (with_world st w') (object_key (path source))
                       (CtxString (Event.object_path data)))
                | None => (data, with_world st w')
                end in
              let result :=
                if ok then event_result_success
                else event_result_failure
                       (CString.truncate 1024
                          ("Compilation failed: " +:+
                           default "Unknown error" (cr_error_output compile_result))) in
              (result, with_data ev data, st')
        | _, _ => (event_result_failure "Invalid compile event data", ev, st)
        end
    | None => (event_result_failure "Invalid compile event data", ev, st)
    end.

Definition create_compile_event (source : SourceFile) (config : BuildConfig)
    : ChainableEvent :=
  mkEvent (CString.truncate 512 ("Compile:" +:+ path source))
    (Some (Event.mk (Some source) (Some config)
             (get_object_file_path (path source) (Config.output_dir config)
                MAX_PATH_LENGTH)
             false)).

(** The event-creating loop of [build_compilation_chain]: one event per
    file of the order that is not a header. *)
Fixpoint compile_events_of (g : DependencyGraph) (config : BuildConfig)
    (order : list nat) : list ChainableEvent :=
  match order with
  | [] => []
  | i :: rest =>
      let file := file_at g i in
      if is_header file then compile_events_of g config rest
      else create_compile_event file config :: compile_events_of g config rest
  end.

Definition CONTEXT_KEY_BUILD_CONFIG : string := "build.config".

(** [build_compilation_chain]: the graph with its marks, the events and
    the initial context; the inner [None] stands for a NULL chain, the
    outer one for an exhausted budget of the sort. *)
Definition build_compilation_chain (g : DependencyGraph) (config : BuildConfig)
    : option (option (DependencyGraph * list ChainableEvent * EventContext)) :=
  match dependency_graph_topological_sort g with
  | None => None
  | Some (DEP_SUCCESS, g', order) =>
      let events := compile_events_of g' config order in
      match events with
      | [] => Some None
      | _ => Some (Some (g', events, {[ CONTEXT_KEY_BUILD_CONFIG := CtxConfig config ]}))
      end
  | Some (_, _, _) => Some None
  end.

(** ** eventchains_middleware.c *)

(** [timing_middleware_execute]; the clock readings and the stored
    [compile_time] are floating point and left out. *)
Definition timing_middleware_execute (verbose : bool) : Middleware :=
  λ next ev st,
    let st := if verbose then print st ("  [TIMING] Starting: " +:+ event_name ev) else st in
    let '(result, ev', st') := next ev st in
    let st' := if verbose then print st' ("  [TIMING] Completed: " +:+ event_name ev) else st' in
    (result, ev', st').

(** [cache_middleware_execute]; the store is the [user_data] of the layer,
    here [st_cache]. *)
Definition cache_middleware_execute : Middleware :=
  λ next ev st,
    match user_data ev with
    | None => next ev st
    | Some data =>
        match Event.source data with
        | None => next ev st
        | Some source =>
            if is_header source
            then (event_result_success, with_data ev (Event.set_cache_hit data true), st)
            else
              (* the query of the decision engine, when there is a store *)
              let '(hit, st1) :=
                match st_cache st with
                | Some cache =>
                    let '(needs, cache') :=
                      build_cache_needs_recompilation (w_fs (st_world st)) cache
                        source (Event.object_path data) in
                    (negb needs, with_cache st (Some cache'))
                | None => (false, st)
                end in
              if hit && file_exists_cache (w_fs (st_world st1)) (Event.object_path data)
              then
                (event_result_success,
                 with_data ev (Event.set_cache_hit data true),
                 event_context_set st1 (object_key (path source))
                   (CtxString (Event.object_path data)))
              else
                let '(result, ev', st2) :=
                  next (with_data ev (Event.set_cache_hit data false)) st1 in
                match st_cache st2, user_data ev' with
                | Some cache, Some data' =>
                    if success result then
                      let graph :=
                        match st_context st2 !! "dependency_graph" with
                        | Some (CtxGraph g) => Some g
                        | _ => None
                        end in
                      let '(cache', lines) :=
                        build_cache_update (w_fs (st_world st2))
                          (w_now (st_world st2)) cache
                          (path source) (Event.object_path data') graph in
                      (result, ev', print_all (with_cache st2 (Some cache')) lines)
                    else (result, ev', st2)
                | _, _ => (result, ev', st2)
                end
        end
    end.

Definition is_compile_event (ev : ChainableEvent) : bool :=
  match user_data ev with
  | Some data => if Event.source data is Some _ then true else false
  | None => false
  end.

Definition event_path (ev : ChainableEvent) : string :=
  match user_data ev with
  | Some data => if Event.source data is Some f then path f else EmptyString
  | None => EmptyString
  end.

Definition event_cache_hit (ev : ChainableEvent) : bool :=
  match user_data ev with
  | Some data => Event.cache_hit data
  | None => false
  end.

Definition logging_middleware_execute (quiet : bool) : Middleware :=
  λ next ev st,
    let compile := is_compile_event ev in
    let st :=
      if negb quiet && compile then print st ("  [COMPILE] " +:+ event_path ev) else st in
    let '(result, ev', st') := next ev st in
    let st' :=
      if success result then
        if compile && event_cache_hit ev' then
          if negb quiet then print st' ("  [CACHED]  " +:+ event_path ev) else st'
        else if negb quiet then print st' ("  [SUCCESS] " +:+ event_name ev) else st'
      else
        let st' := print st' ("  [FAILED]  " +:+ event_name ev) in
        match error_message result with
        | EmptyString => st'
        | msg => print st' ("            " +:+ msg)
        end in
    (result, ev', st').

(** [statistics_middleware_execute]; the record is the [user_data] of the
    layer, here [st_stats]; the counters are [size_t]. The elapsed time
    added to [compilation_time] is floating point and left out. *)
Definition statistics_middleware_execute : Middleware :=
  λ next ev st,
    match st_stats st with
    | None => next ev st
    | Some _ =>
        let compile := is_compile_event ev in
        let '(result, ev', st') := next ev st in
        match st_stats st' with
        | Some stats =>
            if compile then
              let stats' :=
                if success result then
                  if event_cache_hit ev'
                  then Stats.mk (Stats.total_files stats) (Stats.compiled_files stats)
                         (wrap64 (Stats.cached_files stats + 1)) (Stats.failed_files stats)
                  else Stats.mk (Stats.total_files stats)
                         (wrap64 (Stats.compiled_files stats + 1))
                         (Stats.cached_files stats) (Stats.failed_files stats)
                else Stats.mk (Stats.total_files stats) (Stats.compiled_files stats)
                       (Stats.cached_files stats) (wrap64 (Stats.failed_files stats + 1)) in
              (result, ev', with_stats st' (Some stats'))
            else (result, ev', st')
        | None => (result, ev', st')
        end
    end.

(** *** eventchains_build.c: the build itself *)

(** The project directory derived from the output directory: a trailing
    separator is dropped, then the text is cut at its last separator. *)
Definition project_dir_of (output_dir : string) : string :=
  let p := CString.truncate MAX_PATH_LENGTH output_dir in
  let len := String.length p in
  let p :=
    match String.get (len - 1) p with
    | Some c =>
        if (0 <? len)%nat && (Ascii.eqb c "/"%char || Ascii.eqb c CString.backslash)
        then String.substring 0 (len - 1) p
        else p
    | None => p
    end in
  let last_slash :=
    match CString.strrchr p "/"%char with
    | Some k => Some k
    | None => CString.strrchr p CString.backslash
    end in
  match last_slash with
  | Some k => String.substring 0 k p
  | None => p
  end.

(** The loop that collects the object files for the link step. *)
Fixpoint collect_objects (events : list ChainableEvent) : list string :=
  match events with
  | [] => []
  | ev :: rest =>
      match user_data ev with
      | Some data =>
          match Event.object_path data, Event.source data with
          | String _ _, Some source =>
              if is_header source then collect_objects rest
              else Event.object_path data :: collect_objects rest
          | _, _ => collect_objects rest
          end
      | None => collect_objects rest
      end
  end.

(** The layers in the order [eventchains_build_project] attaches them. *)
Definition build_layers (with_statistics verbose : bool) : list Middleware :=
  (if with_statistics then [statistics_middleware_execute] else [])
  ++ [logging_middleware_execute false; cache_middleware_execute]
  ++ (if verbose then [timing_middleware_execute true] else []).

(** What a run of [eventchains_build_project] leaves behind: the exit
    code, the statistics record, the store as it is when the run prints its
    statistics or gives up, the graph and the world. *)
Record BuildOutcome : Type := mkBuildOutcome {
  exit_code : Z;
  out_stats : option Stats.BuildStatistics;
  out_cache : option BuildCache;
  out_graph : DependencyGraph;
  out_world : World;
  out_stdout : list string
}.

(** [eventchains_build_project], for a given way [compose] of stacking the
    attached layers around the event; [with_statistics] tells whether
    [stats] is a non-NULL pointer. [None] only for an exhausted budget of
    the sort, or when the behaviour of the C function is undefined:
    [link_executable] has returned without writing to [link_result], whose
    [error_output] is then read. *)
Definition eventchains_build_project_with
    (compose : list Middleware → Handler → Handler)
    (tc : Toolchain) (g : DependencyGraph)
    (config : BuildConfig) (with_statistics : bool) (w : World)
    : option BuildOutcome :=
  let stats :=
    if with_statistics
    then Some (Stats.mk (Z.of_nat (file_count g)) 0 0 0)
    else None in
  let w := set_fs w (mkdir (w_fs w) (Config.output_dir config)) in
  let '(cache, w, lines) :=
    build_cache_create w (project_dir_of (Config.output_dir config)) in
  match build_compilation_chain g config with
  | None => None
  | Some None => Some (mkBuildOutcome 1 stats (Some cache) g w lines)
  | Some (Some (g', events, context)) =>
      let context := <["dependency_graph" := CtxGraph g']> context in
      let run :=
        compose (build_layers with_statistics (Config.verbose config))
          (compile_event_execute tc) in
      let st := mkBuildState w (Some cache) stats context lines in
      let '(ok, events', st') := event_chain_execute run events st in
      let '(saved, w', lines') :=
        match st_cache st' with
        | Some cache' => build_cache_save (st_world st') cache'
        | None => (false, st_world st', [])
        end in
      let st' := print_all (with_world st' w') lines' in
      if negb ok
      then Some (mkBuildOutcome 1 (st_stats st') (st_cache st') g'
                   (st_world st') (st_stdout st'))
      else
        match link_executable tc (collect_objects events') config (st_world st') with
        | (linked, Some _, w'') =>
            Some (mkBuildOutcome (if linked then 0 else 1) (st_stats st') (st_cache st')
                    g' w'' (st_stdout st'))
        | (_, None, _) => None
        end
  end.

(** [eventchains_build_project] on the engine as the specification
    describes it. *)
Definition eventchains_build_project :=
  eventchains_build_project_with compose_layers.

(** The opposite stacking, the layer attached last outermost: the reading
    of the comments in [eventchains_build_project] ("attached FIRST so it
    runs LAST"). Used only to show which results do not depend on the
    stacking order. *)
Definition compose_layers_reversed (layers : list Middleware) (core : Handler)
    : Handler :=
  compose_layers (rev layers) core.

(** *** Vocabulary for the statements about the cache *)

(** The entry of a store for a source path, independently of how the code
    searches: slot [i] is in use and holds [e], [e] carries the path, and
    no slot before [i] does. A store that [build_cache_update] filled holds
    at most one entry per path; in any store, this is the first one. *)
Definition entry_in_use (cache : BuildCache) (i : nat) (e : CacheEntry) : Prop :=
  (i < entry_count cache)%nat ∧ entries cache !! i = Some e.

Definition entry_for (cache : BuildCache) (p : string) (i : nat) (e : CacheEntry)
    : Prop :=
  entry_in_use cache i e ∧ source_path e = p ∧
  ∀ j e', (j < i)%nat → entries cache !! j = Some e' → source_path e' ≠ p.

Definition entry_absent (cache : BuildCache) (p : string) : Prop :=
  ∀ i e, entry_in_use cache i e → source_path e ≠ p.

(** The decision rule of the specification, in its words: the entry is
    absent or invalid, or the current source hash is 0, or it differs from
    the stored one, or a recorded dependency has a non-zero current hash
    that differs from the recorded hash. *)
Definition must_recompile (fs : FileSystem) (cache : BuildCache)
    (source : SourceFile) : Prop :=
  entry_absent cache (path source) ∨
  ∃ i entry,
    entry_for cache (path source) i entry ∧
    (valid entry = false ∨
     hash_file_content fs (path source) = 0 ∨
     hash_file_content fs (path source) ≠ source_hash entry ∨
     ∃ dep recorded,
       (dep, recorded) ∈ dependencies entry ∧
       hash_file_content fs dep ≠ 0 ∧
       hash_file_content fs dep ≠ recorded).

Definition cache_bounded (cache : BuildCache) : Prop :=
  (entry_count cache ≤ MAX_CACHE_ENTRIES)%nat.

(** *** Vocabulary for the statements about the sort *)

(** The part of a [SourceFile] that the sort never writes. *)
Definition static_part (f : SourceFile) : string * list string * bool :=
  (path f, includes f, is_header f).

Definition same_static (g g' : DependencyGraph) : Prop :=
  static_part <$> files g = static_part <$> files g'.

(** What a successful traversal step may change: marks only, visited
    flags only upwards, and the stack flags are restored. *)
Record grows (g g' : DependencyGraph) : Prop := mkGrows {
  gr_static : same_static g g';
  gr_visited : ∀ j, visited (file_at g j) = true → visited (file_at g' j) = true;
  gr_stack : ∀ j, in_stack (file_at g' j) = in_stack (file_at g j)
}.

(** A file is finished when it was visited and has left the stack. *)
Definition finished (g : DependencyGraph) (j : nat) : Prop :=
  (j < length (files g))%nat ∧
  visited (file_at g j) = true ∧ in_stack (file_at g j) = false.

(** The invariant of the sort between two steps of the traversal. *)
Record sort_inv (g : DependencyGraph) (order : BuildOrder) : Prop := mkSortInv {
  inv_nodup : NoDup order;
  inv_finished : ∀ j, j ∈ order ↔ finished g j;
  inv_deps : ∀ pj j inc d,
    order !! pj = Some j →
    inc ∈ includes (file_at g j) →
    dependency_graph_find_file g inc = Some d →
    ∃ pd, order !! pd = Some d ∧ (pd < pj)%nat;
  inv_stack : ∀ j, in_stack (file_at g j) = true → visited (file_at g j) = true
}.

(** A set of files closed under registered include edges. *)
Definition closed (g : DependencyGraph) (P : nat → Prop) : Prop :=
  ∀ u inc d, P u → inc ∈ includes (file_at g u) →
    dependency_graph_find_file g inc = Some d → P d.

Fixpoint count_unvisited (l : list SourceFile) : nat :=
  match l with
  | [] => 0
  | f :: rest => ((if visited f then 0 else 1) + count_unvisited rest)%nat
  end.

(** What a successful call of the DFS guarantees, for a budget [fuel] that
    covers the files not yet visited. The order grows at its end by a
    non-empty run [l] of files, all of them inside every edge-closed set
    that holds the root. *)
Definition dfs_spec_at
    (dfs : DependencyGraph → nat → BuildOrder → dfs_result) (fuel : nat) : Prop :=
  ∀ g i order,
    (i < length (files g))%nat → visited (file_at g i) = false →
    (count_unvisited (files g) ≤ fuel)%nat → sort_inv g order →
    match dfs g i order with
    | DfsOk g' order' =>
        grows g g' ∧ sort_inv g' order' ∧ visited (file_at g' i) = true ∧
        ∃ l, order' = order ++ l ∧ l ≠ [] ∧
             ∀ P : nat → Prop, closed g P → P i → Forall P l
    | DfsCycle _ _ _ => True
    | DfsOutOfFuel => False
    end.

(** ** Concrete inputs used by the examples *)

(** A store at its bound, every slot holding an entry for [old.c]. *)
Definition full_cache : BuildCache :=
  mkBuildCache CACHE_VERSION MAX_CACHE_ENTRIES
    (replicate MAX_CACHE_ENTRIES
       (mkCacheEntry "old.c" "build/old.o" 1 0 0 [] true))
    ".eventchains" "." 0 0 0.

(** A file system with one empty, readable source file. *)
Definition empty_source_fs : FileSystem :=
  {[ "empty.c" := mkFileNode RegularFile true EmptyString 0 ]}.

Definition text_file (content : string) : FileNode :=
  mkFileNode RegularFile true content 0.

Definition directory : FileNode :=
  mkFileNode DirectoryFile true EmptyString 0.

(** One line of text, with its newline. *)
Definition line (s : string) : string := s +:+ String CString.newline EmptyString.

(** The directive [#include] followed by the name between double quotes. *)
Definition include_quoted (name : string) : string :=
  line ("#include " +:+ String CString.dquote name
        +:+ String CString.dquote EmptyString).

(** [src/main.c] includes [util.h] in quote form; a file of that name lies
    next to it and another one under the include root [inc]. *)
Definition quote_fs : FileSystem :=
  list_to_map
    [ ("src/main.c", text_file (include_quoted "util.h" +:+ line "int main(void){return 0;}"));
      ("src/util.h", text_file (line "int local;"));
      ("inc/util.h", text_file (line "int from_root;")) ].

Definition quote_graph : DependencyGraph := mkDependencyGraph [] ["inc"].

(** A project directory with a single source file. *)
Definition single_fs : FileSystem :=
  list_to_map
    [ ("proj", directory);
      ("proj/main.c", text_file (line "int main(void){return 0;}")) ].

Definition single_world : World :=
  mkWorld single_fs (list_to_map [("proj", ["."; ".."; "main.c"])]) ∅ 0 [].

(** Child processes that always exit with status 0 and touch no file. *)
Definition always_ok : Toolchain := λ _ fs, (Some 0, EmptyString, fs).

(** Scenario S2: [util.h] without includes, [math.h] including [util.h],
    [main.c] including [math.h] and defining [main]; all three in the
    directory [proj], which is also the include root. *)
Definition s2_fs : FileSystem :=
  list_to_map
    [ ("proj", directory);
      ("proj/util.h", text_file (line "int util(void);"));
      ("proj/math.h", text_file (include_quoted "util.h" +:+ line "int math(void);"));
      ("proj/main.c",
       text_file (include_quoted "math.h" +:+ line "int main(void){return 0;}")) ].

Definition s2_world : World :=
  mkWorld s2_fs (list_to_map [("proj", ["."; ".."; "main.c"; "math.h"; "util.h"])])
    ∅ 0 [].

(** The graph as the test programs build it: include root, then scan. *)
Definition s2_graph : DependencyGraph :=
  match dependency_graph_scan_directory_with_exclusions MAX_PATH_LENGTH s2_world
          (dependency_graph_add_include_path (mkDependencyGraph [] []) "proj").2
          "proj" true [] with
  | Some (_, g) => g
  | None => mkDependencyGraph [] []
  end.

(** The configuration as the test programs set it up, with [gcc] found. *)
Definition s2_config : BuildConfig :=
  Config.set_compiler
    (build_config_add_include_path
       (build_config_set_output_binary
          (build_config_set_output_dir build_config_create "proj/build")
          "program")
       "proj").2
    COMPILER_GCC (Some "gcc").

Definition s2_compile_command : string :=
  "gcc -c proj/main.c -o proj/build/main.o -Iproj -Wall -O2".

Definition s2_link_command : string :=
  "gcc proj/build/main.o -o proj/build/program".

(** A compiler that writes the object file and a linker that writes the
    program; both newer than the sources. *)
Definition s2_toolchain : Toolchain :=
  λ command fs,
    if String.eqb command s2_compile_command
    then (Some 0, EmptyString,
          <["proj/build/main.o" := mkFileNode RegularFile true "object" 1]> fs)
    else if String.eqb command s2_link_command
    then (Some 0, EmptyString,
          <["proj/build/program" := mkFileNode RegularFile true "program" 2]> fs)
    else (Some 127, "command not found", fs).

(** Deleting the build directory with what the build put there. *)
Definition remove_build_dir (w : World) : World :=
  set_fs w
    (delete "proj/build/program"
       (delete "proj/build/main.o" (delete "proj/build" (w_fs w)))).

(** Building again on whatever the previous build left; [change] is what
    happens to the world in between. *)
Definition rebuild (compose : list Middleware → Handler → Handler)
    (change : World → World) (previous : option BuildOutcome)
    : option BuildOutcome :=
  match previous with
  | Some b =>
      eventchains_build_project_with compose s2_toolchain (out_graph b) s2_config true
        (change (out_world b))
  | None => None
  end.

Definition s2_first_build (compose : list Middleware → Handler → Handler)
    : option BuildOutcome :=
  eventchains_build_project_with compose s2_toolchain s2_graph s2_config true s2_world.

(** The statistics of a run together with the hit and miss counters of
    its store. *)
Definition counters (b : option BuildOutcome)
    : option (Z * Z * Z * Z * Z) :=
  match b with
  | Some o =>
      match out_stats o, out_cache o with
      | Some st, Some c =>
          Some (exit_code o, Stats.compiled_files st, Stats.cached_files st,
                hits c, misses c)
      | _, _ => None
      end
  | None => None
  end.

(** A header that includes a source file. *)
Definition header_includes_source_fs : FileSystem :=
  list_to_map
    [ ("h.h", text_file (include_quoted "s.c"));
      ("s.c", text_file (line "int x;")) ].

Definition header_includes_source_graph : DependencyGraph :=
  match dependency_graph_add_file (S MAX_SOURCE_FILES) header_includes_source_fs
          (mkDependencyGraph [] []) "h.h" with
  | Some (_, g) => g
  | None => mkDependencyGraph [] []
  end.

(** The cache layer around the compile event, without the other layers,
    and the compile event of [main.c]. *)
Definition s2_cache_layer : Handler :=
  cache_middleware_execute (compile_event_execute s2_toolchain).

Definition s2_event : ChainableEvent :=
  create_compile_event (file_at s2_graph 0) s2_config.

(** The state in which a build starts its chain in world [w]: output
    directory made, store loaded from the project directory. *)
Definition s2_start (w : World) : BuildState :=
  let w := set_fs w (mkdir (w_fs w) (Config.output_dir s2_config)) in
  let '(cache, w, lines) :=
    build_cache_create w (project_dir_of (Config.output_dir s2_config)) in
  mkBuildState w (Some cache) None {[ "dependency_graph" := CtxGraph s2_graph ]} lines.

(** The world after a first pass of the cache layer over [main.c] and the
    save of the store. *)
Definition s2_saved_world : World :=
  let st := (s2_cache_layer s2_event (s2_start s2_world)).2 in
  match st_cache st with
  | Some cache => (build_cache_save (st_world st) cache).1.2
  | None => st_world st
  end.

(** Scenario S5 at the cache layer: the build directory is gone, the
    store is loaded again. *)
Definition s5_state : BuildState := s2_start (remove_build_dir s2_saved_world).

(** A small store with a valid entry for [a.c], whose content is still
    what was hashed, and no object file on disk. *)
Definition small_source : SourceFile :=
  mkSourceFile "a.c" [] false false false (-1).

Definition small_fs : FileSystem :=
  {[ "a.c" := text_file (line "int a;") ]}.

Definition small_cache : BuildCache :=
  mkBuildCache CACHE_VERSION 1
    [ mkCacheEntry "a.c" "build/a.o" (hash_file_content small_fs "a.c") 0 0 [] true ]
    ".eventchains" "." 0 0 0.

Definition small_data : Event.CompileEventData :=
  Event.mk (Some small_source) (Some build_config_create) "build/a.o" false.

Definition small_event : ChainableEvent :=
  mkEvent "Compile:a.c" (Some small_data).

Definition small_state : BuildState :=
  mkBuildState (mkWorld small_fs ∅ ∅ 0 []) (Some small_cache) None ∅ [].

(** The graph of scenario S2 written out. *)
Definition s2_explicit_graph : DependencyGraph :=
  mkDependencyGraph
    [ mkSourceFile "proj/main.c" ["proj/math.h"] false false false (-1);
      mkSourceFile "proj/math.h" ["proj/util.h"] true false false (-1);
      mkSourceFile "proj/util.h" [] true false false (-1) ]
    ["proj"].

(** ** Further vocabulary and inputs for the statements about the cache *)


(** A store as [build_cache_create] allocates it, with no entry in use. *)
Definition empty_store : BuildCache :=
  mkBuildCache CACHE_VERSION 0 (replicate MAX_CACHE_ENTRIES zero_entry)
    "proj/.eventchains" "proj" 0 0 0.

(** A store with two entries in use: [a.c] depending on [a.h] and [b.h],
    and [b.c] depending on [b.h]. *)
Definition two_entry_store : BuildCache :=
  mkBuildCache CACHE_VERSION 2
    [ mkCacheEntry "a.c" "build/a.o" 11 0 0 [("a.h", 1); ("b.h", 2)] true;
      mkCacheEntry "b.c" "build/b.o" 12 0 0 [("b.h", 2)] true;
      zero_entry ]
    "proj/.eventchains" "proj" 0 0 0.

(** A world whose cache directory exists. *)
Definition cache_dir_world : World :=
  mkWorld {[ "proj/.eventchains" := directory ]} ∅ ∅ 0 [].







(** ** Further vocabulary for the statements about includes *)

(** Every character of the text satisfies the test. *)
Fixpoint string_forall (P : ascii → bool) (s : string) : bool :=
  match s with
  | EmptyString => true
  | String c rest => P c && string_forall P rest
  end.

(** A character a captured name may consist of, for the closing character
    [end_char]: anything but that character and NUL. *)
Definition name_char (end_char : ascii) (c : ascii) : bool :=
  negb (Ascii.eqb c end_char) && negb (Ascii.eqb c CString.nul).

(** The path [resolve_include] probes under an include root. *)
Definition root_candidate (root include_name : string) (path_size : nat) : string :=
  CString.truncate path_size (root +:+ "/" +:+ include_name).

(** An include as [parse_includes] may record it: an existing regular file
    under a path that fits [MAX_PATH_LENGTH]. *)
Definition recorded_include (fs : FileSystem) (inc : string) : Prop :=
  file_exists fs inc = true ∧ (String.length inc < MAX_PATH_LENGTH)%nat.

(** An include directive as the scanner accepts it: optional blanks, the
    hash sign, optional blanks, the word [include], optional blanks, the
    name between its delimiters, and anything after. *)
Definition include_directive (ws1 ws2 ws3 : string) (opening : ascii)
    (name : string) (closing : ascii) (rest : string) : string :=
  ws1 +:+ String "#"%char
    (ws2 +:+ "include" +:+ ws3 +:+ String opening (name +:+ String closing rest)).

(** The text contains no occurrence of the character. *)
Definition free_of (c : ascii) (s : string) : bool :=
  string_forall (λ a, negb (Ascii.eqb a c)) s.

(** White space inside a line: any [isspace] character but the newline,
    at which [fgets] ends a line. *)
Definition blank (c : ascii) : bool :=
  CString.isspace c && negb (Ascii.eqb c CString.newline).

(** A character of an include name on a line: not the closing delimiter,
    not NUL, not the newline. *)
Definition line_name_char (closing : ascii) (c : ascii) : bool :=
  name_char closing c && negb (Ascii.eqb c CString.newline).

(** The directive up to and including the closing delimiter. *)
Definition directive_head (ws1 ws2 ws3 : string) (opening : ascii)
    (name : string) (closing : ascii) : string :=
  include_directive ws1 ws2 ws3 opening name closing EmptyString.

(** The text consists of whole lines: it is empty or ends with a newline. *)
Definition whole_lines (text : string) : Prop :=
  text = EmptyString ∨ ∃ b, text = b +:+ String CString.newline EmptyString.

(** ** Further vocabulary for the statements about the file registry *)

(** The loop [for (i = 0; i < file->include_count; i++)] at the end of
    [dependency_graph_add_file], with the recursive call as a parameter. *)
Definition add_includes_with
    (add : DependencyGraph → string → option (DependencyErrorCode * DependencyGraph))
    : list string → DependencyGraph → option (DependencyErrorCode * DependencyGraph) :=
  fix add_includes (incs : list string) (g : DependencyGraph)
    : option (DependencyErrorCode * DependencyGraph) :=
    match incs with
    | [] => Some (DEP_SUCCESS, g)
    | inc :: rest =>
        match add g inc with
        | Some (_, g') => add_includes rest g'
        | None => None
        end
    end.

(** A registry entry as [dependency_graph_add_file] creates it from the
    file system [fs]. *)
Definition registered_from (fs : FileSystem) (f : SourceFile) : Prop :=
  ∃ p, file_exists fs p = true ∧ is_source_file p = true ∧
       path f = normalize_path p MAX_PATH_LENGTH ∧
       is_header f = is_header_file p ∧
       is_Some (fopen_read fs (path f)) ∧
       Forall (recorded_include fs) (includes f) ∧
       (length (includes f) ≤ MAX_INCLUDES_PER_FILE)%nat ∧
       visited f = false ∧ in_stack f = false ∧ sort_order f = -1.

(** No existing file has a backslash in its path or a path too long for
    the registry: [normalize_path] leaves such paths as they are. *)
Definition plain_paths (fs : FileSystem) : Prop :=
  ∀ p, file_exists fs p = true → normalize_path p MAX_PATH_LENGTH = p.

(** A file whose name contains a backslash, including itself under the
    name with a slash, next to a file of that second name. *)
Definition backslash_name : string :=
  "a" +:+ String CString.backslash "b.c".

Definition backslash_fs : FileSystem :=
  list_to_map
    [ (backslash_name, text_file (line "int x;"));
      ("a/b.c", text_file (line "int y;")) ].

(** What [dependency_graph_add_file] achieves for an include: it is
    registered, unless it is no source file by its name, the registry is
    full, or its own includes cannot be parsed. *)
Definition include_handled (fs : FileSystem) (g : DependencyGraph) (inc : string) : Prop :=
  is_Some (dependency_graph_find_file g inc) ∨
  is_source_file inc = false ∨
  (MAX_SOURCE_FILES ≤ file_count g)%nat ∨
  (parse_includes fs g (source_file_create inc)).1 ≠ DEP_SUCCESS.

(** Every include of every registered file is handled, the includes in
    [pending] apart. *)
Definition includes_closed_but (fs : FileSystem) (g : DependencyGraph)
    (pending : list string) : Prop :=
  ∀ f inc, f ∈ files g → inc ∈ includes f →
           include_handled fs g inc ∨ inc ∈ pending.

Definition includes_closed (fs : FileSystem) (g : DependencyGraph) : Prop :=
  ∀ f inc, f ∈ files g → inc ∈ includes f → include_handled fs g inc.

(** The registry [b] extends the registry [a]. *)
Definition extends (a b : DependencyGraph) : Prop :=
  (∃ new, files b = files a ++ new) ∧ include_paths b = include_paths a.

(** ** Further vocabulary for the statements about include cycles *)

(** The edges the traversal follows: [u] lists an include that the
    registry lookup resolves to [d]. *)
Definition include_edge (g : DependencyGraph) (u d : nat) : Prop :=
  ∃ inc, inc ∈ includes (file_at g u) ∧ dependency_graph_find_file g inc = Some d.

Definition has_include_cycle (g : DependencyGraph) : Prop :=
  ∃ u, tc (include_edge g) u u.

(** The text written to [cycle_path] names an edge [u -> d] that closes a
    cycle: [d] reaches [u] again. *)
Definition back_edge_trace (g : DependencyGraph) (path_size : nat) (msg : string)
    : Prop :=
  ∃ u d,
    include_edge g u d ∧ rtc (include_edge g) d u ∧
    msg = CString.truncate path_size
            (path (file_at g u) +:+ " -> " +:+ path (file_at g d)).

(** Every file on the traversal stack reaches the file about to be
    entered. *)
Definition stack_reaches (g : DependencyGraph) (i : nat) : Prop :=
  ∀ j, in_stack (file_at g j) = true → rtc (include_edge g) j i.

(** What a failing call of the DFS guarantees. *)
Definition dfs_cycle_at
    (dfs : DependencyGraph → nat → BuildOrder → dfs_result)
    (fuel path_size : nat) : Prop :=
  ∀ g i order,
    (i < length (files g))%nat → visited (file_at g i) = false →
    (count_unvisited (files g) ≤ fuel)%nat → sort_inv g order →
    stack_reaches g i →
    match dfs g i order with
    | DfsCycle _ _ msg => back_edge_trace g path_size msg
    | _ => True
    end.

(** The marks as [dependency_graph_has_cycle] resets them. *)
Definition reset_flags (g : DependencyGraph) : DependencyGraph :=
  mkDependencyGraph
    ((λ f, set_in_stack false (set_visited false f)) <$> files g)
    (include_paths g).

(** Two files that include each other, and a file that includes itself. *)
Definition mutual_graph : DependencyGraph :=
  mkDependencyGraph
    [ mkSourceFile "a.h" ["b.h"] true false false (-1);
      mkSourceFile "b.h" ["a.h"] true false false (-1) ]
    [].

(** A project directory whose two headers include each other. *)
Definition mutual_fs : FileSystem :=
  list_to_map
    [ ("proj", directory);
      ("proj/a.h", text_file (include_quoted "b.h"));
      ("proj/b.h", text_file (include_quoted "a.h")) ].

Definition mutual_world : World :=
  mkWorld mutual_fs (list_to_map [("proj", ["."; ".."; "a.h"; "b.h"])]) ∅ 0 [].

Definition mutual_args : Cli.Arguments :=
  Cli.mk "proj" "build" "program" [] false false false false false false 1.

Definition mutual_scanned : DependencyGraph :=
  mkDependencyGraph
    [ mkSourceFile "proj/a.h" ["proj/b.h"] true false false (-1);
      mkSourceFile "proj/b.h" ["proj/a.h"] true false false (-1) ]
    ["proj"; "."].

(** The field [sort_order] of every file in the order is its position. *)
Definition order_positions (g : DependencyGraph) (order : BuildOrder) : Prop :=
  ∀ p j, order !! p = Some j → sort_order (file_at g j) = Z.of_nat p.

Definition dfs_positions_at
    (dfs : DependencyGraph → nat → BuildOrder → dfs_result) (fuel : nat) : Prop :=
  ∀ g i order,
    (i < length (files g))%nat → visited (file_at g i) = false →
    (count_unvisited (files g) ≤ fuel)%nat → sort_inv g order →
    order_positions g order →
    match dfs g i order with
    | DfsOk g' order' => order_positions g' order'
    | _ => True
    end.

(** [main.c] includes [math.h], which includes [util.h]; all registered
    under plain names. *)
Definition chain_graph : DependencyGraph :=
  mkDependencyGraph
    [ mkSourceFile "main.c" ["math.h"] false false false 0;
      mkSourceFile "math.h" ["util.h"] true false false 0;
      mkSourceFile "util.h" [] true false false 0 ]
    [].

(** ** Further vocabulary for the statements about the layers *)

(** A handler built from the compile event by wrapping it in layers of
    [eventchains_middleware.c], in any number and order. *)
Inductive layered (tc : Toolchain) : Handler → Prop :=
| layered_core : layered tc (compile_event_execute tc)
| layered_timing verbose h :
    layered tc h → layered tc (timing_middleware_execute verbose h)
| layered_logging quiet h :
    layered tc h → layered tc (logging_middleware_execute quiet h)
| layered_statistics h :
    layered tc h → layered tc (statistics_middleware_execute h)
| layered_cache h :
    layered tc h → layered tc (cache_middleware_execute h).

(** The event is the compilation of the source file [source] (no header)
    under [config]. *)
Definition compiles (ev : ChainableEvent) (source : SourceFile) (config : BuildConfig)
    : Prop :=
  ∃ data, user_data ev = Some data ∧ Event.source data = Some source ∧
          Event.config data = Some config ∧ is_header source = false.

(** [main.c] includes [a.h]; the object file is newer than [main.c], and
    [a.h] was edited after the store recorded its hash. *)
Definition stale_fs : FileSystem :=
  list_to_map
    [ ("main.c", mkFileNode RegularFile true (include_quoted "a.h") 1);
      ("a.h", mkFileNode RegularFile true (line "long a;") 3);
      ("build/main.o", mkFileNode RegularFile true "old" 2) ].

Definition stale_source : SourceFile :=
  mkSourceFile "main.c" ["a.h"] false false false (-1).

Definition stale_config : BuildConfig :=
  Config.set_output_dir build_config_create "build".

Definition stale_store : BuildCache :=
  mkBuildCache CACHE_VERSION 1
    [ mkCacheEntry "main.c" "build/main.o" (hash_file_content stale_fs "main.c") 1 2
        [("a.h", 7)] true ]
    ".eventchains" "." 0 0 0.

Definition stale_state : BuildState :=
  mkBuildState (mkWorld stale_fs ∅ ∅ 4 []) (Some stale_store) None ∅ [].

(** A tool chain that would rewrite the object file. *)
Definition rewriting_toolchain : Toolchain :=
  λ command fs, (Some 0, EmptyString, <["build/main.o" := text_file "new"]> fs).

(** Two headers and nothing else. *)
Definition header_only_graph : DependencyGraph :=
  mkDependencyGraph
    [ mkSourceFile "a.h" ["b.h"] true false false (-1);
      mkSourceFile "b.h" [] true false false (-1) ]
    [].

(** ** dependency_resolver.c: dependency analysis *)

(** The first loop of [collect_dependencies_recursive]: the index at which
    the registry holds the pointer, 0 when it holds it nowhere. *)
Definition pointer_index (g : DependencyGraph) (file : nat) : nat :=
  if (file <? file_count g)%nat then file else 0%nat.

(** The [for] loop over [file->includes] in
    [collect_dependencies_recursive]; [collect] is the recursive call,
    [deps] the output array in use and [visited] the array of flags. *)
Fixpoint collect_includes
    (collect : nat → list nat → list bool → option (list nat * list bool))
    (g : DependencyGraph) (max_deps : nat) (incs : list string)
    (deps : list nat) (visited : list bool) : option (list nat * list bool) :=
  match incs with
  | [] => Some (deps, visited)
  | inc :: rest =>
      match dependency_graph_find_file g inc with
      | None => collect_includes collect g max_deps rest deps visited
      | Some dep =>
          let deps := if (length deps <? max_deps)%nat then deps ++ [dep] else deps in
          match collect dep deps visited with
          | Some (deps', visited') =>
              collect_includes collect g max_deps rest deps' visited'
          | None => None
          end
      end
  end.

(** [collect_dependencies_recursive]; [fuel] bounds the depth of the
    recursion and [None] means it was too small. *)
Fixpoint collect_dependencies_recursive (fuel : nat) (g : DependencyGraph)
    (max_deps : nat) (file : nat) (deps : list nat) (visited : list bool)
    : option (list nat * list bool) :=
  match fuel with
  | O => None
  | S fuel' =>
      let file_idx := pointer_index g file in
      if default false (visited !! file_idx) then Some (deps, visited)
      else
        collect_includes (collect_dependencies_recursive fuel' g max_deps) g max_deps
          (includes (file_at g file)) deps (<[file_idx := true]> visited)
  end.

(** [dependency_graph_get_all_dependencies]: the error code and
    [deps[0 .. dep_count)]. The flag array has [MAX_SOURCE_FILES] slots,
    and the budget is one call per slot and one more. *)
Definition dependency_graph_get_all_dependencies (g : DependencyGraph) (file : nat)
    (max_deps : nat) : option (DependencyErrorCode * list nat) :=
  match collect_dependencies_recursive (S MAX_SOURCE_FILES) g max_deps file []
          (replicate MAX_SOURCE_FILES false) with
  | Some (deps, _) => Some (DEP_SUCCESS, deps)
  | None => None
  end.

(** The flags still clear. *)
Fixpoint count_false (l : list bool) : nat :=
  match l with
  | [] => 0
  | b :: rest => ((if b then 0 else 1) + count_false rest)%nat
  end.

(** What a call of [collect_dependencies_recursive] guarantees when the
    budget [fuel] exceeds the number of clear flags. *)
Definition collect_spec_at
    (collect : nat → list nat → list bool → option (list nat * list bool))
    (g : DependencyGraph) (max_deps fuel : nat) : Prop :=
  ∀ file deps visited,
    (file < file_count g)%nat → length visited = MAX_SOURCE_FILES →
    (count_false visited < fuel)%nat →
    ∃ deps' visited',
      collect file deps visited = Some (deps', visited') ∧
      length visited' = MAX_SOURCE_FILES ∧
      (∀ j, visited !! j = Some true → visited' !! j = Some true) ∧
      visited' !! file = Some true ∧
      (count_false visited' ≤ count_false visited)%nat ∧
      (∃ l, deps' = deps ++ l ∧ Forall (λ d, tc (include_edge g) file d) l) ∧
      (length deps' ≤ length deps `max` max_deps)%nat ∧
      ((length deps' < max_deps)%nat →
       ∀ u, visited' !! u = Some true → visited !! u ≠ Some true →
            ∀ d, include_edge g u d → d ∈ deps' ∧ visited' !! d = Some true).

(** A diamond: [main.c] includes [a.h] and [b.h], both include [c.h]. *)
Definition diamond_graph : DependencyGraph :=
  mkDependencyGraph
    [ mkSourceFile "main.c" ["a.h"; "b.h"] false false false (-1);
      mkSourceFile "a.h" ["c.h"] true false false (-1);
      mkSourceFile "b.h" ["c.h"] true false false (-1);
      mkSourceFile "c.h" [] true false false (-1) ]
    [].

(* ===================================================================== *)
(** * Part II: properties *)
(* ===================================================================== *)

(** ** Strings and buffers *)

Section Strings.

Lemma append_cons x (a b : string) : String x a +:+ b = String x (a +:+ b).
Proof. reflexivity. Qed.

Lemma append_nil (b : string) : EmptyString +:+ b = b.
Proof. reflexivity. Qed.

Lemma append_nil_r (a : string) : a +:+ EmptyString = a.
Proof. induction a as [|x a IH]; [done|]. rewrite append_cons. by f_equal. Qed.

Lemma append_assoc (a b c : string) : (a +:+ b) +:+ c = a +:+ (b +:+ c).
Proof. induction a as [|x a IH]; [done|]. rewrite !append_cons. by f_equal. Qed.

Lemma append_length (a b : string) :
  String.length (a +:+ b) = (String.length a + String.length b)%nat.
Proof.
  induction a as [|x a IH]; [done|]. rewrite append_cons. simpl. by rewrite IH.
Qed.

Lemma substring_all s n :
  (String.length s ≤ n)%nat → String.substring 0 n s = s.
Proof.
  revert n. induction s as [|c s IH]; intros [|n] H; simpl in *;
    try reflexivity; try lia.
  f_equal. apply IH. lia.
Qed.

Lemma truncate_short size s :
  (String.length s < size)%nat → CString.truncate size s = s.
Proof. intros H. unfold CString.truncate. apply substring_all. lia. Qed.

Lemma prefix_app s t : String.prefix s (s +:+ t) = true.
Proof.
  induction s as [|c s IH]; simpl; [by destruct t|].
  destruct (ascii_dec c c); [exact IH|congruence].
Qed.

Lemma concat_texts_app (l1 l2 : list string) :
  foldr String.append EmptyString (l1 ++ l2)
  = foldr String.append EmptyString l1 +:+ foldr String.append EmptyString l2.
Proof.
  induction l1 as [|a l1 IH]; [done|]. simpl. by rewrite IH, append_assoc.
Qed.

Lemma snprintf_fold_fits size texts buf pos :
  String.length buf = pos →
  (pos + String.length (foldr String.append EmptyString texts) < size)%nat →
  (fold_left (snprintf_at size) texts (buf, pos)).1
  = buf +:+ foldr String.append EmptyString texts ∧
  snprintf_defined size pos texts = true.
Proof.
  revert buf pos. induction texts as [|text texts IH]; intros buf pos Hbuf Hfit.
  { simpl. by rewrite append_nil_r. }
  cbn [foldr] in Hfit. rewrite append_length in Hfit.
  cbn [fold_left snprintf_defined]. unfold snprintf_at at 2. cbn [fst snd].
  assert (Hle : (pos <=? size)%nat = true) by (apply Nat.leb_le; lia).
  rewrite Hle, truncate_short by lia.
  destruct (IH (buf +:+ text) (pos + String.length text)%nat) as [Hrun Hdef].
  - rewrite append_length. lia.
  - lia.
  - rewrite Hrun, Hdef. cbn [foldr]. by rewrite append_assoc.
Qed.

(** A command that fits its buffer is the concatenation of its texts, and
    every [snprintf] that builds it stays inside the buffer. *)
Lemma snprintf_all_fits size texts :
  (String.length (foldr String.append EmptyString texts) < size)%nat →
  snprintf_all size texts = foldr String.append EmptyString texts ∧
  snprintf_defined size 0 texts = true.
Proof.
  intros Hfit. unfold snprintf_all.
  destruct (snprintf_fold_fits size texts EmptyString 0%nat eq_refl Hfit) as [-> ->].
  by rewrite append_nil.
Qed.

End Strings.

(** ** Topological sort: order soundness *)

Section TopologicalSort.

Lemma file_at_lookup g j f : files g !! j = Some f → file_at g j = f.
Proof. unfold file_at. by intros ->. Qed.

Lemma file_at_ge g j : (length (files g) ≤ j)%nat → file_at g j = null_file.
Proof. intros H. unfold file_at. by rewrite lookup_ge_None_2. Qed.

Lemma file_at_update_ne g i j h : i ≠ j → file_at (update_file g i h) j = file_at g j.
Proof. intros H. unfold file_at, update_file; simpl. by rewrite list_lookup_alter_ne. Qed.

Lemma file_at_update_eq g i h :
  (i < length (files g))%nat → file_at (update_file g i h) i = h (file_at g i).
Proof.
  intros H. unfold file_at, update_file; simpl.
  rewrite list_lookup_alter_eq.
  destruct (lookup_lt_is_Some_2 _ _ H) as [f ->]. reflexivity.
Qed.

Lemma length_update_file g i h : length (files (update_file g i h)) = length (files g).
Proof. unfold update_file; simpl. apply length_alter. Qed.

Lemma same_static_refl g : same_static g g.
Proof. reflexivity. Qed.

Lemma same_static_trans g1 g2 g3 :
  same_static g1 g2 → same_static g2 g3 → same_static g1 g3.
Proof. unfold same_static. congruence. Qed.

Lemma same_static_length g g' : same_static g g' → length (files g) = length (files g').
Proof.
  unfold same_static. intros H.
  rewrite <- (length_fmap static_part (files g)), H. apply length_fmap.
Qed.

Lemma same_static_update g i h :
  (∀ f, static_part (h f) = static_part f) → same_static g (update_file g i h).
Proof.
  intros Hh. unfold same_static, update_file; simpl.
  generalize (files g) i. clear g i.
  induction l as [|f l IH]; intros [|i]; simpl; try reflexivity.
  - by rewrite Hh.
  - f_equal. apply IH.
Qed.

Lemma same_static_file_at g g' j :
  same_static g g' → static_part (file_at g j) = static_part (file_at g' j).
Proof.
  unfold same_static, file_at. intros H.
  assert (Hj : (static_part <$> files g) !! j = (static_part <$> files g') !! j)
    by (by rewrite H).
  rewrite !list_lookup_fmap in Hj.
  destruct (files g !! j), (files g' !! j); simpl in *; congruence.
Qed.

Lemma same_static_includes g g' j :
  same_static g g' → includes (file_at g j) = includes (file_at g' j).
Proof.
  intros H. pose proof (same_static_file_at g g' j H) as E.
  unfold static_part in E. congruence.
Qed.

Lemma same_static_is_header g g' j :
  same_static g g' → is_header (file_at g j) = is_header (file_at g' j).
Proof.
  intros H. pose proof (same_static_file_at g g' j H) as E.
  unfold static_part in E. congruence.
Qed.

Lemma find_file_from_static l l' pos p :
  static_part <$> l = static_part <$> l' →
  find_file_from pos l p = find_file_from pos l' p.
Proof.
  revert l' pos. induction l as [|f l IH]; intros [|f' l'] pos H;
    simpl in *; try discriminate; [reflexivity|].
  injection H as Hf Hl. unfold static_part in Hf.
  assert (path f = path f') as -> by congruence.
  destruct (String.eqb (path f') p); [reflexivity|]. by apply IH.
Qed.

Lemma same_static_find g g' p :
  same_static g g' →
  dependency_graph_find_file g p = dependency_graph_find_file g' p.
Proof. apply find_file_from_static. Qed.

Lemma find_file_from_Some l pos p d :
  find_file_from pos l p = Some d →
  (pos ≤ d)%nat ∧ ∃ f, l !! (d - pos)%nat = Some f ∧ path f = p.
Proof.
  revert pos. induction l as [|f l IH]; intros pos H; simpl in *; [discriminate|].
  destruct (String.eqb (path f) p) eqn:E.
  - injection H as <-. split; [lia|]. exists f. rewrite Nat.sub_diag.
    split; [reflexivity|]. by apply String.eqb_eq.
  - destruct (IH _ H) as [Hle (f' & Hf' & Hp)]. split; [lia|].
    exists f'. split; [|done].
    replace (d - pos)%nat with (S (d - S pos)) by lia. exact Hf'.
Qed.

Lemma find_file_Some g p d :
  dependency_graph_find_file g p = Some d →
  (d < length (files g))%nat ∧ path (file_at g d) = p.
Proof.
  intros H. destruct (find_file_from_Some _ _ _ _ H) as [_ (f & Hf & Hp)].
  rewrite Nat.sub_0_r in Hf. split.
  - by eapply lookup_lt_Some.
  - by rewrite (file_at_lookup _ _ _ Hf).
Qed.

Lemma grows_refl g : grows g g.
Proof. by constructor. Qed.

Lemma grows_trans g1 g2 g3 : grows g1 g2 → grows g2 g3 → grows g1 g3.
Proof.
  intros [S1 V1 K1] [S2 V2 K2]. constructor.
  - by eapply same_static_trans.
  - auto.
  - intros j. by rewrite K2, K1.
Qed.

Lemma closed_static g g' P : same_static g g' → closed g P → closed g' P.
Proof.
  intros Hs Hc u inc d Hu Hinc Hd. apply (Hc u inc d Hu).
  - by rewrite (same_static_includes g g' u Hs).
  - by rewrite (same_static_find g g' inc Hs).
Qed.

Lemma count_unvisited_mono l l' :
  length l = length l' →
  (∀ j f f', l !! j = Some f → l' !! j = Some f' →
     visited f = true → visited f' = true) →
  (count_unvisited l' ≤ count_unvisited l)%nat.
Proof.
  revert l'. induction l as [|f l IH]; intros [|f' l'] Hlen H;
    simpl in *; try discriminate; [lia|].
  assert (count_unvisited l' ≤ count_unvisited l)%nat.
  { apply IH; [lia|]. intros j a b Ha Hb. exact (H (S j) a b Ha Hb). }
  pose proof (H 0%nat f f' eq_refl eq_refl) as Hhd.
  destruct (visited f), (visited f'); try lia.
  all: try (specialize (Hhd eq_refl); discriminate).
Qed.

Lemma count_unvisited_mark l i f h :
  l !! i = Some f → visited f = false → (∀ x, visited (h x) = true) →
  (count_unvisited (alter h i l) + 1 = count_unvisited l)%nat.
Proof.
  revert i. induction l as [|a l IH]; intros [|i] Hi Hv Hh; simpl in *;
    try discriminate.
  - injection Hi as ->. rewrite Hh, Hv. lia.
  - specialize (IH i Hi Hv Hh).
    change (list_alter h i l) with (alter h i l). destruct (visited a); lia.
Qed.

Lemma grows_count g g' :
  grows g g' → (count_unvisited (files g') ≤ count_unvisited (files g))%nat.
Proof.
  intros [Hs Hv _]. apply count_unvisited_mono.
  - by apply same_static_length.
  - intros j f f' Hf Hf' Hvis. specialize (Hv j).
    rewrite (file_at_lookup _ _ _ Hf), (file_at_lookup _ _ _ Hf') in Hv. auto.
Qed.

Lemma visit_includes_spec dfs fuel ps file :
  dfs_spec_at dfs fuel →
  ∀ incs g order,
    (count_unvisited (files g) ≤ fuel)%nat → sort_inv g order →
    match visit_includes dfs ps file incs g order with
    | DfsOk g' order' =>
        grows g g' ∧ sort_inv g' order' ∧
        (∀ inc d, inc ∈ incs →
           dependency_graph_find_file g inc = Some d → d ∈ order') ∧
        ∃ l, order' = order ++ l ∧
          ∀ P : nat → Prop, closed g P →
            (∀ inc d, inc ∈ incs →
               dependency_graph_find_file g inc = Some d → P d) →
            Forall P l
    | DfsCycle _ _ _ => True
    | DfsOutOfFuel => False
    end.
Proof.
  intros Hdfs. induction incs as [|inc rest IH]; intros g order Hc Hinv; simpl.
  - split; [apply grows_refl|]. split; [done|]. split.
    + intros inc d Hin. by apply elem_of_nil in Hin.
    + exists []. split; [by rewrite app_nil_r|]. intros; constructor.
  - destruct (dependency_graph_find_file g inc) as [dep|] eqn:Hfind.
    + destruct (in_stack (file_at g dep)) eqn:Hstk; [done|].
      destruct (find_file_Some _ _ _ Hfind) as [Hlt _].
      destruct (visited (file_at g dep)) eqn:Hvis; simpl.
      * (* the include was finished earlier *)
        specialize (IH g order Hc Hinv).
        destruct (visit_includes dfs ps file rest g order) as [g' o'| |];
          try done.
        destruct IH as (Hg & Hi & Hd & l & -> & HP).
        split; [done|]. split; [done|]. split.
        -- intros inc' d Hin Hf. apply elem_of_cons in Hin as [->|Hin].
           ++ rewrite Hfind in Hf. injection Hf as <-.
              apply elem_of_app; left. by apply (inv_finished _ _ Hinv).
           ++ eauto.
        -- exists l. split; [done|]. intros P Hcl HPd. apply HP; [done|].
           intros inc' d Hin Hf. apply (HPd inc' d); [|done].
           apply elem_of_cons; by right.
      * (* the include is visited now *)
        pose proof (Hdfs g dep order Hlt Hvis Hc Hinv) as Hrec.
        destruct (dfs g dep order) as [g1 o1| |]; try done.
        destruct Hrec as (Hg1 & Hi1 & Hv1 & l1 & -> & _ & HP1).
        assert (Hc1 : (count_unvisited (files g1) ≤ fuel)%nat).
        { pose proof (grows_count _ _ Hg1). lia. }
        specialize (IH g1 (order ++ l1) Hc1 Hi1).
        destruct (visit_includes dfs ps file rest g1 (order ++ l1)) as [g' o'| |];
          try done.
        destruct IH as (Hg' & Hi' & Hd' & l2 & -> & HP2).
        split; [by eapply grows_trans|]. split; [done|]. split.
        -- intros inc' d Hin Hf. apply elem_of_cons in Hin as [->|Hin].
           ++ rewrite Hfind in Hf. injection Hf as <-.
              apply elem_of_app; left. apply (inv_finished _ _ Hi1).
              split; [by rewrite <- (same_static_length _ _ (gr_static _ _ Hg1))|].
              split; [done|]. by rewrite (gr_stack _ _ Hg1).
           ++ apply (Hd' inc' d Hin).
              by rewrite <- (same_static_find _ _ inc' (gr_static _ _ Hg1)).
        -- exists (l1 ++ l2). split; [by rewrite app_assoc|].
           intros P Hcl HPd. apply Forall_app. split.
           ++ apply HP1; [done|]. apply (HPd inc dep); [|done].
              apply elem_of_cons; by left.
           ++ apply HP2.
              ** by apply (closed_static g g1 P (gr_static _ _ Hg1)).
              ** intros inc' d Hin Hf. apply (HPd inc' d).
                 { apply elem_of_cons; by right. }
                 by rewrite (same_static_find _ _ inc' (gr_static _ _ Hg1)).
    + specialize (IH g order Hc Hinv).
      destruct (visit_includes dfs ps file rest g order) as [g' o'| |];
        try done.
      destruct IH as (Hg & Hi & Hd & l & -> & HP).
      split; [done|]. split; [done|]. split.
      * intros inc' d Hin Hf. apply elem_of_cons in Hin as [->|Hin].
        -- congruence.
        -- eauto.
      * exists l. split; [done|]. intros P Hcl HPd. apply HP; [done|].
        intros inc' d Hin Hf. apply (HPd inc' d); [|done].
        apply elem_of_cons; by right.
Qed.

Lemma sort_inv_enter g order i :
  (i < length (files g))%nat → visited (file_at g i) = false →
  sort_inv g order →
  sort_inv (update_file g i (λ f, set_in_stack true (set_visited true f))) order.
Proof.
  intros Hi Hv [Hnd Hfin Hdeps Hstk].
  set (g1 := update_file g i _).
  assert (Hs : same_static g g1) by (by apply same_static_update).
  assert (Hi1 : file_at g1 i = set_in_stack true (set_visited true (file_at g i)))
    by (by apply file_at_update_eq).
  assert (Hne : ∀ j, i ≠ j → file_at g1 j = file_at g j)
    by (intros j Hj; by apply file_at_update_ne).
  constructor.
  - done.
  - intros j. rewrite Hfin. unfold finished.
    rewrite <- (same_static_length _ _ Hs).
    destruct (decide (i = j)) as [<-|Hj].
    + rewrite Hi1, Hv. simpl. split; intros (_ & ? & ?); discriminate.
    + by rewrite (Hne j Hj).
  - intros pj j inc d Hpj Hinc Hd. apply (Hdeps pj j inc d Hpj).
    + by rewrite (same_static_includes _ _ j Hs).
    + by rewrite (same_static_find _ _ inc Hs).
  - intros j. destruct (decide (i = j)) as [<-|Hj].
    + by rewrite Hi1.
    + rewrite (Hne j Hj). apply Hstk.
Qed.

Lemma topological_sort_dfs_spec fuel ps :
  dfs_spec_at (topological_sort_dfs fuel ps) fuel.
Proof.
  induction fuel as [|fuel IH]; intros g i order Hi Hv Hc Hinv.
  - (* an unvisited file makes the count positive *)
    exfalso. destruct (lookup_lt_is_Some_2 _ _ Hi) as [f Hf].
    pose proof (count_unvisited_mark (files g) i f
                  (λ f, set_in_stack true (set_visited true f)) Hf) as Hm.
    rewrite (file_at_lookup _ _ _ Hf) in Hv. specialize (Hm Hv (λ _, eq_refl)).
    lia.
  - simpl.
    set (g1 := update_file g i (λ f, set_in_stack true (set_visited true f))).
    assert (Hs1 : same_static g g1) by (by apply same_static_update).
    assert (Hi1 : file_at g1 i = set_in_stack true (set_visited true (file_at g i)))
      by (by apply file_at_update_eq).
    assert (Hne1 : ∀ j, i ≠ j → file_at g1 j = file_at g j)
      by (intros j Hj; by apply file_at_update_ne).
    assert (Hc1 : (count_unvisited (files g1) ≤ fuel)%nat).
    { destruct (lookup_lt_is_Some_2 _ _ Hi) as [f Hf].
      pose proof (count_unvisited_mark (files g) i f
                    (λ f, set_in_stack true (set_visited true f)) Hf) as Hm.
      rewrite (file_at_lookup _ _ _ Hf) in Hv. specialize (Hm Hv (λ _, eq_refl)).
      unfold g1, update_file; simpl. lia. }
    pose proof (sort_inv_enter g order i Hi Hv Hinv) as Hinv1. fold g1 in Hinv1.
    pose proof (visit_includes_spec _ fuel ps i IH
                  (includes (file_at g1 i)) g1 order Hc1 Hinv1) as Hloop.
    destruct (visit_includes (topological_sort_dfs fuel ps) ps i
                (includes (file_at g1 i)) g1 order) as [g2 o2| |]; try done.
    destruct Hloop as (Hg2 & Hinv2 & Hdeps2 & l & -> & HP).
    set (g3 := update_file g2 i _).
    destruct Hg2 as [Hs2 Hvis2 Hstk2].
    assert (Hlen2 : length (files g2) = length (files g)).
    { by rewrite <- (same_static_length _ _ Hs2), <- (same_static_length _ _ Hs1). }
    assert (Hs3 : same_static g2 g3) by (by apply same_static_update).
    assert (Hi3 : file_at g3 i =
                  set_sort_order (Z.of_nat (length (order ++ l)))
                    (set_in_stack false (file_at g2 i))).
    { apply file_at_update_eq. lia. }
    assert (Hne3 : ∀ j, i ≠ j → file_at g3 j = file_at g2 j)
      by (intros j Hj; by apply file_at_update_ne).
    assert (Hstk_i : in_stack (file_at g i) = false).
    { destruct (in_stack (file_at g i)) eqn:E; [|done].
      apply (inv_stack _ _ Hinv) in E. congruence. }
    assert (Hvis2_i : visited (file_at g2 i) = true).
    { apply Hvis2. by rewrite Hi1. }
    assert (Hstk2_i : in_stack (file_at g2 i) = true).
    { rewrite Hstk2. by rewrite Hi1. }
    assert (Hs03 : same_static g g3).
    { eapply same_static_trans; [exact Hs1|].
      eapply same_static_trans; [exact Hs2|exact Hs3]. }
    assert (Hnotin : i ∉ order ++ l).
    { intros Hin. apply (inv_finished _ _ Hinv2) in Hin as (_ & _ & Hin).
      congruence. }
    destruct Hinv2 as [Hnd2 Hfin2 Hd2 Hst2].
    split; [|split; [|split]].
    + (* marks only grew *)
      constructor.
      * done.
      * intros j Hj. destruct (decide (i = j)) as [<-|Hij].
        -- by rewrite Hi3.
        -- rewrite (Hne3 j Hij). apply Hvis2. by rewrite (Hne1 j Hij).
      * intros j. destruct (decide (i = j)) as [<-|Hij].
        -- by rewrite Hi3, Hstk_i.
        -- by rewrite (Hne3 j Hij), Hstk2, (Hne1 j Hij).
    + (* the invariant holds again *)
      constructor.
      * apply NoDup_app. split; [done|]. split.
        -- intros x Hx Hx'. apply list_elem_of_singleton in Hx' as ->. done.
        -- apply NoDup_singleton.
      * intros j. rewrite elem_of_app, list_elem_of_singleton, Hfin2.
        unfold finished. rewrite <- (same_static_length _ _ Hs3).
        destruct (decide (i = j)) as [<-|Hij].
        -- rewrite Hi3. simpl. split; [|by right].
           intros _. split; [lia|]. by split.
        -- rewrite (Hne3 j Hij). split; [|by left].
           intros [?|?]; [done|congruence].
      * intros pj j inc d Hpj Hinc Hd.
        rewrite <- (same_static_includes _ _ j Hs3) in Hinc.
        rewrite <- (same_static_find _ _ inc Hs3) in Hd.
        destruct (decide (pj < length (order ++ l))%nat) as [Hlt|Hge].
        -- rewrite lookup_app_l in Hpj by done.
           destruct (Hd2 pj j inc d Hpj Hinc Hd) as (pd & Hpd & Hlt').
           exists pd. split; [|done]. rewrite lookup_app_l; [done|lia].
        -- rewrite lookup_app_r in Hpj by lia.
           destruct (pj - length (order ++ l))%nat as [|k] eqn:Ek;
             simpl in Hpj; [|done].
           injection Hpj as <-.
           rewrite <- (same_static_includes _ _ i Hs2) in Hinc.
           rewrite <- (same_static_find _ _ inc Hs2) in Hd.
           pose proof (Hdeps2 inc d Hinc Hd) as Hin.
           apply list_elem_of_lookup in Hin as [pd Hpd].
           exists pd. pose proof (lookup_lt_Some _ _ _ Hpd).
           split; [|lia]. by rewrite lookup_app_l.
      * intros j. destruct (decide (i = j)) as [<-|Hij].
        -- by rewrite Hi3.
        -- rewrite (Hne3 j Hij). apply Hst2.
    + by rewrite Hi3.
    + exists (l ++ [i]). split; [by rewrite app_assoc|]. split.
      * by destruct l.
      * intros P Hcl HPi. apply Forall_app. split.
        -- apply HP; [by apply (closed_static g g1)|].
           intros inc d Hinc Hd. apply (Hcl i inc d HPi).
           ++ by rewrite (same_static_includes _ _ i Hs1).
           ++ by rewrite (same_static_find _ _ inc Hs1).
        -- by apply Forall_singleton.
Qed.

Lemma sort_pass_spec fuel ph :
  ∀ idxs g order,
    (∀ i, i ∈ idxs → (i < length (files g))%nat) →
    (count_unvisited (files g) ≤ fuel)%nat → sort_inv g order →
    match sort_pass fuel ph idxs g order with
    | DfsOk g' order' =>
        grows g g' ∧ sort_inv g' order' ∧
        (∀ i, i ∈ idxs → is_header (file_at g i) = ph →
           visited (file_at g' i) = true) ∧
        ∃ l, order' = order ++ l
    | DfsCycle _ _ _ => True
    | DfsOutOfFuel => False
    end.
Proof.
  induction idxs as [|i rest IH]; intros g order Hidx Hc Hinv; simpl.
  - split; [apply grows_refl|]. split; [done|]. split.
    + intros i Hi. by apply elem_of_nil in Hi.
    + exists []. by rewrite app_nil_r.
  - assert (Hrest : ∀ j, j ∈ rest → (j < length (files g))%nat).
    { intros j Hj. apply Hidx. apply elem_of_cons; by right. }
    assert (Hi : (i < length (files g))%nat).
    { apply Hidx. apply elem_of_cons; by left. }
    destruct (Bool.eqb (is_header (file_at g i)) ph) eqn:Hhdr; simpl.
    + destruct (visited (file_at g i)) eqn:Hvis.
      * specialize (IH g order Hrest Hc Hinv).
        destruct (sort_pass fuel ph rest g order) as [g' o'| |]; try done.
        destruct IH as (Hg & Hi' & Hv & l & ->).
        split; [done|]. split; [done|]. split; [|by exists l].
        intros j Hj Hh. apply elem_of_cons in Hj as [->|Hj]; [|by apply Hv].
        by apply (gr_visited _ _ Hg).
      * pose proof (topological_sort_dfs_spec fuel CYCLE_PATH_SIZE
                      g i order Hi Hvis Hc Hinv) as Hrec.
        destruct (topological_sort_dfs fuel CYCLE_PATH_SIZE g i order)
          as [g1 o1| |]; try done.
        destruct Hrec as (Hg1 & Hi1 & Hv1 & l1 & -> & _ & _).
        pose proof (same_static_length _ _ (gr_static _ _ Hg1)) as Hlen.
        assert (Hrest1 : ∀ j, j ∈ rest → (j < length (files g1))%nat).
        { intros j Hj. rewrite <- Hlen. by apply Hrest. }
        assert (Hc1 : (count_unvisited (files g1) ≤ fuel)%nat).
        { pose proof (grows_count _ _ Hg1). lia. }
        specialize (IH g1 (order ++ l1) Hrest1 Hc1 Hi1).
        destruct (sort_pass fuel ph rest g1 (order ++ l1)) as [g' o'| |];
          try done.
        destruct IH as (Hg' & Hi' & Hv' & l2 & ->).
        split; [by eapply grows_trans|]. split; [done|]. split.
        -- intros j Hj Hh. apply elem_of_cons in Hj as [->|Hj].
           ++ by apply (gr_visited _ _ Hg').
           ++ apply Hv'; [done|].
              by rewrite <- (same_static_is_header _ _ j (gr_static _ _ Hg1)).
        -- exists (l1 ++ l2). by rewrite app_assoc.
    + specialize (IH g order Hrest Hc Hinv).
      destruct (sort_pass fuel ph rest g order) as [g' o'| |]; try done.
      destruct IH as (Hg & Hi' & Hv & l & ->).
      split; [done|]. split; [done|]. split; [|by exists l].
      intros j Hj Hh. apply elem_of_cons in Hj as [->|Hj]; [|by apply Hv].
      rewrite Hh in Hhdr. by destruct ph.
Qed.

Lemma count_unvisited_le l : (count_unvisited l ≤ length l)%nat.
Proof. induction l as [|f l IH]; simpl; [lia|]. destruct (visited f); lia. Qed.

Lemma file_at_reset g j :
  visited (file_at (reset_marks g) j) = false ∧
  in_stack (file_at (reset_marks g) j) = false.
Proof.
  unfold file_at, reset_marks; simpl. rewrite list_lookup_fmap.
  by destruct (files g !! j).
Qed.

Lemma same_static_reset g : same_static g (reset_marks g).
Proof.
  unfold same_static, reset_marks; simpl.
  rewrite <- list_fmap_compose. by apply list_fmap_ext.
Qed.

Lemma sort_inv_reset g : sort_inv (reset_marks g) [].
Proof.
  constructor.
  - constructor.
  - intros j. split.
    + intros H. by apply elem_of_nil in H.
    + intros (_ & Hv & _). destruct (file_at_reset g j). congruence.
  - intros pj j inc d H. done.
  - intros j H. destruct (file_at_reset g j). congruence.
Qed.

(** The sort always returns; on success every registered file is finished
    and the invariant holds for the produced order; the only failure is a
    circular dependency. *)
Lemma topological_sort_result g :
  match dependency_graph_topological_sort g with
  | None => False
  | Some (DEP_SUCCESS, g', order) =>
      same_static g g' ∧ sort_inv g' order ∧
      ∀ j, (j < length (files g))%nat → finished g' j
  | Some (code, _, _) => code = DEP_ERROR_CIRCULAR_DEPENDENCY
  end.
Proof.
  unfold dependency_graph_topological_sort.
  set (g0 := reset_marks g). unfold file_count.
  set (n := length (files g0)).
  assert (Hidx : ∀ g', length (files g') = n →
            ∀ i, i ∈ seq 0 n → (i < length (files g'))%nat).
  { intros g' Hg' i Hin. apply elem_of_seq in Hin. lia. }
  pose proof (same_static_reset g) as Hs0. fold g0 in Hs0.
  pose proof (sort_pass_spec n true (seq 0 n) g0 [] (Hidx g0 eq_refl)
                (count_unvisited_le _) (sort_inv_reset g)) as H1.
  destruct (sort_pass n true (seq 0 n) g0 []) as [g1 o1| |]; try done.
  destruct H1 as (Hg1 & Hi1 & Hv1 & _).
  pose proof (same_static_length _ _ (gr_static _ _ Hg1)) as Hlen1.
  assert (Hc1 : (count_unvisited (files g1) ≤ n)%nat).
  { pose proof (grows_count _ _ Hg1). pose proof (count_unvisited_le (files g0)).
    lia. }
  pose proof (sort_pass_spec n false (seq 0 n) g1 o1
                (Hidx g1 (eq_sym Hlen1)) Hc1 Hi1) as H2.
  destruct (sort_pass n false (seq 0 n) g1 o1) as [g2 o2| |]; try done.
  destruct H2 as (Hg2 & Hi2 & Hv2 & _).
  split; [|split; [done|]].
  - eapply same_static_trans; [exact Hs0|].
    eapply same_static_trans; [exact (gr_static _ _ Hg1)|exact (gr_static _ _ Hg2)].
  - intros j Hj.
    pose proof (same_static_length _ _ Hs0) as Hlen0.
    pose proof (same_static_length _ _ (gr_static _ _ Hg2)) as Hlen2.
    assert (Hjn : j ∈ seq 0 n). { apply elem_of_seq. lia. }
    split; [lia|]. split.
    + destruct (is_header (file_at g0 j)) eqn:Hh.
      * apply (gr_visited _ _ Hg2). by apply Hv1.
      * apply Hv2; [done|].
        by rewrite <- (same_static_is_header _ _ j (gr_static _ _ Hg1)).
    + rewrite (gr_stack _ _ Hg2), (gr_stack _ _ Hg1).
      by destruct (file_at_reset g j).
Qed.

Lemma topological_sort_total g : is_Some (dependency_graph_topological_sort g).
Proof.
  pose proof (topological_sort_result g) as H.
  destruct (dependency_graph_topological_sort g); [by eexists|done].
Qed.

(** C2. Order soundness: when the sort succeeds, every registered file [u]
    and every registered file [dep] that an entry of [u]'s include list
    names (through the registry lookup the sort itself uses) are both in
    the build order, which has no repetition, and [dep] stands at a
    strictly smaller position than [u]. *)
Theorem topological_sort_order_sound g g' order u fu inc dep :
  dependency_graph_topological_sort g = Some (DEP_SUCCESS, g', order) →
  files g !! u = Some fu →
  inc ∈ includes fu →
  dependency_graph_find_file g inc = Some dep →
  NoDup order ∧
  ∃ pd pu, order !! pd = Some dep ∧ order !! pu = Some u ∧ (pd < pu)%nat.
Proof.
  intros Hsort Hu Hinc Hdep.
  pose proof (topological_sort_result g) as H. rewrite Hsort in H.
  destruct H as (Hs & Hinv & Hall).
  split; [apply (inv_nodup _ _ Hinv)|].
  assert (Hin : u ∈ order).
  { apply (inv_finished _ _ Hinv). apply Hall. by eapply lookup_lt_Some. }
  apply list_elem_of_lookup in Hin as [pu Hpu].
  destruct (inv_deps _ _ Hinv pu u inc dep Hpu) as (pd & Hpd & Hlt).
  - rewrite <- (same_static_includes _ _ u Hs).
    by rewrite (file_at_lookup _ _ _ Hu).
  - by rewrite <- (same_static_find _ _ inc Hs).
  - by exists pd, pu.
Qed.

Lemma find_file_from_unique l pos i f :
  NoDup (path <$> l) → l !! i = Some f →
  find_file_from pos l (path f) = Some (pos + i)%nat.
Proof.
  revert pos i. induction l as [|a l IH]; intros pos [|i] Hnd Hi;
    simpl in *; try discriminate.
  - injection Hi as ->. rewrite String.eqb_refl. f_equal. lia.
  - apply NoDup_cons in Hnd as [Hnotin Hnd].
    destruct (String.eqb (path a) (path f)) eqn:E.
    + apply String.eqb_eq in E. exfalso. apply Hnotin. rewrite E.
      apply list_elem_of_fmap. exists f. split; [done|].
      apply list_elem_of_lookup. by exists i.
    + rewrite (IH (S pos) i Hnd Hi). f_equal. lia.
Qed.

(** When no two registered files share a path, the registry lookup of a
    file's own path returns that file. *)
Lemma find_file_unique g i f :
  NoDup (path <$> files g) → files g !! i = Some f →
  dependency_graph_find_file g (path f) = Some i.
Proof. intros Hnd Hi. exact (find_file_from_unique _ 0 i f Hnd Hi). Qed.

(** Order soundness read on paths: in a registry without duplicate paths,
    a registered file whose path occurs in the include list of [u] stands
    before [u]. *)
Corollary topological_sort_order_sound_paths g g' order u fu dep fd :
  dependency_graph_topological_sort g = Some (DEP_SUCCESS, g', order) →
  NoDup (path <$> files g) →
  files g !! u = Some fu → files g !! dep = Some fd →
  path fd ∈ includes fu →
  ∃ pd pu, order !! pd = Some dep ∧ order !! pu = Some u ∧ (pd < pu)%nat.
Proof.
  intros Hsort Hnd Hu Hd Hin.
  pose proof (topological_sort_result g) as H. rewrite Hsort in H.
  destruct H as (Hs & Hinv & Hall).
  assert (Hu' : u ∈ order).
  { apply (inv_finished _ _ Hinv). apply Hall. by eapply lookup_lt_Some. }
  apply list_elem_of_lookup in Hu' as [pu Hpu].
  destruct (inv_deps _ _ Hinv pu u (path fd) dep Hpu) as (pd & Hpd & Hlt).
  - rewrite <- (same_static_includes _ _ u Hs).
    by rewrite (file_at_lookup _ _ _ Hu).
  - rewrite <- (same_static_find _ _ _ Hs). by apply find_file_unique.
  - by exists pd, pu.
Qed.

(** On success the build order lists every registered file exactly once. *)
Lemma topological_sort_complete g g' order :
  dependency_graph_topological_sort g = Some (DEP_SUCCESS, g', order) →
  NoDup order ∧ ∀ j, j ∈ order ↔ (j < length (files g))%nat.
Proof.
  intros Hsort.
  pose proof (topological_sort_result g) as H. rewrite Hsort in H.
  destruct H as (Hs & Hinv & Hall).
  split; [apply (inv_nodup _ _ Hinv)|]. intros j. split.
  - intros Hj. apply (inv_finished _ _ Hinv) in Hj as [Hj _].
    by rewrite (same_static_length _ _ Hs).
  - intros Hj. apply (inv_finished _ _ Hinv). by apply Hall.
Qed.

Lemma topological_sort_order_sound_witness :
  NoDup [2; 1; 0]%nat ∧
  ∃ pd pu, [2; 1; 0]%nat !! pd = Some 1%nat ∧ [2; 1; 0]%nat !! pu = Some 0%nat ∧
           (pd < pu)%nat.
Proof.
  eapply (topological_sort_order_sound
            (mkDependencyGraph
               [ mkSourceFile "main.c" ["math.h"] false false false 0;
                 mkSourceFile "math.h" ["util.h"] true false false 0;
                 mkSourceFile "util.h" [] true false false 0 ] [])
            _ _ 0%nat _ "math.h" 1%nat).
  - vm_compute. reflexivity.
  - reflexivity.
  - simpl. apply list_elem_of_here.
  - reflexivity.
Defined.

(** *** Which file comes first *)

Lemma is_header_lookup g j :
  is_header (file_at g j) = true →
  ∃ f, files g !! j = Some f ∧ is_header f = true.
Proof.
  unfold file_at. destruct (files g !! j) as [f|]; simpl; [|done].
  intros H. by exists f.
Qed.

Lemma sort_pass_first fuel :
  ∀ idxs g g' order',
    closed g (λ j, is_header (file_at g j) = true) →
    (∀ i, i ∈ idxs → (i < length (files g))%nat) →
    (count_unvisited (files g) ≤ fuel)%nat → sort_inv g [] →
    (∀ j, visited (file_at g j) = false) →
    (∃ i, i ∈ idxs ∧ is_header (file_at g i) = true) →
    sort_pass fuel true idxs g [] = DfsOk g' order' →
    ∃ first rest, order' = first :: rest ∧ is_header (file_at g first) = true.
Proof.
  induction idxs as [|i rest IH];
    intros g g' order' Hcl Hidx Hc Hinv Hnone (h & Hh & Hhdr) Hrun.
  - by apply elem_of_nil in Hh.
  - assert (Hrest : ∀ j, j ∈ rest → (j < length (files g))%nat).
    { intros j Hj. apply Hidx. apply elem_of_cons; by right. }
    assert (Hi : (i < length (files g))%nat).
    { apply Hidx. apply elem_of_cons; by left. }
    simpl in Hrun.
    destruct (is_header (file_at g i)) eqn:Hhi; simpl in Hrun.
    + rewrite Hnone in Hrun.
      pose proof (topological_sort_dfs_spec fuel CYCLE_PATH_SIZE
                    g i [] Hi (Hnone i) Hc Hinv) as Hrec.
      destruct (topological_sort_dfs fuel CYCLE_PATH_SIZE g i [])
        as [g1 o1| |]; try done.
      destruct Hrec as (Hg1 & Hi1 & _ & l1 & -> & Hne & HP).
      specialize (HP _ Hcl Hhi). simpl in *.
      pose proof (same_static_length _ _ (gr_static _ _ Hg1)) as Hlen.
      assert (Hrest1 : ∀ j, j ∈ rest → (j < length (files g1))%nat).
      { intros j Hj. rewrite <- Hlen. by apply Hrest. }
      assert (Hc1 : (count_unvisited (files g1) ≤ fuel)%nat).
      { pose proof (grows_count _ _ Hg1). lia. }
      pose proof (sort_pass_spec fuel true rest g1 l1 Hrest1 Hc1 Hi1) as Hpass.
      rewrite Hrun in Hpass. destruct Hpass as (_ & _ & _ & l2 & ->).
      destruct l1 as [|first l1]; [done|].
      exists first, (l1 ++ l2). split; [done|].
      by apply Forall_cons in HP as [? _].
    + apply (IH g g' order' Hcl Hrest Hc Hinv Hnone); [|done].
      exists h. split; [|done].
      apply elem_of_cons in Hh as [->|Hh]; [congruence|done].
Qed.

(** C6, as the code has it. When the sort succeeds on a graph that holds a
    header, and every registered file named by an include entry of a header
    is itself a header, the first element of the build order is a header. *)
Theorem topological_sort_header_first g g' order :
  dependency_graph_topological_sort g = Some (DEP_SUCCESS, g', order) →
  (∃ h, h ∈ files g ∧ is_header h = true) →
  (∀ u fu inc d fd,
     files g !! u = Some fu → is_header fu = true → inc ∈ includes fu →
     dependency_graph_find_file g inc = Some d → files g !! d = Some fd →
     is_header fd = true) →
  ∃ first ffirst,
    order !! 0%nat = Some first ∧ files g !! first = Some ffirst ∧
    is_header ffirst = true.
Proof.
  intros Hsort (h & Hh & Hhdr) Hclosed.
  unfold dependency_graph_topological_sort in Hsort.
  set (g0 := reset_marks g) in *. unfold file_count in Hsort.
  set (n := length (files g0)) in *.
  pose proof (same_static_reset g) as Hs0. fold g0 in Hs0.
  assert (Hidx : ∀ g', length (files g') = n →
            ∀ i, i ∈ seq 0 n → (i < length (files g'))%nat).
  { intros g1 Hg1 i Hin. apply elem_of_seq in Hin. lia. }
  assert (Hcl0 : closed g0 (λ j, is_header (file_at g0 j) = true)).
  { intros u inc d Hu Hinc Hd.
    rewrite <- (same_static_is_header _ _ u Hs0) in Hu.
    rewrite <- (same_static_includes _ _ u Hs0) in Hinc.
    rewrite <- (same_static_find _ _ inc Hs0) in Hd.
    rewrite <- (same_static_is_header _ _ d Hs0).
    destruct (is_header_lookup _ _ Hu) as (fu & Hfu & Hhu).
    rewrite (file_at_lookup _ _ _ Hfu) in Hinc.
    destruct (find_file_Some _ _ _ Hd) as [Hlt _].
    destruct (lookup_lt_is_Some_2 _ _ Hlt) as [fd Hfd].
    rewrite (file_at_lookup _ _ _ Hfd).
    by apply (Hclosed u fu inc d fd). }
  assert (Hex : ∃ i, i ∈ seq 0 n ∧ is_header (file_at g0 i) = true).
  { apply list_elem_of_lookup in Hh as [i Hi]. exists i. split.
    - apply elem_of_seq. pose proof (lookup_lt_Some _ _ _ Hi).
      pose proof (same_static_length _ _ Hs0). lia.
    - rewrite <- (same_static_is_header _ _ i Hs0).
      by rewrite (file_at_lookup _ _ _ Hi). }
  destruct (sort_pass n true (seq 0 n) g0 []) as [g1 o1| |] eqn:Hp1;
    try done.
  pose proof (sort_pass_first n (seq 0 n) g0 g1 o1 Hcl0 (Hidx g0 eq_refl)
                (count_unvisited_le _) (sort_inv_reset g)
                (λ j, proj1 (file_at_reset g j)) Hex Hp1)
    as (first & rest & -> & Hfirst).
  pose proof (sort_pass_spec n true (seq 0 n) g0 [] (Hidx g0 eq_refl)
                (count_unvisited_le _) (sort_inv_reset g)) as H1.
  rewrite Hp1 in H1. destruct H1 as (Hg1 & Hi1 & _ & _).
  pose proof (same_static_length _ _ (gr_static _ _ Hg1)) as Hlen1.
  assert (Hc1 : (count_unvisited (files g1) ≤ n)%nat).
  { pose proof (grows_count _ _ Hg1). pose proof (count_unvisited_le (files g0)).
    lia. }
  pose proof (sort_pass_spec n false (seq 0 n) g1 (first :: rest)
                (Hidx g1 (eq_sym Hlen1)) Hc1 Hi1) as H2.
  destruct (sort_pass n false (seq 0 n) g1 (first :: rest)) as [g2 o2| |];
    try done.
  destruct H2 as (_ & _ & _ & l & ->).
  injection Hsort as <- <-.
  rewrite <- (same_static_is_header _ _ first Hs0) in Hfirst.
  destruct (is_header_lookup _ _ Hfirst) as (ff & Hff & Hhf).
  by exists first, ff.
Qed.

End TopologicalSort.

(** ** The persistent cache *)

Section Cache.

Lemma dependency_changed_spec fs deps :
  dependency_changed fs deps = true ↔
  ∃ dep recorded,
    (dep, recorded) ∈ deps ∧
    hash_file_content fs dep ≠ 0 ∧ hash_file_content fs dep ≠ recorded.
Proof.
  induction deps as [|[dep recorded] rest IH]; simpl.
  - split; [done|]. intros (d & r & Hin & _). by apply elem_of_nil in Hin.
  - destruct (hash_file_content fs dep =? 0) eqn:Hz.
    + apply Z.eqb_eq in Hz. rewrite IH. split.
      * intros (d & r & Hin & H). exists d, r. split; [|done].
        apply elem_of_cons; by right.
      * intros (d & r & Hin & Hnz & Hne).
        apply elem_of_cons in Hin as [Heq|Hin]; [|by exists d, r].
        injection Heq as -> ->. done.
    + apply Z.eqb_neq in Hz.
      destruct (hash_file_content fs dep =? recorded) eqn:He; simpl.
      * apply Z.eqb_eq in He. rewrite IH. split.
        -- intros (d & r & Hin & H). exists d, r. split; [|done].
           apply elem_of_cons; by right.
        -- intros (d & r & Hin & Hnz & Hne).
           apply elem_of_cons in Hin as [Heq|Hin]; [|by exists d, r].
           injection Heq as -> ->. done.
      * apply Z.eqb_neq in He. split; [|done]. intros _.
        exists dep, recorded. split; [|done]. apply elem_of_cons; by left.
Qed.

Lemma needs_recompilation_store fs cache source obj :
  (build_cache_needs_recompilation fs cache source obj).2
  = if (build_cache_needs_recompilation fs cache source obj).1
    then count_miss cache else count_hit cache.
Proof.
  unfold build_cache_needs_recompilation.
  destruct (build_cache_find cache (path source)) as [i|]; [|done].
  destruct (negb (valid (entry_at cache i))); [done|].
  destruct (hash_file_content fs (path source) =? 0); [done|].
  destruct (negb _); [done|].
  by destruct (dependency_changed fs _).
Qed.

(** The code's search finds nothing exactly when no slot in use carries
    the path, and finds [i] exactly when [i] is the first such slot. *)
Lemma cache_find_from_absent l pos p :
  cache_find_from pos l p = None ↔ ∀ i e, l !! i = Some e → source_path e ≠ p.
Proof.
  revert pos. induction l as [|a l IH]; intros pos; simpl.
  - split; [|done]. intros _ i e H. by rewrite lookup_nil in H.
  - destruct (String.eqb (source_path a) p) eqn:E.
    + apply String.eqb_eq in E. split; [done|]. intros H. by destruct (H 0%nat a).
    + apply String.eqb_neq in E. rewrite IH. split.
      * intros H [|i] e Hi; simpl in Hi; [by injection Hi as <-|by eapply H].
      * intros H i e Hi. by apply (H (S i) e).
Qed.

Lemma cache_find_from_first l pos p d :
  cache_find_from pos l p = Some d ↔
  ∃ i e, d = (pos + i)%nat ∧ l !! i = Some e ∧ source_path e = p ∧
         ∀ j e', (j < i)%nat → l !! j = Some e' → source_path e' ≠ p.
Proof.
  revert pos. induction l as [|a l IH]; intros pos; simpl.
  - split; [done|]. intros (i & e & _ & H & _). by rewrite lookup_nil in H.
  - destruct (String.eqb (source_path a) p) eqn:E.
    + apply String.eqb_eq in E. split.
      * intros [= <-]. exists 0%nat, a. repeat split; [lia|done|]. intros j e' Hj. lia.
      * intros (i & e & -> & Hi & Hp & Hmin). destruct i as [|i]; [f_equal; lia|].
        by destruct (Hmin 0%nat a ltac:(lia) eq_refl).
    + apply String.eqb_neq in E. rewrite IH. split.
      * intros (i & e & -> & Hi & Hp & Hmin). exists (S i), e.
        repeat split; [lia|done|done|].
        intros [|j] e' Hj Hje; simpl in Hje; [by injection Hje as <-|].
        apply (Hmin j e'); [lia|done].
      * intros (i & e & -> & Hi & Hp & Hmin). destruct i as [|i].
        { simpl in Hi. injection Hi as <-. done. }
        exists i, e. repeat split; [lia|done|done|].
        intros j e' Hj Hje. apply (Hmin (S j) e'); [lia|done].
Qed.

Lemma build_cache_find_absent cache p :
  build_cache_find cache p = None ↔ entry_absent cache p.
Proof.
  unfold build_cache_find, entry_absent, entry_in_use.
  rewrite cache_find_from_absent. split.
  - intros H i e [Hi He]. apply (H i e). by rewrite lookup_take_lt.
  - intros H i e Hi. apply lookup_take_Some in Hi as [He Hi]. by apply (H i e).
Qed.

Lemma build_cache_find_entry cache p i :
  build_cache_find cache p = Some i ↔ ∃ e, entry_for cache p i e.
Proof.
  unfold build_cache_find, entry_for, entry_in_use.
  rewrite cache_find_from_first. split.
  - intros (k & e & -> & Hk & Hp & Hmin). simpl.
    apply lookup_take_Some in Hk as [He Hk]. exists e.
    repeat split; try done. intros j e' Hj Hje.
    apply (Hmin j e'); [done|]. rewrite lookup_take_lt; [done|lia].
  - intros (e & [Hi He] & Hp & Hmin). exists i, e.
    split; [reflexivity|]. split; [by rewrite lookup_take_lt|]. split; [done|].
    intros j e' Hj Hje. apply lookup_take_Some in Hje as [Hje _]. by apply (Hmin j e').
Qed.

(** C1. [build_cache_needs_recompilation] returns [true] exactly under the
    decision rule [must_recompile]; it then adds one to the miss counter
    and leaves the hit counter alone; otherwise it returns [false], adds one
    to the hit counter and leaves the miss counter alone. Counters are
    [size_t], so the addition is modulo 2^64; nothing else in the store
    changes. *)
Theorem needs_recompilation_classification fs cache source obj :
  let r := build_cache_needs_recompilation fs cache source obj in
  (r.1 = true ↔ must_recompile fs cache source) ∧
  r.2 = (if r.1 then count_miss cache else count_hit cache) ∧
  misses (count_miss cache) = wrap64 (misses cache + 1) ∧
  hits (count_miss cache) = hits cache ∧
  hits (count_hit cache) = wrap64 (hits cache + 1) ∧
  misses (count_hit cache) = misses cache.
Proof.
  cbn zeta. split; [|split; [apply needs_recompilation_store|done]].
  unfold build_cache_needs_recompilation, must_recompile.
  destruct (build_cache_find cache (path source)) as [i|] eqn:Hfind.
  2: { apply build_cache_find_absent in Hfind. split; [by left|done]. }
  assert (Hpresent : ¬ entry_absent cache (path source)).
  { intros Habs. apply build_cache_find_absent in Habs. congruence. }
  apply build_cache_find_entry in Hfind as Hentry. destruct Hentry as [e He].
  assert (Hat : entry_at cache i = e).
  { unfold entry_at. destruct He as [[_ ->] _]. done. }
  assert (Hsame : ∀ i' e', entry_for cache (path source) i' e' → e' = e).
  { intros i' e' He'.
    assert (Hf : build_cache_find cache (path source) = Some i').
    { apply build_cache_find_entry. by exists e'. }
    rewrite Hfind in Hf. injection Hf as <-.
    destruct He as [[_ H1] _], He' as [[_ H2] _]. congruence. }
  rewrite Hat.
  assert (Hrule :
    (valid e = false ∨
     hash_file_content fs (path source) = 0 ∨
     hash_file_content fs (path source) ≠ source_hash e ∨
     ∃ dep recorded,
       (dep, recorded) ∈ dependencies e ∧
       hash_file_content fs dep ≠ 0 ∧ hash_file_content fs dep ≠ recorded) ↔
    (entry_absent cache (path source) ∨
     ∃ i0 entry,
       entry_for cache (path source) i0 entry ∧
       (valid entry = false ∨
        hash_file_content fs (path source) = 0 ∨
        hash_file_content fs (path source) ≠ source_hash entry ∨
        ∃ dep recorded,
          (dep, recorded) ∈ dependencies entry ∧
          hash_file_content fs dep ≠ 0 ∧ hash_file_content fs dep ≠ recorded))).
  { split.
    - intros H. right. by exists i, e.
    - intros [Habs|(i' & e' & He' & H)]; [done|]. by rewrite <- (Hsame i' e' He'). }
  rewrite <- Hrule. clear Hrule.
  destruct (valid e) eqn:Hv; cbn [negb fst].
  2: { split; [by left|done]. }
  destruct (hash_file_content fs (path source) =? 0) eqn:Hz; cbn [fst].
  { apply Z.eqb_eq in Hz. split; [by right; left|done]. }
  apply Z.eqb_neq in Hz.
  destruct (hash_file_content fs (path source) =? source_hash e) eqn:Heq;
    cbn [negb fst].
  2: { apply Z.eqb_neq in Heq. split; [by right; right; left|done]. }
  apply Z.eqb_eq in Heq.
  destruct (dependency_changed fs (dependencies e)) eqn:Hd; cbn [fst].
  - apply dependency_changed_spec in Hd. split; [by right; right; right|done].
  - split; [done|]. intros [?|[?|[?|Hex]]]; try done.
    apply dependency_changed_spec in Hex. congruence.
Qed.

(** Both sides of the rule occur: a store with a valid entry for [a.c]
    whose hash is current answers HitSkip and counts a hit; the same store
    has no entry for [b.c], which is a miss. *)
Lemma needs_recompilation_classification_witness :
  (build_cache_needs_recompilation small_fs small_cache small_source "build/a.o").1
  = false ∧
  ¬ must_recompile small_fs small_cache small_source ∧
  (build_cache_needs_recompilation small_fs small_cache small_source "build/a.o").2
  = count_hit small_cache ∧
  must_recompile small_fs small_cache
    (mkSourceFile "b.c" [] false false false (-1)).
Proof.
  destruct (needs_recompilation_classification small_fs small_cache small_source
              "build/a.o") as (Hiff & Hstore & _).
  destruct (needs_recompilation_classification small_fs small_cache
              (mkSourceFile "b.c" [] false false false (-1)) "build/b.o")
    as (Hiff' & _).
  assert (Hhit : (build_cache_needs_recompilation small_fs small_cache small_source
                    "build/a.o").1 = false) by (vm_compute; reflexivity).
  split; [exact Hhit|]. split; [|split].
  - intros H. apply Hiff in H. rewrite Hhit in H. discriminate.
  - rewrite Hstore, Hhit. reflexivity.
  - apply Hiff'. vm_compute. reflexivity.
Defined.

(** C7. An update for a source without an entry, on a store that already
    holds [MAX_CACHE_ENTRIES] entries, prints the warning and returns the
    store as it was. *)
Theorem build_cache_update_full fs now cache src obj graph :
  build_cache_find cache src = None →
  (MAX_CACHE_ENTRIES ≤ entry_count cache)%nat →
  build_cache_update fs now cache src obj graph = (cache, [cache_full_warning]).
Proof.
  intros Hfind Hfull. unfold build_cache_update. rewrite Hfind.
  apply Nat.leb_le in Hfull. by rewrite Hfull.
Qed.

Lemma entry_count_invalidate_dependents_loop todo :
  ∀ i cache changed,
    entry_count (invalidate_dependents_loop todo i cache changed) = entry_count cache.
Proof.
  induction todo as [|todo IH]; intros i cache changed; simpl; [done|].
  rewrite IH. by destruct (valid (entry_at cache i) && _).
Qed.

Lemma cache_bounded_create w project :
  cache_bounded (build_cache_create w project).1.1.
Proof.
  unfold build_cache_create, cache_bounded.
  destruct (w_cache_files w !! _) as [img|]; [|apply Nat.le_0_l].
  destruct (img_version img) as [v|]; [|apply Nat.le_0_l].
  destruct (negb (v =? CACHE_VERSION)); [apply Nat.le_0_l|].
  destruct (img_count img) as [n|]; [|apply Nat.le_0_l].
  destruct (MAX_CACHE_ENTRIES <? n)%nat eqn:Hn; [apply Nat.le_0_l|].
  apply Nat.ltb_ge in Hn.
  destruct (negb (length (take n (img_entries img)) =? n)%nat);
    [apply Nat.le_0_l|exact Hn].
Qed.

Lemma cache_bounded_update fs now cache src obj graph :
  cache_bounded cache →
  cache_bounded (build_cache_update fs now cache src obj graph).1.
Proof.
  unfold build_cache_update, cache_bounded. intros H.
  destruct (build_cache_find cache src); [exact H|].
  destruct (MAX_CACHE_ENTRIES <=? entry_count cache)%nat eqn:Hn; [exact H|].
  apply Nat.leb_gt in Hn. exact Hn.
Qed.

Lemma build_cache_update_full_witness :
  build_cache_update ∅ 0 full_cache "new.c" "build/new.o" None
  = (full_cache, [cache_full_warning]).
Proof.
  apply (build_cache_update_full ∅ 0 full_cache "new.c" "build/new.o" None).
  - vm_compute. reflexivity.
  - vm_compute. reflexivity.
Defined.

(** C9. Every cache operation keeps [entry_count <= MAX_CACHE_ENTRIES]:
    loading yields a bounded store from any file, and resets the count to 0
    when the file announces more than the bound; an update of a bounded
    store is bounded, and at the bound it leaves the store untouched for a
    new source; clearing sets the count to 0; invalidation, invalidation of
    dependents and the decision query keep the count. ([build_cache_find]
    is a pure lookup and returns no store.) *)
Theorem cache_operations_preserve_bound
    w project fs now cache src obj graph source :
  cache_bounded cache →
  cache_bounded (build_cache_create w project).1.1 ∧
  (∀ img n,
     w_cache_files w !!
       CString.truncate MAX_PATH_LENGTH
         (CString.truncate MAX_PATH_LENGTH (project +:+ "/.eventchains")
            +:+ "/" +:+ CACHE_FILENAME) = Some img →
     img_count img = Some n → (MAX_CACHE_ENTRIES < n)%nat →
     entry_count (build_cache_create w project).1.1 = 0%nat) ∧
  cache_bounded (build_cache_update fs now cache src obj graph).1 ∧
  (build_cache_find cache src = None →
   entry_count cache = MAX_CACHE_ENTRIES →
   (build_cache_update fs now cache src obj graph).1 = cache) ∧
  entry_count (build_cache_clear cache) = 0%nat ∧
  entry_count (build_cache_invalidate cache src) = entry_count cache ∧
  entry_count (build_cache_invalidate_dependents cache src graph)
    = entry_count cache ∧
  entry_count (build_cache_needs_recompilation fs cache source obj).2
    = entry_count cache.
Proof.
  intros Hb. split; [apply cache_bounded_create|]. split.
  { intros img n Himg Hn Hgt. unfold build_cache_create. rewrite Himg.
    destruct (img_version img) as [v|]; [|done].
    destruct (negb (v =? CACHE_VERSION)); [done|].
    rewrite Hn. apply Nat.ltb_lt in Hgt. by rewrite Hgt. }
  split; [by apply cache_bounded_update|]. split.
  { intros Hfind Hfull. unfold build_cache_update. rewrite Hfind, Hfull.
    by rewrite Nat.leb_refl. }
  split; [done|]. split.
  { unfold build_cache_invalidate. by destruct (build_cache_find cache src). }
  split.
  { unfold build_cache_invalidate_dependents. destruct graph; [|done].
    apply entry_count_invalidate_dependents_loop. }
  unfold build_cache_needs_recompilation.
  destruct (build_cache_find cache (path source)) as [i|]; [|done].
  destruct (negb (valid (entry_at cache i))); [done|].
  destruct (hash_file_content fs (path source) =? 0); [done|].
  destruct (negb _); [done|].
  by destruct (dependency_changed fs _).
Qed.

Lemma cache_operations_preserve_bound_witness :
  cache_bounded full_cache ∧
  cache_bounded (build_cache_update ∅ 0 full_cache "new.c" "build/new.o" None).1 ∧
  entry_count (build_cache_invalidate full_cache "new.c") = entry_count full_cache.
Proof.
  assert (Hb : cache_bounded full_cache) by (unfold cache_bounded; simpl; lia).
  split; [exact Hb|].
  destruct (cache_operations_preserve_bound
              (mkWorld ∅ ∅ ∅ 0 []) "." ∅ 0 full_cache "new.c" "build/new.o" None
              (mkSourceFile "old.c" [] false false false 0) Hb)
    as (_ & _ & Hu & _ & _ & Hi & _ & _).
  split; [exact Hu|exact Hi].
Defined.

Lemma hash_file_content_empty fs p n :
  fs !! p = Some n → node_readable n = true → node_bytes n = EmptyString →
  hash_file_content fs p = FNV_OFFSET_BASIS.
Proof.
  intros Hp Hr Hb. unfold hash_file_content, fopen_read.
  by rewrite Hp, Hr, Hb.
Qed.

(** C10. For a file that exists, can be read and is empty,
    [hash_file_content] returns the FNV-1a offset basis
    0xcbf29ce484222325, which is not 0; so for a source with that path the
    decision engine reports a miss only when the entry is absent or
    invalid, the stored source hash is not the offset basis, or a recorded
    dependency changed: never through the hash-is-zero rule. *)
Theorem hash_empty_file_nonzero fs p n :
  fs !! p = Some n → node_readable n = true → node_bytes n = EmptyString →
  hash_file_content fs p = 0xcbf29ce484222325 ∧
  hash_file_content fs p ≠ 0 ∧
  ∀ cache source obj,
    path source = p →
    ((build_cache_needs_recompilation fs cache source obj).1 = true ↔
     match build_cache_find cache p with
     | None => True
     | Some i =>
         valid (entry_at cache i) = false ∨
         source_hash (entry_at cache i) ≠ 0xcbf29ce484222325 ∨
         dependency_changed fs (dependencies (entry_at cache i)) = true
     end).
Proof.
  intros Hp Hr Hb.
  pose proof (hash_file_content_empty fs p n Hp Hr Hb) as Hh.
  split; [exact Hh|]. split; [by rewrite Hh|].
  intros cache source obj <-.
  unfold build_cache_needs_recompilation. rewrite Hh.
  destruct (build_cache_find cache (path source)) as [i|]; [|done].
  destruct (valid (entry_at cache i)) eqn:Hv; cbn [negb].
  2: { cbn [fst]. split; [by left|done]. }
  change (FNV_OFFSET_BASIS =? 0) with false. cbv iota.
  destruct (FNV_OFFSET_BASIS =? source_hash (entry_at cache i)) eqn:He;
    cbn [negb].
  - apply Z.eqb_eq in He.
    destruct (dependency_changed fs _); cbn [fst].
    + split; [|done]. intros _. right. by right.
    + split; [done|]. intros [?|[Hne|?]]; try done.
  - apply Z.eqb_neq in He. cbn [fst]. split; [|done]. intros _. right. left.
    intros Heq. apply He. symmetry. exact Heq.
Qed.

Lemma hash_empty_file_nonzero_witness :
  hash_file_content empty_source_fs "empty.c" = 0xcbf29ce484222325 ∧
  hash_file_content empty_source_fs "empty.c" ≠ 0.
Proof.
  destruct (hash_empty_file_nonzero empty_source_fs "empty.c"
              (mkFileNode RegularFile true EmptyString 0))
    as (H1 & H2 & _).
  - vm_compute. reflexivity.
  - reflexivity.
  - reflexivity.
  - exact (conj H1 H2).
Defined.

End Cache.

(** ** The include resolver *)

Section Resolver.

Lemma capture_until_head end_char room p c rest :
  capture_until end_char room p = String c rest → Ascii.eqb c end_char = false.
Proof.
  destruct room as [|room], p as [|a p]; simpl; try discriminate.
  destruct (Ascii.eqb a end_char) eqn:E; [discriminate|].
  intros H. injection H as <- _. exact E.
Qed.

(** A name captured from a quote-form directive never starts with a double
    quote, so [resolve_include] never enters the branch that looks into the
    directory of the referencing file. *)
Lemma quote_form_never_local fs room p referencing_file path_size :
  resolve_local fs (capture_until CString.dquote room p) referencing_file path_size
  = None.
Proof.
  unfold resolve_local.
  destruct (capture_until CString.dquote room p) as [|c rest] eqn:E; [done|].
  by rewrite (capture_until_head _ _ _ _ _ E).
Qed.

(** C5 (defect). The directive [#include "util.h"] in [src/main.c], with
    [src/util.h] on disk next to it: the scanner hands the bare name to the
    resolver, which therefore skips the directory of the referencing file
    and returns the file under the include root [inc]; without include
    roots the include is not resolved at all. *)
Theorem quote_include_skips_referencing_directory :
  file_exists quote_fs "src/util.h" = true ∧
  scan_include_line (include_quoted "util.h") = Some "util.h" ∧
  resolve_include quote_fs quote_graph "util.h" "src/main.c" MAX_PATH_LENGTH
    = Some "inc/util.h" ∧
  includes (parse_includes quote_fs quote_graph (source_file_create "src/main.c")).2
    = ["inc/util.h"] ∧
  includes (parse_includes quote_fs (mkDependencyGraph [] [])
              (source_file_create "src/main.c")).2
    = [].
Proof. vm_compute. repeat split; reflexivity. Qed.

End Resolver.

(** ** Command line and toolchain driver *)

Section Driver.

Lemma main_configure_cflags args :
  Config.cflags (main_configure args)
  = "-Wall" :: "-O2" :: (if Cli.debug args then ["-g"] else []).
Proof.
  unfold main_configure. destruct args as [? ? ? ? ? d ? ? ? ? ?]; simpl.
  by destruct d.
Qed.

Lemma contains_unfold hay needle :
  CString.contains hay needle
  = String.prefix needle hay ||
    match hay with
    | EmptyString => false
    | String _ rest => CString.contains rest needle
    end.
Proof. by destruct hay. Qed.

Lemma contains_app_r a b needle :
  CString.contains b needle = true → CString.contains (a +:+ b) needle = true.
Proof.
  intros H. induction a as [|c a IH]; [exact H|].
  change (String c a +:+ b) with (String c (a +:+ b)).
  rewrite contains_unfold, IH. apply orb_true_r.
Qed.

(** The command line built for any source file, from the configuration of
    [main] after [build_project] has set the compiler and the output
    directory, contains [-O2], whatever the arguments were, as long as it
    fits the command buffer. (A longer one is cut at the end of the buffer,
    and the flags come last.) *)
Lemma compile_command_keeps_O2 args kind compiler dir source obj :
  (String.length
     (foldr String.append EmptyString
        (compile_command_texts source
           (Config.set_output_dir
              (Config.set_compiler (main_configure args) kind compiler) dir)
           obj))
   < MAX_COMMAND_LENGTH)%nat →
  CString.contains
    (compile_command source
       (Config.set_output_dir (Config.set_compiler (main_configure args) kind compiler) dir)
       obj)
    "-O2" = true.
Proof.
  intros Hfit. unfold compile_command.
  rewrite (proj1 (snprintf_all_fits _ _ Hfit)).
  unfold compile_command_texts. cbn [foldr].
  apply contains_app_r. rewrite concat_texts_app. apply contains_app_r.
  change (Config.cflags (Config.set_output_dir
            (Config.set_compiler (main_configure args) kind compiler) dir))
    with (Config.cflags (main_configure args)).
  rewrite main_configure_cflags. by destruct (Cli.debug args).
Qed.

(** C8 (defect). With [--no-optimize], and with its alias [-O0], the run on
    a project with one source file hands this compile command to the shell;
    it still carries [-O2]. The flag list of the configuration holds [-O2]
    whatever the arguments are: [build_config_create] adds it and [main]
    only clears the [optimize] field afterwards; so every compile command
    built from that configuration that fits the command buffer of
    [MAX_COMMAND_LENGTH] bytes contains [-O2]. *)
Theorem no_optimize_keeps_O2 :
  (∀ args, "-O2" ∈ Config.cflags (main_configure args)) ∧
  (∀ args kind compiler dir source obj,
     (String.length
        (foldr String.append EmptyString
           (compile_command_texts source
              (Config.set_output_dir
                 (Config.set_compiler (main_configure args) kind compiler) dir)
              obj))
      < MAX_COMMAND_LENGTH)%nat →
     CString.contains
       (compile_command source
          (Config.set_output_dir
             (Config.set_compiler (main_configure args) kind compiler) dir)
          obj)
       "-O2" = true) ∧
  (λ r, (r.1, w_commands r.2)) <$> main always_ok ["--no-optimize"; "proj"] single_world
    = Some (0, [ "which gcc > /dev/null 2>&1";
                 "gcc -c proj/main.c -o proj/build/main.o -Iproj -Wall -O2";
                 "gcc proj/build/main.o -o proj/build/program" ]) ∧
  (λ r, (r.1, w_commands r.2)) <$> main always_ok ["-O0"; "proj"] single_world
    = Some (0, [ "which gcc > /dev/null 2>&1";
                 "gcc -c proj/main.c -o proj/build/main.o -Iproj -Wall -O2";
                 "gcc proj/build/main.o -o proj/build/program" ]) ∧
  CString.contains "gcc -c proj/main.c -o proj/build/main.o -Iproj -Wall -O2" "-O2"
    = true.
Proof.
  split; [|split].
  - intros args. rewrite main_configure_cflags.
    apply list_elem_of_further, list_elem_of_here.
  - apply compile_command_keeps_O2.
  - vm_compute. repeat split; reflexivity.
Qed.

End Driver.

(** ** The pipeline *)

Section Pipeline.

Example s2_graph_value :
  s2_graph =
  mkDependencyGraph
    [ mkSourceFile "proj/main.c" ["proj/math.h"] false false false (-1);
      mkSourceFile "proj/math.h" ["proj/util.h"] true false false (-1);
      mkSourceFile "proj/util.h" [] true false false (-1) ]
    ["proj"].
Proof. vm_compute. reflexivity. Qed.

Example s2_counters :
  counters (s2_first_build compose_layers) = Some (0, 1, 0, 0, 1) ∧
  counters (rebuild compose_layers id (s2_first_build compose_layers))
    = Some (0, 0, 1, 1, 0) ∧
  counters (rebuild compose_layers remove_build_dir (s2_first_build compose_layers))
    = Some (0, 1, 0, 1, 0) ∧
  counters (rebuild compose_layers_reversed id (s2_first_build compose_layers_reversed))
    = Some (0, 0, 0, 1, 0) ∧
  counters (rebuild compose_layers_reversed remove_build_dir
              (s2_first_build compose_layers_reversed))
    = Some (0, 1, 0, 1, 0).
Proof. vm_compute. repeat split; reflexivity. Qed.

Lemma build_cache_update_counters fs now cache src obj graph :
  hits (build_cache_update fs now cache src obj graph).1 = hits cache ∧
  misses (build_cache_update fs now cache src obj graph).1 = misses cache.
Proof.
  unfold build_cache_update.
  destruct (build_cache_find cache src); [done|].
  by destruct (MAX_CACHE_ENTRIES <=? entry_count cache)%nat.
Qed.

(** C3, as the code has it. When the decision engine classifies a source
    HitSkip and its object file is missing, the cache layer marks the event
    as not cached and runs the next layer (the recompilation); the
    classification has by then added one to the hit counter of the store
    and left the miss counter alone, and neither the downgrade nor the
    update after the compilation changes a counter: the layer ends with the
    counters the next layer returned. *)
Theorem cache_layer_downgrade next ev data source st cache :
  user_data ev = Some data →
  Event.source data = Some source →
  is_header source = false →
  st_cache st = Some cache →
  (build_cache_needs_recompilation (w_fs (st_world st)) cache source
     (Event.object_path data)).1 = false →
  file_exists_cache (w_fs (st_world st)) (Event.object_path data) = false →
  let ev0 := with_data ev (Event.set_cache_hit data false) in
  let st0 := with_cache st (Some (count_hit cache)) in
  let r := cache_middleware_execute next ev st in
  r.1 = (next ev0 st0).1 ∧
  hits (count_hit cache) = wrap64 (hits cache + 1) ∧
  misses (count_hit cache) = misses cache ∧
  ∀ c2, st_cache (next ev0 st0).2 = Some c2 →
    ∃ c3, st_cache r.2 = Some c3 ∧ hits c3 = hits c2 ∧ misses c3 = misses c2.
Proof.
  intros Hdata Hsrc Hhdr Hcache Hhit Hobj. simpl.
  unfold cache_middleware_execute. rewrite Hdata, Hsrc, Hhdr, Hcache.
  pose proof (needs_recompilation_store (w_fs (st_world st)) cache source
                (Event.object_path data)) as Hstore.
  rewrite Hhit in Hstore.
  destruct (build_cache_needs_recompilation (w_fs (st_world st)) cache source
              (Event.object_path data)) as [needs cache'].
  simpl in Hhit, Hstore. subst needs cache'. simpl negb.
  change (w_fs (st_world (with_cache st (Some (count_hit cache)))))
    with (w_fs (st_world st)).
  rewrite Hobj. simpl andb. cbv iota.
  destruct (next (with_data ev (Event.set_cache_hit data false))
              (with_cache st (Some (count_hit cache)))) as [[result ev'] st2].
  cbn [fst snd].
  destruct (st_cache st2) as [c2|] eqn:Hc2.
  2: { repeat split; try done. }
  destruct (user_data ev') as [data'|].
  2: { repeat split; try done. intros c Hc. injection Hc as <-.
       exists c2. cbn [snd]. by rewrite Hc2. }
  destruct (success result).
  2: { repeat split; try done. intros c Hc. injection Hc as <-.
       exists c2. cbn [snd]. by rewrite Hc2. }
  pose proof (build_cache_update_counters (w_fs (st_world st2)) (w_now (st_world st2))
                c2 (path source) (Event.object_path data')
                match st_context st2 !! "dependency_graph" with
                | Some (CtxGraph g) => Some g
                | _ => None
                end) as [Hh Hm].
  destruct (build_cache_update _ _ c2 _ _ _) as [c3 lines].
  cbn [fst snd] in *. repeat split; try done.
  intros c Hc. injection Hc as <-. by exists c3.
Qed.

Lemma cache_layer_downgrade_witness :
  let next : Handler := λ ev st, (event_result_success, ev, st) in
  let r := cache_middleware_execute next small_event small_state in
  r.1 = (next (with_data small_event (Event.set_cache_hit small_data false))
           (with_cache small_state (Some (count_hit small_cache)))).1 ∧
  hits (count_hit small_cache) = wrap64 (hits small_cache + 1) ∧
  misses (count_hit small_cache) = misses small_cache ∧
  ∀ c2,
    st_cache (next (with_data small_event (Event.set_cache_hit small_data false))
                (with_cache small_state (Some (count_hit small_cache)))).2 = Some c2 →
    ∃ c3, st_cache r.2 = Some c3 ∧ hits c3 = hits c2 ∧ misses c3 = misses c2.
Proof.
  apply (cache_layer_downgrade (λ ev st, (event_result_success, ev, st))
           small_event small_data small_source small_state small_cache).
  - reflexivity.
  - reflexivity.
  - reflexivity.
  - reflexivity.
  - vm_compute. reflexivity.
  - vm_compute. reflexivity.
Defined.

(** Counterexample to C3 as the specification states it: in scenario S5
    the store is loaded with a valid entry for [main.c], the decision
    engine answers HitSkip, the object file is gone, the layer recompiles
    (the compile command runs a second time), and the hit counter of the
    store has gone from 0 to 1; the whole rebuild ends with 1 as well. *)
Lemma cache_layer_downgrade_counterexample :
  let obj := "proj/build/main.o" in
  let fs := w_fs (st_world s5_state) in
  ∃ cache,
    st_cache s5_state = Some cache ∧
    (build_cache_needs_recompilation fs cache (file_at s2_graph 0) obj).1 = false ∧
    file_exists_cache fs obj = false ∧
    hits cache = 0 ∧
    hits <$> st_cache (s2_cache_layer s2_event s5_state).2 = Some 1 ∧
    w_commands (st_world (s2_cache_layer s2_event s5_state).2)
      = [s2_compile_command; s2_compile_command] ∧
    (λ o, hits <$> out_cache o) <$>
      rebuild compose_layers remove_build_dir (s2_first_build compose_layers)
      = Some (Some 1).
Proof.
  simpl. eexists. split; [vm_compute; reflexivity|].
  vm_compute. repeat split; reflexivity.
Qed.

Lemma compile_events_of_sources g config order :
  length (compile_events_of g config order)
  = length (filter (λ i, is_header (file_at g i) = false) order) ∧
  Forall (λ ev, ∃ i, i ∈ order ∧ is_header (file_at g i) = false ∧
                     ev = create_compile_event (file_at g i) config)
    (compile_events_of g config order).
Proof.
  induction order as [|i rest [IHl IHf]]; simpl; [by split|].
  rewrite filter_cons. destruct (is_header (file_at g i)) eqn:Hh.
  - rewrite decide_False by done. split; [done|].
    eapply Forall_impl; [exact IHf|]. intros ev (j & Hj & H). exists j.
    split; [|done]. apply elem_of_cons; by right.
  - rewrite decide_True by done. simpl. split; [by rewrite IHl|].
    constructor.
    + exists i. split; [apply list_elem_of_here|done].
    + eapply Forall_impl; [exact IHf|]. intros ev (j & Hj & H). exists j.
      split; [|done]. apply elem_of_cons; by right.
Qed.

(** C4, as the code has it. The chain holds one compile event for every
    file of the build order that is not a header, and none for a header;
    building scenario S2 twice without a change, the second build ends with
    compiled_files = 0 and cached_files = 1, the one count being that of
    [main.c]; total_files is 3. *)
Theorem warm_rebuild_counts_sources_only :
  (∀ g config order,
     length (compile_events_of g config order)
     = length (filter (λ i, is_header (file_at g i) = false) order)) ∧
  out_stats <$> rebuild compose_layers id (s2_first_build compose_layers)
    = Some (Some (Stats.mk 3 0 1 0)) ∧
  event_name <$> compile_events_of s2_graph s2_config [2; 1; 0]%nat
    = ["Compile:proj/main.c"].
Proof.
  split; [intros; apply compile_events_of_sources|].
  vm_compute. split; reflexivity.
Qed.

(** Counterexample to C4 as the specification states it: on the second
    build of scenario S2 the statistics show one cached file, not three;
    with the layers stacked the other way round they show none. *)
Lemma warm_rebuild_counterexample :
  ∃ stats,
    out_stats <$> rebuild compose_layers id (s2_first_build compose_layers)
      = Some (Some stats) ∧
    Stats.compiled_files stats = 0 ∧
    Stats.cached_files stats = 1 ∧
    Stats.cached_files stats ≠ 3 ∧
    (λ o, Stats.cached_files <$> out_stats o) <$>
      rebuild compose_layers_reversed id (s2_first_build compose_layers_reversed)
      = Some (Some 0).
Proof.
  eexists. split; [vm_compute; reflexivity|].
  vm_compute. repeat split; try reflexivity. discriminate.
Qed.

End Pipeline.

(** ** Header first: the examples *)

Section HeaderFirst.

(** Counterexample to C6 as the specification states it: [h.h] includes
    [s.c]; the sort succeeds, the graph holds a header, and the first
    element of the build order is the source file [s.c]. *)
Lemma header_first_counterexample :
  ∃ g' order first,
    dependency_graph_topological_sort header_includes_source_graph
      = Some (DEP_SUCCESS, g', order) ∧
    (∃ h, h ∈ files header_includes_source_graph ∧ is_header h = true) ∧
    order !! 0%nat = Some first ∧
    path (file_at header_includes_source_graph first) = "s.c" ∧
    is_header (file_at header_includes_source_graph first) = false.
Proof.
  eexists _, _, _. split; [vm_compute; reflexivity|]. split.
  - exists (mkSourceFile "h.h" ["s.c"] true false false (-1)).
    split; [|reflexivity]. vm_compute. apply list_elem_of_here.
  - vm_compute. repeat split; reflexivity.
Qed.

Lemma topological_sort_header_first_witness :
  ∃ first ffirst,
    [2; 1; 0]%nat !! 0%nat = Some first ∧
    files s2_explicit_graph !! first = Some ffirst ∧
    is_header ffirst = true.
Proof.
  eapply (topological_sort_header_first s2_explicit_graph _ [2; 1; 0]%nat).
  - vm_compute. reflexivity.
  - exists (mkSourceFile "proj/util.h" [] true false false (-1)).
    split; [|reflexivity]. unfold s2_explicit_graph; simpl.
    apply list_elem_of_further, list_elem_of_further, list_elem_of_here.
  - intros u fu inc d fd Hu Hh Hinc Hd Hfd.
    destruct u as [|[|[|u]]]; simpl in Hu; try discriminate;
      injection Hu as <-; simpl in *; try discriminate.
    + apply list_elem_of_singleton in Hinc as ->.
      vm_compute in Hd. injection Hd as <-.
      simpl in Hfd. by injection Hfd as <-.
    + by apply elem_of_nil in Hinc.
Defined.

End HeaderFirst.

(** ** The persistent cache: further properties *)

Section CacheExtras.

Lemma cache_find_from_Some l pos p i :
  cache_find_from pos l p = Some i →
  (pos ≤ i)%nat ∧
  ∃ e, l !! (i - pos)%nat = Some e ∧ source_path e = p.
Proof.
  revert pos. induction l as [|e l IH]; intros pos H; simpl in *; [discriminate|].
  destruct (String.eqb (source_path e) p) eqn:E.
  - injection H as <-. split; [lia|]. exists e. rewrite Nat.sub_diag.
    split; [reflexivity|]. by apply String.eqb_eq.
  - destruct (IH _ H) as [Hle (e' & He' & Hp)]. split; [lia|].
    exists e'. split; [|done].
    replace (i - pos)%nat with (S (i - S pos)) by lia. exact He'.
Qed.

Lemma cache_find_from_paths l l' pos p :
  source_path <$> l = source_path <$> l' →
  cache_find_from pos l p = cache_find_from pos l' p.
Proof.
  revert l' pos. induction l as [|e l IH]; intros [|e' l'] pos H;
    simpl in *; try discriminate; [reflexivity|].
  injection H as He Hl. rewrite He.
  destruct (String.eqb (source_path e') p); [reflexivity|]. by apply IH.
Qed.

Lemma cache_find_from_app_None l1 l2 pos p :
  cache_find_from pos l1 p = None →
  cache_find_from pos (l1 ++ l2) p = cache_find_from (pos + length l1) l2 p.
Proof.
  revert pos. induction l1 as [|e l1 IH]; intros pos H; simpl in *.
  - by rewrite Nat.add_0_r.
  - destruct (String.eqb (source_path e) p); [discriminate|].
    rewrite (IH _ H). f_equal. lia.
Qed.

Lemma cache_find_from_insert l pos p i e :
  cache_find_from pos l p = Some (pos + i)%nat →
  source_path e = p →
  cache_find_from pos (<[i := e]> l) p = Some (pos + i)%nat.
Proof.
  revert pos i. induction l as [|a l IH]; intros pos i H He; simpl in *;
    [discriminate|].
  destruct i as [|i]; simpl.
  - rewrite He, String.eqb_refl. f_equal. lia.
  - destruct (String.eqb (source_path a) p) eqn:E.
    + injection H as H. lia.
    + replace (pos + S i)%nat with (S pos + i)%nat in * by lia.
      by apply IH.
Qed.

(** The entry found is in use, lies in the array and carries the path. *)
Lemma build_cache_find_Some cache p i :
  build_cache_find cache p = Some i →
  (i < entry_count cache)%nat ∧ (i < length (entries cache))%nat ∧
  source_path (entry_at cache i) = p.
Proof.
  unfold build_cache_find. intros H.
  destruct (cache_find_from_Some _ _ _ _ H) as [_ (e & He & Hp)].
  rewrite Nat.sub_0_r in He. apply lookup_take_Some in He as [He Hi].
  split; [done|]. split; [by eapply lookup_lt_Some|].
  unfold entry_at. by rewrite He.
Qed.



(** After [build_cache_update] the store holds, at the index the lookup
    returns, a valid entry with the current hash of the source and the
    captured dependencies. *)
Lemma build_cache_update_lookup fs now cache src obj graph :
  length (entries cache) = MAX_CACHE_ENTRIES →
  (entry_count cache ≤ MAX_CACHE_ENTRIES)%nat →
  (String.length src < MAX_PATH_LENGTH)%nat →
  (build_cache_find cache src = None → (entry_count cache < MAX_CACHE_ENTRIES)%nat) →
  let cache' := (build_cache_update fs now cache src obj graph).1 in
  ∃ i, build_cache_find cache' src = Some i ∧
       entry_at cache' i =
         mkCacheEntry src (CString.truncate MAX_PATH_LENGTH obj)
           (hash_file_content fs src) (get_file_mtime fs src) now
           (capture_dependencies fs graph src) true.
Proof.
  intros Hlen Hcount Hsrc Hroom. simpl. unfold build_cache_update.
  rewrite (truncate_short _ _ Hsrc).
  destruct (build_cache_find cache src) as [i|] eqn:Hfind.
  - destruct (build_cache_find_Some _ _ _ Hfind) as (Hi & Hil & _).
    exists i. cbn [fst]. split.
    + unfold build_cache_find in *. cbn [entry_count entries set_entries].
      rewrite take_insert_lt by done.
      by apply (cache_find_from_insert _ 0 src i).
    + unfold entry_at. cbn [entries set_entries].
      by rewrite list_lookup_insert_eq.
  - specialize (Hroom eq_refl). apply Nat.leb_gt in Hroom as Hleb.
    rewrite Hleb. exists (entry_count cache). cbn [fst]. split.
    + unfold build_cache_find in *. cbn [entry_count entries set_entries].
      rewrite (take_S_r _ _ (mkCacheEntry src (CString.truncate MAX_PATH_LENGTH obj)
                 (hash_file_content fs src) (get_file_mtime fs src) now
                 (capture_dependencies fs graph src) true)).
      2: { apply list_lookup_insert_eq. lia. }
      rewrite take_insert_ge by lia.
      rewrite (cache_find_from_app_None _ _ _ _ Hfind). simpl.
      rewrite String.eqb_refl. f_equal.
      rewrite length_take. lia.
    + unfold entry_at. cbn [entries set_entries].
      rewrite list_lookup_insert_eq by lia. reflexivity.
Qed.

(** X1. What an update leaves alone. An update that is not dropped writes
    one slot, the one the lookup returns afterwards; every other slot and
    the three counters keep their values, and the entry count grows by one
    for a new source and not at all for a known one. *)
Theorem build_cache_update_frame fs now cache src obj graph :
  length (entries cache) = MAX_CACHE_ENTRIES →
  (entry_count cache ≤ MAX_CACHE_ENTRIES)%nat →
  (String.length src < MAX_PATH_LENGTH)%nat →
  (build_cache_find cache src = None → (entry_count cache < MAX_CACHE_ENTRIES)%nat) →
  let cache' := (build_cache_update fs now cache src obj graph).1 in
  ∃ i, build_cache_find cache' src = Some i ∧
       (∀ j, j ≠ i → entry_at cache' j = entry_at cache j) ∧
       entry_count cache' =
         (if build_cache_find cache src is Some _ then entry_count cache
          else S (entry_count cache)) ∧
       length (entries cache') = MAX_CACHE_ENTRIES ∧
       hits cache' = hits cache ∧ misses cache' = misses cache ∧
       invalidations cache' = invalidations cache.
Proof.
  intros Hlen Hcount Hsrc Hroom.
  destruct (build_cache_update_lookup fs now cache src obj graph
              Hlen Hcount Hsrc Hroom) as (i & Hfind' & _).
  cbv zeta in *. exists i. split; [exact Hfind'|].
  revert Hfind'. unfold build_cache_update.
  destruct (build_cache_find cache src) as [k|] eqn:Hfind.
  - cbn [fst]. intros Hfind'.
    assert (k = i) as ->.
    { destruct (build_cache_find_Some _ _ _ Hfind) as (Hk & Hkl & _).
      unfold build_cache_find in Hfind, Hfind'.
      cbn [entry_count entries set_entries] in Hfind'.
      rewrite take_insert_lt in Hfind' by done.
      rewrite (cache_find_from_insert _ 0 src k) in Hfind';
        [|done|by apply truncate_short].
      simpl in Hfind'. congruence. }
    repeat split; try done.
    + intros j Hj. unfold entry_at. cbn [entries set_entries].
      by rewrite list_lookup_insert_ne.
    + cbn [entries set_entries]. by rewrite length_insert.
  - specialize (Hroom eq_refl). apply Nat.leb_gt in Hroom as Hleb.
    rewrite Hleb. cbn [fst]. intros Hfind'.
    assert (entry_count cache = i) as Hi.
    { unfold build_cache_find in Hfind, Hfind'.
      cbn [entry_count entries set_entries] in Hfind'.
      rewrite (take_S_r _ _ (mkCacheEntry (CString.truncate MAX_PATH_LENGTH src)
                 (CString.truncate MAX_PATH_LENGTH obj)
                 (hash_file_content fs src) (get_file_mtime fs src) now
                 (capture_dependencies fs graph src) true)) in Hfind'.
      2: { apply list_lookup_insert_eq. lia. }
      rewrite take_insert_ge in Hfind' by lia.
      rewrite (cache_find_from_app_None _ _ _ _ Hfind) in Hfind'.
      simpl in Hfind'. rewrite (truncate_short _ _ Hsrc), String.eqb_refl in Hfind'.
      rewrite length_take in Hfind'. injection Hfind' as <-. lia. }
    repeat split; try done.
    + intros j Hj. unfold entry_at. cbn [entries set_entries].
      rewrite list_lookup_insert_ne by lia. done.
    + cbn [entries set_entries]. by rewrite length_insert.
Qed.

Lemma build_cache_update_frame_witness :
  ∃ i, build_cache_find
         (build_cache_update small_fs 0 empty_store "a.c" "build/a.o" None).1 "a.c"
       = Some i.
Proof.
  destruct (build_cache_update_frame small_fs 0 empty_store "a.c" "build/a.o" None)
    as (i & H & _).
  - vm_compute. reflexivity.
  - vm_compute. lia.
  - vm_compute. lia.
  - intros _. vm_compute. lia.
  - by exists i.
Defined.



Lemma entry_at_alter_eq cache i f n :
  (i < length (entries cache))%nat →
  entry_at (set_entries cache n (alter f i (entries cache))) i = f (entry_at cache i).
Proof.
  intros H. unfold entry_at. cbn [entries set_entries].
  rewrite list_lookup_alter_eq.
  destruct (lookup_lt_is_Some_2 _ _ H) as [e ->]. reflexivity.
Qed.

Lemma entry_at_alter_ne cache i j f n :
  i ≠ j →
  entry_at (set_entries cache n (alter f i (entries cache))) j = entry_at cache j.
Proof.
  intros H. unfold entry_at. cbn [entries set_entries].
  by rewrite list_lookup_alter_ne.
Qed.

Lemma build_cache_find_alter_valid cache i v n p :
  build_cache_find
    (set_entries cache n (alter (set_valid v) i (entries cache))) p
  = cache_find_from 0 (take n (entries cache)) p.
Proof.
  unfold build_cache_find. cbn [entry_count entries set_entries].
  apply cache_find_from_paths. rewrite !fmap_take. f_equal.
  generalize (entries cache) i. clear.
  induction l as [|e l IH]; intros [|i]; simpl; try reflexivity.
  f_equal. apply IH.
Qed.

(** X3. Invalidation. Invalidating a source that has an entry marks that
    entry invalid and nothing else: the entry count, the lookup, the other
    entries and the hit and miss counters stay, the invalidation counter
    grows by one, and the next query for that source is a miss. *)
Theorem build_cache_invalidate_then_query fs cache source obj i :
  build_cache_find cache (path source) = Some i →
  let cache' := build_cache_invalidate cache (path source) in
  build_cache_needs_recompilation fs cache' source obj = (true, count_miss cache') ∧
  build_cache_find cache' (path source) = Some i ∧
  entry_at cache' i = set_valid false (entry_at cache i) ∧
  (∀ j, j ≠ i → entry_at cache' j = entry_at cache j) ∧
  entry_count cache' = entry_count cache ∧
  invalidations cache' = wrap64 (invalidations cache + 1) ∧
  hits cache' = hits cache ∧ misses cache' = misses cache.
Proof.
  intros Hfind. simpl. unfold build_cache_invalidate. rewrite Hfind.
  destruct (build_cache_find_Some _ _ _ Hfind) as (_ & Hil & _).
  assert (Hfind' :
    build_cache_find
      (count_invalidation
         (set_entries cache (entry_count cache)
            (alter (set_valid false) i (entries cache)))) (path source) = Some i).
  { change (build_cache_find (count_invalidation ?c) ?p)
      with (build_cache_find c p).
    by rewrite build_cache_find_alter_valid. }
  assert (Hentry :
    entry_at
      (count_invalidation
         (set_entries cache (entry_count cache)
            (alter (set_valid false) i (entries cache)))) i
    = set_valid false (entry_at cache i)).
  { change (entry_at (count_invalidation ?c) ?k) with (entry_at c k).
    by apply entry_at_alter_eq. }
  split; [|split; [done|split; [done|split]]].
  - unfold build_cache_needs_recompilation. by rewrite Hfind', Hentry.
  - intros j Hj.
    change (entry_at (count_invalidation ?c) ?k) with (entry_at c k).
    by apply entry_at_alter_ne.
  - by repeat split.
Qed.

Lemma build_cache_invalidate_then_query_witness :
  build_cache_needs_recompilation small_fs
    (build_cache_invalidate small_cache "a.c") small_source "build/a.o"
  = (true, count_miss (build_cache_invalidate small_cache "a.c")).
Proof.
  apply (build_cache_invalidate_then_query small_fs small_cache small_source
           "build/a.o" 0).
  vm_compute. reflexivity.
Defined.

(** Invalidating a source without an entry changes nothing, not even the
    invalidation counter. *)
Lemma build_cache_invalidate_missing cache src :
  build_cache_find cache src = None →
  build_cache_invalidate cache src = cache.
Proof. intros H. unfold build_cache_invalidate. by rewrite H. Qed.




(** On the store with [a.c] (depending on [a.h], [b.h]) and [b.c]
    (depending on [b.h]): a change of [a.h] invalidates the first entry
    only, a change of [b.h] both. *)
Example invalidate_dependents_example :
  valid <$> entries (build_cache_invalidate_dependents two_entry_store "a.h"
                       (Some s2_explicit_graph))
    = [false; true; false] ∧
  valid <$> entries (build_cache_invalidate_dependents two_entry_store "b.h"
                       (Some s2_explicit_graph))
    = [false; false; false] ∧
  invalidations (build_cache_invalidate_dependents two_entry_store "b.h"
                   (Some s2_explicit_graph)) = 2.
Proof. vm_compute. repeat split; reflexivity. Qed.

(** X5. Save then load. A store saved into its existing cache directory and
    loaded again for the same project has the same entry count and the
    same entries in use; the hit, miss and invalidation counters are not
    part of the file and start at 0; no source or object file is touched. *)
Theorem build_cache_save_then_create w cache project :
  cache_dir cache = CString.truncate MAX_PATH_LENGTH (project +:+ "/.eventchains") →
  is_directory (w_fs w) (cache_dir cache) = true →
  version cache = CACHE_VERSION →
  (entry_count cache ≤ MAX_CACHE_ENTRIES)%nat →
  (entry_count cache ≤ length (entries cache))%nat →
  let saved := build_cache_save w cache in
  let loaded := build_cache_create saved.1.2 project in
  saved.1.1 = true ∧
  entry_count loaded.1.1 = entry_count cache ∧
  (∀ i, (i < entry_count cache)%nat → entry_at loaded.1.1 i = entry_at cache i) ∧
  length (entries loaded.1.1) = MAX_CACHE_ENTRIES ∧
  hits loaded.1.1 = 0 ∧ misses loaded.1.1 = 0 ∧ invalidations loaded.1.1 = 0 ∧
  w_fs loaded.1.2 = w_fs w.
Proof.
  intros Hdir Hexists Hver Hcount Hlen. cbv zeta.
  unfold build_cache_save. rewrite Hexists. cbn [negb fst snd].
  unfold build_cache_create. rewrite <- Hdir.
  cbn [w_cache_files set_cache_files w_fs set_fs].
  rewrite lookup_insert_eq. cbn [img_version img_count img_entries].
  rewrite Hver, Z.eqb_refl. cbn [negb].
  assert (Hlt : (MAX_CACHE_ENTRIES <? entry_count cache)%nat = false)
    by (by apply Nat.ltb_ge).
  rewrite Hlt. rewrite take_take, Nat.min_id.
  rewrite length_take, Nat.min_l by done. rewrite Nat.eqb_refl. cbn [negb].
  assert (Hmk : mkdir (w_fs w) (cache_dir cache) = w_fs w).
  { unfold mkdir. unfold is_directory in Hexists.
    by destruct (w_fs w !! cache_dir cache). }
  cbn [fst snd entry_count set_entries hits misses invalidations entries w_fs set_fs].
  rewrite Hmk. repeat split; try done.
  - intros i Hi. unfold entry_at. cbn [entries set_entries].
    rewrite lookup_app_l by (rewrite length_take; lia).
    by rewrite lookup_take_lt.
  - cbn [entries set_entries].
    rewrite length_app, length_take, length_drop, length_replicate. lia.
Qed.

Lemma build_cache_save_then_create_witness :
  entry_count (build_cache_create
                 (build_cache_save cache_dir_world two_entry_store).1.2 "proj").1.1
  = 2%nat.
Proof.
  destruct (build_cache_save_then_create cache_dir_world two_entry_store "proj")
    as (_ & H & _).
  - vm_compute. reflexivity.
  - vm_compute. reflexivity.
  - reflexivity.
  - vm_compute. lia.
  - vm_compute. lia.
  - exact H.
Defined.






End CacheExtras.

(** ** Include scanning and resolution: further properties *)

Section ResolverExtras.

Lemma substring_length_le s n : (String.length (String.substring 0 n s) ≤ n)%nat.
Proof.
  revert n. induction s as [|c s IH]; intros [|n]; simpl; try lia.
  specialize (IH n). lia.
Qed.

Lemma truncate_length size s :
  (0 < size)%nat → (String.length (CString.truncate size s) < size)%nat.
Proof.
  intros H. unfold CString.truncate.
  pose proof (substring_length_le s (size - 1)). lia.
Qed.

Lemma resolve_in_include_paths_Some fs roots name size r :
  resolve_in_include_paths fs roots name size = Some r →
  ∃ l1 root l2,
    roots = l1 ++ root :: l2 ∧ r = root_candidate root name size ∧
    file_exists fs r = true ∧
    Forall (λ x, file_exists fs (root_candidate x name size) = false) l1.
Proof.
  induction roots as [|root roots IH]; simpl; [discriminate|].
  fold (root_candidate root name size).
  destruct (file_exists fs (root_candidate root name size)) eqn:E.
  - intros H. injection H as <-. exists [], root, roots. by repeat split.
  - intros H. destruct (IH H) as (l1 & x & l2 & -> & -> & Hex & Hmiss).
    exists (root :: l1), x, l2. repeat split; try done. by constructor.
Qed.

Lemma resolve_in_include_paths_first fs l1 root l2 name size :
  Forall (λ x, file_exists fs (root_candidate x name size) = false) l1 →
  file_exists fs (root_candidate root name size) = true →
  resolve_in_include_paths fs (l1 ++ root :: l2) name size
  = Some (root_candidate root name size).
Proof.
  induction 1 as [|x l1 Hx _ IH]; intros Hroot; simpl.
  - fold (root_candidate root name size). by rewrite Hroot.
  - fold (root_candidate x name size). rewrite Hx. by apply IH.
Qed.

Lemma resolve_in_include_paths_None fs roots name size :
  Forall (λ x, file_exists fs (root_candidate x name size) = false) roots →
  resolve_in_include_paths fs roots name size = None.
Proof.
  induction 1 as [|x l Hx _ IH]; simpl; [done|].
  fold (root_candidate x name size). by rewrite Hx.
Qed.

Lemma resolve_local_Some fs name ref size r :
  resolve_local fs name ref size = Some r → file_exists fs r = true.
Proof.
  unfold resolve_local. destruct name as [|c name]; [discriminate|].
  destruct (Ascii.eqb c CString.dquote); [|discriminate].
  destruct (CString.strrchr _ _) as [k|]; [|discriminate].
  destruct (file_exists fs _) eqn:E; [|discriminate].
  intros H. by injection H as <-.
Qed.

Lemma resolve_include_exists fs g name ref size r :
  (String.length name < size)%nat →
  resolve_include fs g name ref size = Some r →
  file_exists fs r = true ∧ (String.length r < size)%nat.
Proof.
  intros Hlen. unfold resolve_include.
  destruct (resolve_local fs name ref size) as [r1|] eqn:Hloc.
  { intros H. injection H as <-. split; [by eapply resolve_local_Some|].
    revert Hloc. unfold resolve_local. destruct name as [|c name]; [discriminate|].
    destruct (Ascii.eqb c CString.dquote); [|discriminate].
    destruct (CString.strrchr _ _) as [k|]; [|discriminate].
    destruct (file_exists fs _); [|discriminate].
    intros H. injection H as <-. apply truncate_length. lia. }
  destruct (resolve_in_include_paths fs (include_paths g) name size) as [r2|] eqn:Hr.
  { intros H. injection H as <-.
    destruct (resolve_in_include_paths_Some _ _ _ _ _ Hr)
      as (l1 & root & l2 & _ & -> & Hex & _).
    split; [done|]. apply truncate_length. lia. }
  destruct (file_exists fs name) eqn:E; [|discriminate].
  intros H. injection H as <-. rewrite truncate_short by done. done.
Qed.

(** X7. A resolved include exists. Whatever [resolve_include] returns for a
    name that fits the destination is the path of an existing regular
    file, and that path fits the destination too. *)
Theorem resolve_include_sound fs g name ref size r :
  (String.length name < size)%nat →
  resolve_include fs g name ref size = Some r →
  file_exists fs r = true ∧ (String.length r < size)%nat.
Proof. apply resolve_include_exists. Qed.

Lemma resolve_include_sound_witness :
  file_exists quote_fs "inc/util.h" = true ∧
  (String.length "inc/util.h" < MAX_PATH_LENGTH)%nat.
Proof.
  apply (resolve_include_sound quote_fs quote_graph "util.h" "src/main.c"
           MAX_PATH_LENGTH "inc/util.h").
  - vm_compute. lia.
  - vm_compute. reflexivity.
Defined.

(** X8. The search order. For a name that does not start with a double
    quote (every name the scanner extracts from a quote-form directive is
    one), the include roots are probed in insertion order and the first
    root under which the file exists wins; only when no root has it is the
    name tried as it stands, relative to the working directory; otherwise
    the include is unresolved. The referencing file plays no part. *)
Theorem resolve_include_search_order fs g name ref size :
  String.get 0 name ≠ Some CString.dquote →
  (∀ l1 root l2,
     include_paths g = l1 ++ root :: l2 →
     Forall (λ x, file_exists fs (root_candidate x name size) = false) l1 →
     file_exists fs (root_candidate root name size) = true →
     resolve_include fs g name ref size = Some (root_candidate root name size)) ∧
  (Forall (λ x, file_exists fs (root_candidate x name size) = false)
     (include_paths g) →
   resolve_include fs g name ref size
   = if file_exists fs name then Some (CString.truncate size name) else None).
Proof.
  intros Hq.
  assert (Hloc : resolve_local fs name ref size = None).
  { unfold resolve_local. destruct name as [|c name]; [done|].
    destruct (Ascii.eqb c CString.dquote) eqn:E; [|done].
    apply Ascii.eqb_eq in E. subst c. simpl in Hq. done. }
  unfold resolve_include. rewrite Hloc. split.
  - intros l1 root l2 -> Hmiss Hroot.
    by rewrite (resolve_in_include_paths_first _ _ _ _ _ _ Hmiss Hroot).
  - intros Hmiss. by rewrite (resolve_in_include_paths_None _ _ _ _ Hmiss).
Qed.

Lemma resolve_include_search_order_witness :
  resolve_include quote_fs quote_graph "util.h" "src/main.c" MAX_PATH_LENGTH
  = Some (root_candidate "inc" "util.h" MAX_PATH_LENGTH).
Proof.
  destruct (resolve_include_search_order quote_fs quote_graph "util.h" "src/main.c"
              MAX_PATH_LENGTH) as [H _].
  - vm_compute. discriminate.
  - apply (H [] "inc" []).
    + reflexivity.
    + constructor.
    + vm_compute. reflexivity.
Defined.

End ResolverExtras.

(** ** The include scanner *)

Section ScannerExtras.

Lemma string_forall_impl (P Q : ascii → bool) s :
  (∀ c, P c = true → Q c = true) →
  string_forall P s = true → string_forall Q s = true.
Proof.
  intros HPQ. induction s as [|c s IH]; simpl; [done|].
  intros [Hc Hs]%andb_prop. rewrite (HPQ _ Hc). simpl. by apply IH.
Qed.

Lemma isspace_not_nul c :
  CString.isspace c = true → negb (Ascii.eqb c CString.nul) = true.
Proof.
  intros H. destruct (Ascii.eqb c CString.nul) eqn:E; [|done].
  apply Ascii.eqb_eq in E. subst c. vm_compute in H. discriminate.
Qed.

Lemma c_str_app s t :
  string_forall (λ c, negb (Ascii.eqb c CString.nul)) s = true →
  c_str (s +:+ t) = s +:+ c_str t.
Proof.
  induction s as [|c s IH]; simpl; [done|].
  intros [Hc Hs]%andb_prop. apply negb_true_iff in Hc. rewrite Hc.
  by rewrite IH.
Qed.

Lemma skip_spaces_app ws s :
  string_forall CString.isspace ws = true →
  CString.skip_spaces (ws +:+ s) = CString.skip_spaces s.
Proof.
  induction ws as [|c ws IH]; simpl; [done|].
  intros [Hc Hs]%andb_prop. rewrite Hc. by apply IH.
Qed.

Lemma capture_until_app e room name rest :
  string_forall (λ c, negb (Ascii.eqb c e)) name = true →
  (String.length name ≤ room)%nat →
  capture_until e room (name +:+ String e rest) = name.
Proof.
  revert room. induction name as [|c name IH]; intros room; simpl.
  - intros _ _. destruct room; [done|]. simpl. by rewrite Ascii.eqb_refl.
  - intros [Hc Hs]%andb_prop Hlen. destruct room as [|room]; [lia|].
    simpl. apply negb_true_iff in Hc. rewrite Hc. f_equal. apply IH; [done|lia].
Qed.

Lemma capture_until_length e room p :
  (String.length (capture_until e room p) ≤ room)%nat.
Proof.
  revert p. induction room as [|room IH]; intros [|c p]; simpl; try lia.
  destruct (Ascii.eqb c e); simpl; [lia|]. specialize (IH p). lia.
Qed.

Lemma scan_include_line_length l name :
  scan_include_line l = Some name → (String.length name < MAX_PATH_LENGTH)%nat.
Proof.
  unfold scan_include_line.
  destruct (CString.skip_spaces (c_str l)) as [|c p1]; [discriminate|].
  destruct (Ascii.eqb c "#"); [|discriminate].
  destruct (String.prefix _ _); [|discriminate].
  destruct (CString.skip_spaces (CString.drop 7 _)) as [|q p4]; [discriminate|].
  assert (Hm : (MAX_PATH_LENGTH - 1 < MAX_PATH_LENGTH)%nat) by (unfold MAX_PATH_LENGTH; lia).
  destruct (Ascii.eqb q CString.dquote).
  { intros H.
    replace name with (capture_until CString.dquote (MAX_PATH_LENGTH - 1) p4)
      by congruence.
    eapply Nat.le_lt_trans; [apply capture_until_length|exact Hm]. }
  destruct (Ascii.eqb q "<"); [|discriminate].
  intros H.
  replace name with (capture_until ">"%char (MAX_PATH_LENGTH - 1) p4) by congruence.
  eapply Nat.le_lt_trans; [apply capture_until_length|exact Hm].
Qed.

Lemma name_char_not_nul e name :
  string_forall (name_char e) name = true →
  string_forall (λ c, negb (Ascii.eqb c CString.nul)) name = true.
Proof.
  apply string_forall_impl. intros c. unfold name_char. by intros [_ ?]%andb_prop.
Qed.

Lemma name_char_not_end e name :
  string_forall (name_char e) name = true →
  string_forall (λ c, negb (Ascii.eqb c e)) name = true.
Proof.
  apply string_forall_impl. intros c. unfold name_char. by intros [? _]%andb_prop.
Qed.

(** The scan of one line reads back what a directive says: the name
    between the delimiters, whatever follows the closing one. *)
Lemma scan_include_line_round_trip ws1 ws2 ws3 opening closing name rest :
  (opening = CString.dquote ∧ closing = CString.dquote) ∨
  (opening = "<"%char ∧ closing = ">"%char) →
  string_forall CString.isspace ws1 = true →
  string_forall CString.isspace ws2 = true →
  string_forall CString.isspace ws3 = true →
  string_forall (name_char closing) name = true →
  (String.length name < MAX_PATH_LENGTH)%nat →
  scan_include_line (include_directive ws1 ws2 ws3 opening name closing rest)
  = Some name.
Proof.
  intros Hform H1 H2 H3 Hname Hlen.
  assert (Hn : ∀ ws, string_forall CString.isspace ws = true →
            string_forall (λ c, negb (Ascii.eqb c CString.nul)) ws = true).
  { intros ws. apply string_forall_impl, isspace_not_nul. }
  assert (Hroom : (String.length name ≤ MAX_PATH_LENGTH - 1)%nat) by lia.
  unfold scan_include_line, include_directive.
  rewrite (c_str_app ws1) by auto.
  change (c_str (String "#"%char ?x)) with (String "#"%char (c_str x)).
  rewrite (c_str_app ws2) by auto.
  change (c_str ("include" +:+ ?x)) with ("include" +:+ c_str x).
  rewrite (c_str_app ws3) by auto.
  rewrite (skip_spaces_app ws1) by done.
  change (CString.skip_spaces (String "#"%char ?x)) with (String "#"%char x).
  cbv beta match. rewrite Ascii.eqb_refl.
  rewrite (skip_spaces_app ws2) by done.
  change (CString.skip_spaces ("include" +:+ ?x)) with ("include" +:+ x).
  rewrite prefix_app.
  change (CString.drop 7 ("include" +:+ ?x)) with x.
  rewrite (skip_spaces_app ws3) by done.
  destruct Hform as [[-> ->]|[-> ->]].
  - change (c_str (String CString.dquote ?x)) with (String CString.dquote (c_str x)).
    change (CString.skip_spaces (String CString.dquote ?x)) with (String CString.dquote x).
    cbv beta match. rewrite Ascii.eqb_refl.
    rewrite (c_str_app name) by (by eapply name_char_not_nul).
    change (c_str (String CString.dquote ?x)) with (String CString.dquote (c_str x)).
    f_equal. apply capture_until_app; [by apply name_char_not_end|done].
  - change (c_str (String "<"%char ?x)) with (String "<"%char (c_str x)).
    change (CString.skip_spaces (String "<"%char ?x)) with (String "<"%char x).
    cbv beta match.
    change (Ascii.eqb "<"%char CString.dquote) with false. cbv beta match.
    rewrite Ascii.eqb_refl.
    rewrite (c_str_app name) by (by eapply name_char_not_nul).
    change (c_str (String ">"%char ?x)) with (String ">"%char (c_str x)).
    f_equal. apply capture_until_app; [by apply name_char_not_end|done].
Qed.

Lemma parse_include_lines_sound fs g lines file :
  let r := parse_include_lines fs g lines file in
  path r.2 = path file ∧ is_header r.2 = is_header file ∧
  (∃ l, includes r.2 = includes file ++ l ∧ Forall (recorded_include fs) l) ∧
  (length (includes r.2) ≤ length (includes file) `max` MAX_INCLUDES_PER_FILE)%nat ∧
  (r.1 = DEP_SUCCESS ∨
   r.1 = DEP_ERROR_TOO_MANY_INCLUDES ∧
   (MAX_INCLUDES_PER_FILE ≤ length (includes r.2))%nat).
Proof.
  revert file. induction lines as [|l lines IH]; intros file; cbn zeta.
  { simpl. repeat split; [|lia|by left]. exists []. by rewrite app_nil_r. }
  cbn [parse_include_lines].
  destruct (scan_include_line l) as [name|] eqn:Hscan; [|apply IH].
  destruct (resolve_include fs g name (path file) MAX_PATH_LENGTH) as [r|] eqn:Hres;
    [|apply IH].
  pose proof (scan_include_line_length _ _ Hscan) as Hlen.
  destruct (resolve_include_exists _ _ _ _ _ _ Hlen Hres) as [Hex Hshort].
  unfold source_file_add_include.
  destruct (MAX_INCLUDES_PER_FILE <=? length (includes file))%nat eqn:Hfull.
  { apply Nat.leb_le in Hfull. cbn [fst snd].
    repeat split; [|lia|by right]. exists []. by rewrite app_nil_r. }
  apply Nat.leb_gt in Hfull.
  set (file' := mkSourceFile _ _ _ _ _ _).
  destruct (IH file') as (Hp & Hh & (l' & Hl' & Hrec) & Hbound & Herr).
  cbn [path is_header includes file'] in *.
  repeat split; [done|done| | |done].
  - exists (r :: l'). rewrite Hl', <- app_assoc. split; [done|].
    constructor; [by split|done].
  - rewrite length_app in Hbound. simpl in Hbound. lia.
Qed.

Lemma parse_includes_spec fs g file :
  let r := parse_includes fs g file in
  path r.2 = path file ∧ is_header r.2 = is_header file ∧
  (∃ l, includes r.2 = includes file ++ l ∧ Forall (recorded_include fs) l) ∧
  (length (includes r.2) ≤ length (includes file) `max` MAX_INCLUDES_PER_FILE)%nat ∧
  (r.1 = DEP_SUCCESS ∨
   r.1 = DEP_ERROR_FILE_NOT_FOUND ∧ fopen_read fs (path file) = None ∨
   r.1 = DEP_ERROR_TOO_MANY_INCLUDES ∧
   (MAX_INCLUDES_PER_FILE ≤ length (includes r.2))%nat).
Proof.
  cbn zeta. unfold parse_includes.
  destruct (fopen_read fs (path file)) as [content|] eqn:Hopen.
  - destruct (parse_include_lines_sound fs g
                (fgets_lines 1024 1023 EmptyString content) file)
      as (Hp & Hh & Hl & Hbound & Herr).
    repeat split; try done. destruct Herr as [?|?]; [by left|by right; right].
  - cbn [fst snd]. repeat split; [|lia|by right; left].
    exists []. by rewrite app_nil_r.
Qed.

Lemma include_directive_head ws1 ws2 ws3 opening name closing rest :
  include_directive ws1 ws2 ws3 opening name closing rest
  = directive_head ws1 ws2 ws3 opening name closing +:+ rest.
Proof.
  unfold directive_head, include_directive.
  rewrite (append_assoc ws1). f_equal. rewrite (append_cons "#"). f_equal.
  rewrite (append_assoc ws2). f_equal. rewrite (append_assoc "include"). f_equal.
  rewrite (append_assoc ws3). f_equal. rewrite (append_cons opening). f_equal.
  rewrite (append_assoc name). reflexivity.
Qed.

Lemma free_of_app c a b :
  free_of c (a +:+ b) = free_of c a && free_of c b.
Proof.
  unfold free_of. induction a as [|x a IH]; [done|].
  rewrite append_cons. simpl. by rewrite IH, andb_assoc.
Qed.

Lemma blank_free ws :
  string_forall blank ws = true → free_of CString.newline ws = true.
Proof. apply string_forall_impl. intros c. unfold blank. by intros [_ ?]%andb_prop. Qed.

Lemma blank_isspace ws :
  string_forall blank ws = true → string_forall CString.isspace ws = true.
Proof. apply string_forall_impl. intros c. unfold blank. by intros [? _]%andb_prop. Qed.

Lemma directive_head_free ws1 ws2 ws3 opening name closing :
  string_forall blank ws1 = true → string_forall blank ws2 = true →
  string_forall blank ws3 = true →
  string_forall (line_name_char closing) name = true →
  (opening = CString.dquote ∧ closing = CString.dquote) ∨
  (opening = "<"%char ∧ closing = ">"%char) →
  free_of CString.newline (directive_head ws1 ws2 ws3 opening name closing) = true.
Proof.
  intros H1 H2 H3 Hname Hform. unfold directive_head, include_directive.
  assert (Hn : free_of CString.newline name = true).
  { revert Hname. apply string_forall_impl. intros c. unfold line_name_char.
    by intros [_ ?]%andb_prop. }
  rewrite free_of_app, (blank_free _ H1). cbn [andb].
  change (free_of CString.newline (String "#"%char ?x))
    with (free_of CString.newline x).
  rewrite free_of_app, (blank_free _ H2). cbn [andb].
  change (free_of CString.newline ("include" +:+ ?x))
    with (free_of CString.newline x).
  rewrite free_of_app, (blank_free _ H3). cbn [andb].
  destruct Hform as [[-> ->]|[-> ->]].
  - change (free_of CString.newline (String CString.dquote ?x))
      with (free_of CString.newline x).
    rewrite free_of_app, Hn. reflexivity.
  - change (free_of CString.newline (String "<"%char ?x))
      with (free_of CString.newline x).
    rewrite free_of_app, Hn. reflexivity.
Qed.

(** [fgets] starts a new line after a newline. *)
Lemma fgets_lines_whole size b :
  ∀ room acc rest,
    fgets_lines size room acc ((b +:+ String CString.newline EmptyString) +:+ rest)
    = fgets_lines size room acc (b +:+ String CString.newline EmptyString)
      ++ fgets_lines size (size - 1) EmptyString rest.
Proof.
  induction b as [|c b IH]; intros room acc rest.
  - rewrite append_nil, append_cons, append_nil. cbn [fgets_lines].
    rewrite Ascii.eqb_refl. reflexivity.
  - rewrite !append_cons. cbn [fgets_lines].
    destruct (Ascii.eqb c CString.newline); [by rewrite IH|].
    destruct (room <=? 1)%nat; [by rewrite IH|]. apply IH.
Qed.

(** A line that has begun goes on from what was read. *)
Lemma fgets_lines_begun size rest :
  ∀ room acc, acc ≠ EmptyString →
    ∃ t chunks, fgets_lines size room acc rest = (acc +:+ t) :: chunks.
Proof.
  induction rest as [|c rest IH]; intros room acc Hacc.
  - exists EmptyString, []. rewrite append_nil_r. by destruct acc.
  - cbn [fgets_lines].
    destruct (Ascii.eqb c CString.newline); [by eexists _, _|].
    destruct (room <=? 1)%nat; [by eexists _, _|].
    destruct (IH (room - 1)%nat (acc +:+ String c EmptyString)) as (t & chunks & H).
    { by destruct acc. }
    exists (String c t), chunks. rewrite H. f_equal.
    by rewrite append_assoc, append_cons, append_nil.
Qed.

(** A text without newline that fits what is left of the buffer lies in
    one line. *)
Lemma fgets_lines_first size d :
  ∀ room acc rest,
    free_of CString.newline d = true → (String.length d ≤ room)%nat →
    acc ≠ EmptyString ∨ d ≠ EmptyString →
    ∃ t chunks,
      fgets_lines size room acc (d +:+ rest) = (acc +:+ d +:+ t) :: chunks.
Proof.
  induction d as [|c d IH]; intros room acc rest Hfree Hlen Hne.
  - destruct Hne as [Hacc|?]; [|done]. rewrite !append_nil.
    by apply fgets_lines_begun.
  - unfold free_of in Hfree. simpl in Hfree. apply andb_prop in Hfree as [Hc Hd].
    apply negb_true_iff in Hc. rewrite append_cons. cbn [fgets_lines]. rewrite Hc.
    simpl in Hlen.
    assert (Hacc : acc +:+ String c EmptyString ≠ EmptyString) by (by destruct acc).
    destruct (room <=? 1)%nat eqn:Hroom.
    + apply Nat.leb_le in Hroom. destruct d; [|simpl in Hlen; lia].
      exists EmptyString, (fgets_lines size (size - 1) EmptyString rest).
      by rewrite append_nil_r.
    + apply Nat.leb_gt in Hroom.
      destruct (IH (room - 1)%nat (acc +:+ String c EmptyString) rest Hd
                  ltac:(lia) (or_introl Hacc)) as (t & chunks & H).
      exists t, chunks. rewrite H. f_equal.
      by rewrite !append_assoc, append_cons, append_nil.
Qed.

Lemma parse_include_lines_app fs g l1 l2 file :
  parse_include_lines fs g (l1 ++ l2) file =
  match parse_include_lines fs g l1 file with
  | (DEP_SUCCESS, file') => parse_include_lines fs g l2 file'
  | failure => failure
  end.
Proof.
  revert file. induction l1 as [|l l1 IH]; intros file; [done|].
  cbn [app parse_include_lines].
  destruct (scan_include_line l) as [name|]; [|apply IH].
  destruct (resolve_include _ _ _ _ _) as [resolved|]; [|apply IH].
  destruct (source_file_add_include file resolved) as [[] file'];
    first [done | apply IH].
Qed.

(** The lines [fgets] delivers for a file that holds a directive after
    whole lines: some lines, then one that begins with the directive. *)
Lemma fgets_lines_directive before d rest :
  whole_lines before → free_of CString.newline d = true →
  d ≠ EmptyString → (String.length d ≤ 1023)%nat →
  ∃ l1 t chunks,
    fgets_lines 1024 1023 EmptyString (before +:+ d +:+ rest)
    = l1 ++ (d +:+ t) :: chunks.
Proof.
  intros [->|[b ->]] Hfree Hne Hlen.
  - destruct (fgets_lines_first 1024 d 1023 EmptyString rest Hfree Hlen (or_intror Hne))
      as (t & chunks & H).
    exists [], t, chunks. by rewrite append_nil, H.
  - destruct (fgets_lines_first 1024 d 1023 EmptyString rest Hfree Hlen (or_intror Hne))
      as (t & chunks & H).
    exists (fgets_lines 1024 1023 EmptyString (b +:+ String CString.newline EmptyString)),
      t, chunks.
    rewrite fgets_lines_whole. change (1024 - 1)%nat with 1023%nat. by rewrite H.
Qed.

(** X9. [parse_includes] reads a directive. When the file holds, after
    whole lines, a line made of optional blanks, [#], optional blanks,
    [include], optional blanks and a name between double quotes or between
    angle brackets, the line fitting the 1024-byte buffer of [fgets] up to
    its closing delimiter, and [resolve_include] resolves the name, then a
    successful [parse_includes] has recorded the resolved path, whatever
    follows the closing delimiter. The name must contain neither the
    closing delimiter nor NUL nor a newline. *)
Theorem parse_includes_reads_directive fs g file before ws1 ws2 ws3 opening closing
    name rest resolved :
  fopen_read fs (path file)
  = Some (before +:+ include_directive ws1 ws2 ws3 opening name closing rest) →
  whole_lines before →
  (opening = CString.dquote ∧ closing = CString.dquote) ∨
  (opening = "<"%char ∧ closing = ">"%char) →
  string_forall blank ws1 = true →
  string_forall blank ws2 = true →
  string_forall blank ws3 = true →
  string_forall (line_name_char closing) name = true →
  (String.length (directive_head ws1 ws2 ws3 opening name closing) ≤ 1023)%nat →
  resolve_include fs g name (path file) MAX_PATH_LENGTH = Some resolved →
  (parse_includes fs g file).1 = DEP_SUCCESS →
  resolved ∈ includes (parse_includes fs g file).2.
Proof.
  intros Hopen Hwhole Hform H1 H2 H3 Hname Hlen Hres.
  unfold parse_includes. rewrite Hopen, include_directive_head.
  set (d := directive_head ws1 ws2 ws3 opening name closing) in *.
  assert (Hfree : free_of CString.newline d = true)
    by (by apply directive_head_free).
  assert (Hd : d ≠ EmptyString).
  { unfold d, directive_head, include_directive. destruct ws1; discriminate. }
  assert (Hnlen : (String.length name < MAX_PATH_LENGTH)%nat).
  { revert Hlen. unfold d, directive_head, include_directive.
    rewrite !append_length. simpl. rewrite !append_length. simpl.
    rewrite append_length. unfold MAX_PATH_LENGTH. lia. }
  destruct (fgets_lines_directive before d rest Hwhole Hfree Hd Hlen)
    as (l1 & t & chunks & ->).
  assert (Hscan : scan_include_line (d +:+ t) = Some name).
  { unfold d. rewrite <- include_directive_head.
    apply scan_include_line_round_trip; try done; try (by apply blank_isspace).
    revert Hname. apply string_forall_impl. intros c. unfold line_name_char.
    by intros [? _]%andb_prop. }
  rewrite parse_include_lines_app.
  pose proof (parse_include_lines_sound fs g l1 file) as Hs1. cbn zeta in Hs1.
  destruct (parse_include_lines fs g l1 file) as [code1 file1].
  cbn [fst snd] in Hs1. destruct Hs1 as (Hp1 & _).
  destruct code1; try (cbn [fst]; discriminate).
  cbn [parse_include_lines]. rewrite Hscan, Hp1, Hres.
  unfold source_file_add_include.
  destruct (MAX_INCLUDES_PER_FILE <=? length (includes file1))%nat;
    [cbn [fst]; discriminate|].
  set (file2 := mkSourceFile _ _ _ _ _ _).
  pose proof (parse_include_lines_sound fs g chunks file2) as Hs2. cbn zeta in Hs2.
  destruct Hs2 as (_ & _ & (l & -> & _) & _).
  intros _. apply elem_of_app. left. unfold file2. cbn [includes].
  apply elem_of_app. right. apply list_elem_of_singleton. reflexivity.
Qed.

Lemma parse_includes_reads_directive_witness :
  "inc/util.h"
  ∈ includes (parse_includes quote_fs quote_graph (source_file_create "src/main.c")).2.
Proof.
  apply (parse_includes_reads_directive quote_fs quote_graph
           (source_file_create "src/main.c") EmptyString
           EmptyString EmptyString " " CString.dquote CString.dquote "util.h"
           (String CString.newline (line "int main(void){return 0;}"))).
  - vm_compute. reflexivity.
  - by left.
  - left. split; reflexivity.
  - reflexivity.
  - reflexivity.
  - reflexivity.
  - reflexivity.
  - vm_compute. lia.
  - vm_compute. reflexivity.
  - vm_compute. reflexivity.
Defined.

(** X10. What [parse_includes] records. The includes it appends to a file
    are all paths of existing regular files that fit [MAX_PATH_LENGTH];
    path and header flag of the file are untouched; the include list never
    grows beyond [MAX_INCLUDES_PER_FILE] (unless it was longer already);
    and the only error codes are [DEP_ERROR_FILE_NOT_FOUND], when the file
    cannot be opened, and [DEP_ERROR_TOO_MANY_INCLUDES], when the list is
    full. Directives that do not resolve are dropped without an error. *)
Theorem parse_includes_sound fs g file :
  let r := parse_includes fs g file in
  path r.2 = path file ∧ is_header r.2 = is_header file ∧
  (∃ l, includes r.2 = includes file ++ l ∧ Forall (recorded_include fs) l) ∧
  (length (includes r.2) ≤ length (includes file) `max` MAX_INCLUDES_PER_FILE)%nat ∧
  (r.1 = DEP_SUCCESS ∨
   r.1 = DEP_ERROR_FILE_NOT_FOUND ∧ fopen_read fs (path file) = None ∨
   r.1 = DEP_ERROR_TOO_MANY_INCLUDES ∧
   (MAX_INCLUDES_PER_FILE ≤ length (includes r.2))%nat).
Proof. exact (parse_includes_spec fs g file). Qed.

End ScannerExtras.

(** ** Registering files *)

Section AddFileExtras.

Lemma find_file_from_None l pos p :
  find_file_from pos l p = None ↔ p ∉ path <$> l.
Proof.
  revert pos. induction l as [|f l IH]; intros pos; simpl.
  - split; [|done]. intros _. apply not_elem_of_nil.
  - rewrite not_elem_of_cons. destruct (String.eqb (path f) p) eqn:E.
    + apply String.eqb_eq in E. split; [discriminate|]. intros [H _]. by destruct H.
    + apply String.eqb_neq in E. rewrite IH. split; [by intros ?; split|tauto].
Qed.

Lemma find_file_is_Some g p :
  p ∈ path <$> files g → is_Some (dependency_graph_find_file g p).
Proof.
  intros Hin. unfold dependency_graph_find_file.
  destruct (find_file_from 0 (files g) p) eqn:E; [by eexists|].
  by apply find_file_from_None in E.
Qed.

Lemma dependency_graph_add_file_unfold fuel fs g p :
  dependency_graph_add_file (S fuel) fs g p =
  if negb (file_exists fs p) then Some (DEP_ERROR_FILE_NOT_FOUND, g)
  else if negb (is_source_file p) then Some (DEP_ERROR_INVALID_PATH, g)
  else if dependency_graph_find_file g p is Some _ then Some (DEP_SUCCESS, g)
  else if (MAX_SOURCE_FILES <=? file_count g)%nat then Some (DEP_ERROR_TOO_MANY_FILES, g)
  else
    match parse_includes fs g (source_file_create p) with
    | (DEP_SUCCESS, file) =>
        add_includes_with (dependency_graph_add_file fuel fs) (includes file)
          (mkDependencyGraph (files g ++ [file]) (include_paths g))
    | (err, _) => Some (err, g)
    end.
Proof. reflexivity. Qed.

Lemma add_includes_with_cons add inc rest g :
  add_includes_with add (inc :: rest) g =
  match add g inc with
  | Some (_, g') => add_includes_with add rest g'
  | None => None
  end.
Proof. reflexivity. Qed.

Lemma add_includes_with_rel (R : DependencyGraph → DependencyGraph → Prop) add :
  (∀ g, R g g) → (∀ a b c, R a b → R b c → R a c) →
  (∀ g inc r g', add g inc = Some (r, g') → R g g') →
  ∀ incs g r g', add_includes_with add incs g = Some (r, g') →
                 R g g' ∧ r = DEP_SUCCESS.
Proof.
  intros Hrefl Htrans Hadd. induction incs as [|inc incs IH]; intros g r g'.
  - intros [= <- <-]. by split.
  - rewrite add_includes_with_cons. destruct (add g inc) as [[r1 g1]|] eqn:E; [|discriminate].
    intros H. destruct (IH _ _ _ H) as [HR ->]. split; [|done].
    eapply Htrans; [by eapply Hadd|done].
Qed.

(** The pattern of every statement about the registry: a relation that is
    reflexive, transitive and holds across the registration of one parsed
    file holds across [dependency_graph_add_file]; and a call that does
    not report success leaves the registry as it was. *)
Lemma dependency_graph_add_file_rel fs (R : DependencyGraph → DependencyGraph → Prop) :
  (∀ g, R g g) → (∀ a b c, R a b → R b c → R a c) →
  (∀ g p file,
     file_exists fs p = true → is_source_file p = true →
     dependency_graph_find_file g p = None →
     (file_count g < MAX_SOURCE_FILES)%nat →
     parse_includes fs g (source_file_create p) = (DEP_SUCCESS, file) →
     R g (mkDependencyGraph (files g ++ [file]) (include_paths g))) →
  ∀ fuel g p r g',
    dependency_graph_add_file fuel fs g p = Some (r, g') →
    R g g' ∧ (r ≠ DEP_SUCCESS → g' = g).
Proof.
  intros Hrefl Htrans Hstep.
  induction fuel as [|fuel IH]; intros g p r g'; [discriminate|].
  rewrite dependency_graph_add_file_unfold.
  destruct (file_exists fs p) eqn:Hex; cbn [negb];
    [|intros [= <- <-]; by split].
  destruct (is_source_file p) eqn:Hsrc; cbn [negb];
    [|intros [= <- <-]; by split].
  destruct (dependency_graph_find_file g p) as [i|] eqn:Hfind;
    [intros [= <- <-]; by split|].
  destruct (MAX_SOURCE_FILES <=? file_count g)%nat eqn:Hfull;
    [intros [= <- <-]; by split|].
  apply Nat.leb_gt in Hfull.
  destruct (parse_includes fs g (source_file_create p)) as [err file] eqn:Hparse.
  destruct err; try (intros [= <- <-]; by split).
  intros Hloop.
  destruct (add_includes_with_rel R (dependency_graph_add_file fuel fs) Hrefl Htrans
              (λ g inc r g' H, proj1 (IH g inc r g' H)) _ _ _ _ Hloop) as [HR ->].
  split; [|done]. eapply Htrans; [|exact HR]. by apply (Hstep g p file).
Qed.

Lemma registered_from_parse fs g p file :
  file_exists fs p = true → is_source_file p = true →
  parse_includes fs g (source_file_create p) = (DEP_SUCCESS, file) →
  registered_from fs file.
Proof.
  intros Hex Hsrc Hparse.
  pose proof (parse_includes_spec fs g (source_file_create p)) as Hs.
  cbn zeta in Hs. rewrite Hparse in Hs. cbn [fst snd] in Hs.
  destruct Hs as (Hp & Hh & (l & Hl & Hrec) & Hbound & _).
  assert (Hmarks : visited file = false ∧ in_stack file = false ∧ sort_order file = -1).
  { revert Hparse. unfold parse_includes.
    destruct (fopen_read fs _); [|discriminate].
    generalize (fgets_lines 1024 1023 EmptyString s).
    assert (Hgen : ∀ lines f0 e f1,
              parse_include_lines fs g lines f0 = (e, f1) →
              visited f1 = visited f0 ∧ in_stack f1 = in_stack f0 ∧
              sort_order f1 = sort_order f0).
    { induction lines as [|l0 lines IH]; intros f0 e f1; simpl.
      - by intros [= _ <-].
      - destruct (scan_include_line l0); [|apply IH].
        destruct (resolve_include _ _ _ _ _); [|apply IH].
        unfold source_file_add_include.
        destruct (_ <=? _)%nat; [by intros [= _ <-]|].
        intros H. by destruct (IH _ _ _ H) as (-> & -> & ->). }
    intros lines H. by destruct (Hgen _ _ _ _ H) as (-> & -> & ->). }
  exists p. rewrite Hp, Hh. cbn [source_file_create path is_header].
  repeat split; try done; try tauto.
  - revert Hparse. unfold parse_includes.
    cbn [source_file_create path].
    destruct (fopen_read fs _); [by eexists|discriminate].
  - by rewrite Hl.
Qed.

Lemma add_file_appends fuel fs g p r g' :
  dependency_graph_add_file fuel fs g p = Some (r, g') →
  ∃ new,
    files g' = files g ++ new ∧ include_paths g' = include_paths g ∧
    (r ≠ DEP_SUCCESS → new = []) ∧
    Forall (registered_from fs) new ∧
    ((file_count g ≤ MAX_SOURCE_FILES)%nat → (file_count g' ≤ MAX_SOURCE_FILES)%nat).
Proof.
  intros H.
  destruct (dependency_graph_add_file_rel fs
    (λ a b, ∃ new, files b = files a ++ new ∧ include_paths b = include_paths a ∧
                   Forall (registered_from fs) new ∧
                   ((file_count a ≤ MAX_SOURCE_FILES)%nat →
                    (file_count b ≤ MAX_SOURCE_FILES)%nat))) with (4 := H)
    as [(new & Hf & Hi & Hreg & Hb) Herr].
  - intros a. exists []. by rewrite app_nil_r.
  - intros a b c (n1 & Hf1 & Hi1 & Hr1 & Hb1) (n2 & Hf2 & Hi2 & Hr2 & Hb2).
    exists (n1 ++ n2). rewrite Hf2, Hf1, <- app_assoc, Hi2, Hi1.
    repeat split; [by apply Forall_app|auto].
  - intros a q file Hex Hsrc _ Hroom Hparse. exists [file]. cbn [files include_paths].
    repeat split.
    + constructor; [by eapply registered_from_parse|constructor].
    + intros _. unfold file_count in *. cbn [files]. rewrite length_app. simpl. lia.
  - exists new. repeat split; try done.
    intros Hne. specialize (Herr Hne). subst g'.
    apply (f_equal length) in Hf. rewrite length_app in Hf.
    destruct new; [done|]. simpl in Hf. lia.
Qed.

(** X11. The registry only grows at its end. A call of
    [dependency_graph_add_file] leaves the files already registered and
    the include roots as they are (so every index into the registry stays
    valid), appends nothing unless it reports success, appends only
    entries made from existing, readable source files whose recorded
    includes all exist, and never makes the registry larger than
    [MAX_SOURCE_FILES]. *)
Theorem dependency_graph_add_file_appends fuel fs g p r g' :
  dependency_graph_add_file fuel fs g p = Some (r, g') →
  ∃ new,
    files g' = files g ++ new ∧ include_paths g' = include_paths g ∧
    (r ≠ DEP_SUCCESS → new = []) ∧
    Forall (registered_from fs) new ∧
    ((file_count g ≤ MAX_SOURCE_FILES)%nat → (file_count g' ≤ MAX_SOURCE_FILES)%nat).
Proof. apply add_file_appends. Qed.

Lemma dependency_graph_add_file_appends_witness :
  ∃ new,
    files header_includes_source_graph = [] ++ new ∧
    include_paths header_includes_source_graph = [] ∧
    (DEP_SUCCESS ≠ DEP_SUCCESS → new = []) ∧
    Forall (registered_from header_includes_source_fs) new ∧
    ((0 ≤ MAX_SOURCE_FILES)%nat →
     (file_count header_includes_source_graph ≤ MAX_SOURCE_FILES)%nat).
Proof.
  apply (dependency_graph_add_file_appends (S MAX_SOURCE_FILES)
           header_includes_source_fs (mkDependencyGraph [] []) "h.h").
  vm_compute. reflexivity.
Defined.

Lemma add_file_count_mono fuel fs g p r g' :
  dependency_graph_add_file fuel fs g p = Some (r, g') →
  (file_count g ≤ file_count g')%nat.
Proof.
  intros H.
  destruct (dependency_graph_add_file_rel fs (λ a b, (file_count a ≤ file_count b)%nat))
    with (4 := H) as [Hm _]; try done.
  - intros a b c. lia.
  - intros a q file _ _ _ _ _. unfold file_count. cbn [files].
    rewrite length_app. simpl. lia.
Qed.

Lemma add_includes_with_total fuel fs incs :
  (∀ g p, (MAX_SOURCE_FILES ≤ fuel + file_count g)%nat →
          is_Some (dependency_graph_add_file (S fuel) fs g p)) →
  ∀ g, (MAX_SOURCE_FILES ≤ fuel + file_count g)%nat →
       is_Some (add_includes_with (dependency_graph_add_file (S fuel) fs) incs g).
Proof.
  intros Hadd. induction incs as [|inc incs IH]; intros g Hg; [by eexists|].
  rewrite add_includes_with_cons.
  destruct (Hadd g inc Hg) as [[r1 g1] E]. rewrite E. apply IH.
  pose proof (add_file_count_mono _ _ _ _ _ _ E). lia.
Qed.

Lemma dependency_graph_add_file_is_Some fs fuel :
  ∀ g p, (MAX_SOURCE_FILES ≤ fuel + file_count g)%nat →
         is_Some (dependency_graph_add_file (S fuel) fs g p).
Proof.
  induction fuel as [|fuel IH]; intros g p Hfuel;
    rewrite dependency_graph_add_file_unfold;
    (destruct (negb (file_exists fs p)); [by eexists|]);
    (destruct (negb (is_source_file p)); [by eexists|]);
    (destruct (dependency_graph_find_file g p); [by eexists|]);
    (destruct (MAX_SOURCE_FILES <=? file_count g)%nat eqn:Hfull; [by eexists|]);
    apply Nat.leb_gt in Hfull; [lia|].
  destruct (parse_includes fs g (source_file_create p)) as [err file].
  destruct err; try by eexists.
  apply add_includes_with_total; [exact IH|].
  unfold file_count in *. cbn [files]. rewrite length_app. simpl. lia.
Qed.

Lemma add_includes_with_mono add1 add2 incs :
  (∀ g inc y, add1 g inc = Some y → add2 g inc = Some y) →
  ∀ g y, add_includes_with add1 incs g = Some y →
         add_includes_with add2 incs g = Some y.
Proof.
  intros Hadd. induction incs as [|inc incs IH]; intros g y; [done|].
  rewrite !add_includes_with_cons.
  destruct (add1 g inc) as [[r1 g1]|] eqn:E; [|discriminate].
  rewrite (Hadd _ _ _ E). apply IH.
Qed.

Lemma dependency_graph_add_file_fuel_mono fs fuel :
  ∀ fuel' g p y, (fuel ≤ fuel')%nat →
    dependency_graph_add_file fuel fs g p = Some y →
    dependency_graph_add_file fuel' fs g p = Some y.
Proof.
  induction fuel as [|fuel IH]; intros fuel' g p y Hle; [discriminate|].
  destruct fuel' as [|fuel']; [lia|].
  rewrite !dependency_graph_add_file_unfold.
  destruct (negb (file_exists fs p)); [done|].
  destruct (negb (is_source_file p)); [done|].
  destruct (dependency_graph_find_file g p); [done|].
  destruct (MAX_SOURCE_FILES <=? file_count g)%nat; [done|].
  destruct (parse_includes fs g (source_file_create p)) as [err file].
  destruct err; try done.
  apply add_includes_with_mono. intros g1 inc y1. apply IH. lia.
Qed.

(** X12. Registering a file terminates, include cycles or not. Each file
    is entered into the registry before its includes are followed, so the
    recursion is no deeper than the room left in the registry: a budget of
    that many calls plus one yields a result, and the result is the same
    for every budget at least as large. *)
Theorem dependency_graph_add_file_total fs g p fuel :
  (MAX_SOURCE_FILES ≤ fuel + file_count g)%nat →
  ∃ r g',
    dependency_graph_add_file (S fuel) fs g p = Some (r, g') ∧
    dependency_graph_add_file (S MAX_SOURCE_FILES) fs g p = Some (r, g').
Proof.
  intros Hfuel.
  destruct (dependency_graph_add_file_is_Some fs fuel g p Hfuel) as [[r g'] E].
  exists r, g'. split; [done|].
  assert (Hmax : (MAX_SOURCE_FILES ≤ MAX_SOURCE_FILES + file_count g)%nat) by lia.
  destruct (dependency_graph_add_file_is_Some fs MAX_SOURCE_FILES g p Hmax) as [y E'].
  destruct (Nat.le_ge_cases fuel MAX_SOURCE_FILES) as [Hle|Hge].
  - eapply (dependency_graph_add_file_fuel_mono fs (S fuel)); [lia|done].
  - rewrite E'. f_equal.
    pose proof (dependency_graph_add_file_fuel_mono fs (S MAX_SOURCE_FILES)
                  (S fuel) g p y ltac:(lia) E') as E''.
    congruence.
Qed.

Lemma dependency_graph_add_file_total_witness :
  ∃ r g',
    dependency_graph_add_file (S MAX_SOURCE_FILES) header_includes_source_fs
      (mkDependencyGraph [] []) "h.h" = Some (r, g') ∧
    dependency_graph_add_file (S MAX_SOURCE_FILES) header_includes_source_fs
      (mkDependencyGraph [] []) "h.h" = Some (r, g').
Proof.
  apply (dependency_graph_add_file_total header_includes_source_fs
           (mkDependencyGraph [] []) "h.h" MAX_SOURCE_FILES).
  apply Nat.le_add_r.
Defined.

Lemma extends_refl g : extends g g.
Proof. split; [|done]. exists []. by rewrite app_nil_r. Qed.

Lemma extends_trans a b c : extends a b → extends b c → extends a c.
Proof.
  intros [[n1 H1] Hi1] [[n2 H2] Hi2]. split; [|congruence].
  exists (n1 ++ n2). by rewrite H2, H1, <- app_assoc.
Qed.

Lemma dependency_graph_add_file_extends fuel fs g p r g' :
  dependency_graph_add_file fuel fs g p = Some (r, g') → extends g g'.
Proof.
  intros H.
  destruct (dependency_graph_add_file_rel fs extends) with (4 := H) as [Hm _];
    [apply extends_refl|apply extends_trans| |done].
  intros a q file _ _ _ _ _. split; [|done]. by exists [file].
Qed.

Lemma extends_find a b p :
  extends a b → is_Some (dependency_graph_find_file a p) →
  is_Some (dependency_graph_find_file b p).
Proof.
  intros [[new Hf] _] [i Hi]. apply find_file_is_Some.
  destruct (find_file_Some _ _ _ Hi) as [Hlt Hp].
  rewrite Hf, fmap_app. apply elem_of_app. left.
  destruct (lookup_lt_is_Some_2 _ _ Hlt) as [f Hf'].
  rewrite (file_at_lookup _ _ _ Hf') in Hp. subst p.
  apply list_elem_of_fmap. exists f. split; [done|]. by eapply list_elem_of_lookup_2.
Qed.

Lemma extends_count a b : extends a b → (file_count a ≤ file_count b)%nat.
Proof.
  intros [[new Hf] _]. unfold file_count. rewrite Hf, length_app. lia.
Qed.

Lemma resolve_include_roots fs a b name ref size :
  include_paths b = include_paths a →
  resolve_include fs b name ref size = resolve_include fs a name ref size.
Proof. intros H. unfold resolve_include. by rewrite H. Qed.

Lemma parse_includes_roots fs a b file :
  include_paths b = include_paths a →
  parse_includes fs b file = parse_includes fs a file.
Proof.
  intros H. unfold parse_includes. destruct (fopen_read fs (path file)); [|done].
  generalize (fgets_lines 1024 1023 EmptyString s). intros lines. revert file.
  induction lines as [|l lines IH]; intros file; simpl; [done|].
  destruct (scan_include_line l); [|apply IH].
  rewrite (resolve_include_roots fs a b) by done.
  destruct (resolve_include fs a _ _ _) as [resolved|]; [|apply IH].
  destruct (source_file_add_include file resolved) as [[] f']; done.
Qed.

Lemma include_handled_extends fs a b inc :
  extends a b → include_handled fs a inc → include_handled fs b inc.
Proof.
  intros Hext [H|[H|[H|H]]].
  - left. by eapply extends_find.
  - right. by left.
  - right. right. left. pose proof (extends_count _ _ Hext). lia.
  - right. right. right. rewrite (parse_includes_roots fs a b); [done|apply Hext].
Qed.

(** The outcome of one call, case by case. *)
Lemma dependency_graph_add_file_cases fuel fs g p r g' :
  dependency_graph_add_file fuel fs g p = Some (r, g') →
  (file_exists fs p = false ∧ r = DEP_ERROR_FILE_NOT_FOUND ∧ g' = g) ∨
  (file_exists fs p = true ∧ is_source_file p = false ∧
   r = DEP_ERROR_INVALID_PATH ∧ g' = g) ∨
  (file_exists fs p = true ∧ is_source_file p = true ∧
   is_Some (dependency_graph_find_file g p) ∧ r = DEP_SUCCESS ∧ g' = g) ∨
  (file_exists fs p = true ∧ is_source_file p = true ∧
   dependency_graph_find_file g p = None ∧
   (MAX_SOURCE_FILES ≤ file_count g)%nat ∧ r = DEP_ERROR_TOO_MANY_FILES ∧ g' = g) ∨
  (file_exists fs p = true ∧ is_source_file p = true ∧
   dependency_graph_find_file g p = None ∧
   (file_count g < MAX_SOURCE_FILES)%nat ∧
   (parse_includes fs g (source_file_create p)).1 = r ∧ r ≠ DEP_SUCCESS ∧ g' = g) ∨
  (file_exists fs p = true ∧ is_source_file p = true ∧
   dependency_graph_find_file g p = None ∧
   (file_count g < MAX_SOURCE_FILES)%nat ∧ r = DEP_SUCCESS ∧
   ∃ file fuel',
     fuel = S fuel' ∧
     parse_includes fs g (source_file_create p) = (DEP_SUCCESS, file) ∧
     add_includes_with (dependency_graph_add_file fuel' fs) (includes file)
       (mkDependencyGraph (files g ++ [file]) (include_paths g))
     = Some (DEP_SUCCESS, g')).
Proof.
  destruct fuel as [|fuel]; [discriminate|].
  rewrite dependency_graph_add_file_unfold.
  destruct (file_exists fs p) eqn:Hex; cbn [negb];
    [|intros [= <- <-]; by left].
  destruct (is_source_file p) eqn:Hsrc; cbn [negb];
    [|intros [= <- <-]; right; by left].
  destruct (dependency_graph_find_file g p) as [i|] eqn:Hfind.
  { intros [= <- <-]. right. right. left. by repeat split. }
  destruct (MAX_SOURCE_FILES <=? file_count g)%nat eqn:Hfull.
  { apply Nat.leb_le in Hfull. intros [= <- <-]. right. right. right. by left. }
  apply Nat.leb_gt in Hfull.
  destruct (parse_includes fs g (source_file_create p)) as [err file] eqn:Hparse.
  destruct err;
    try (intros [= <- <-]; right; right; right; right; left; by repeat split).
  intros Hloop. right. right. right. right. right.
  destruct (add_includes_with_rel (λ _ _, True) (dependency_graph_add_file fuel fs))
    with (4 := Hloop) as [_ ->]; try done.
  repeat split; try done. by exists file, fuel.
Qed.

Lemma dependency_graph_add_file_result fuel fs g p r g' :
  dependency_graph_add_file fuel fs g p = Some (r, g') →
  match r with
  | DEP_SUCCESS =>
      file_exists fs p = true ∧ is_source_file p = true ∧
      (is_Some (dependency_graph_find_file g' p) ∨
       is_Some (dependency_graph_find_file g' (normalize_path p MAX_PATH_LENGTH)))
  | DEP_ERROR_FILE_NOT_FOUND =>
      file_exists fs p = false ∨
      fopen_read fs (normalize_path p MAX_PATH_LENGTH) = None
  | DEP_ERROR_INVALID_PATH => is_source_file p = false
  | DEP_ERROR_TOO_MANY_FILES => (MAX_SOURCE_FILES ≤ file_count g)%nat
  | DEP_ERROR_TOO_MANY_INCLUDES =>
      (parse_includes fs g (source_file_create p)).1 = DEP_ERROR_TOO_MANY_INCLUDES
  | _ => False
  end.
Proof.
  intros H.
  destruct (dependency_graph_add_file_cases _ _ _ _ _ _ H)
    as [(Hex & -> & ->)|[(Hex & Hsrc & -> & ->)|[(Hex & Hsrc & Hfind & -> & ->)
       |[(Hex & Hsrc & Hfind & Hfull & -> & ->)
       |[(Hex & Hsrc & Hfind & Hroom & Hparse & Hne & ->)
       |(Hex & Hsrc & Hfind & Hroom & -> & file & fuel' & -> & Hparse & Hloop)]]]]].
  - by left.
  - done.
  - repeat split; try done. by left.
  - done.
  - pose proof (parse_includes_spec fs g (source_file_create p)) as Hs.
    cbn zeta in Hs. subst r.
    destruct Hs as (_ & _ & _ & _ & [Hs|[[Hs Hopen]|[Hs _]]]);
      rewrite Hs in Hne |- *; cbv beta match; [done| |done].
    right. exact Hopen.
  - repeat split; try done. right.
    destruct (add_includes_with_rel extends (dependency_graph_add_file fuel' fs))
      with (4 := Hloop) as [Hext _];
      eauto using extends_refl, extends_trans, dependency_graph_add_file_extends.
    eapply extends_find; [exact Hext|]. apply find_file_is_Some. cbn [files].
    rewrite fmap_app. apply elem_of_app. right. simpl.
    pose proof (parse_includes_spec fs g (source_file_create p)) as Hs.
    cbn zeta in Hs. rewrite Hparse in Hs. cbn [snd] in Hs.
    destruct Hs as (-> & _). apply list_elem_of_singleton. reflexivity.
Qed.

(** X13. What the return code of [dependency_graph_add_file] says. Success
    means that the file exists, is a source file by its name and is now
    registered, under the path given or under its normalised form; every
    error code names the check that failed. Failures of the recursive
    calls for the includes are not reported. *)
Theorem dependency_graph_add_file_outcome fuel fs g p r g' :
  dependency_graph_add_file fuel fs g p = Some (r, g') →
  match r with
  | DEP_SUCCESS =>
      file_exists fs p = true ∧ is_source_file p = true ∧
      (is_Some (dependency_graph_find_file g' p) ∨
       is_Some (dependency_graph_find_file g' (normalize_path p MAX_PATH_LENGTH)))
  | DEP_ERROR_FILE_NOT_FOUND =>
      file_exists fs p = false ∨
      fopen_read fs (normalize_path p MAX_PATH_LENGTH) = None
  | DEP_ERROR_INVALID_PATH => is_source_file p = false
  | DEP_ERROR_TOO_MANY_FILES => (MAX_SOURCE_FILES ≤ file_count g)%nat
  | DEP_ERROR_TOO_MANY_INCLUDES =>
      (parse_includes fs g (source_file_create p)).1 = DEP_ERROR_TOO_MANY_INCLUDES
  | _ => False
  end.
Proof. apply dependency_graph_add_file_result. Qed.

Lemma dependency_graph_add_file_outcome_witness :
  file_exists header_includes_source_fs "h.h" = true ∧
  is_source_file "h.h" = true ∧
  (is_Some (dependency_graph_find_file header_includes_source_graph "h.h") ∨
   is_Some (dependency_graph_find_file header_includes_source_graph
              (normalize_path "h.h" MAX_PATH_LENGTH))).
Proof.
  apply (dependency_graph_add_file_outcome (S MAX_SOURCE_FILES)
           header_includes_source_fs (mkDependencyGraph [] []) "h.h" DEP_SUCCESS).
  vm_compute. reflexivity.
Defined.

End AddFileExtras.

Section AddFileClosure.

Variable fs : FileSystem.
Hypothesis Hplain : plain_paths fs.

Lemma parse_includes_path g p file :
  parse_includes fs g (source_file_create p) = (DEP_SUCCESS, file) →
  path file = normalize_path p MAX_PATH_LENGTH ∧
  Forall (recorded_include fs) (includes file).
Proof.
  intros Hparse.
  pose proof (parse_includes_spec fs g (source_file_create p)) as Hs.
  cbn zeta in Hs. rewrite Hparse in Hs. cbn [fst snd] in Hs.
  destruct Hs as (Hp & _ & (l & Hl & Hrec) & _). split; [done|]. by rewrite Hl.
Qed.

Lemma add_file_NoDup fuel g p r g' :
  NoDup (path <$> files g) →
  dependency_graph_add_file fuel fs g p = Some (r, g') →
  NoDup (path <$> files g').
Proof.
  intros Hnd H.
  destruct (dependency_graph_add_file_rel fs
              (λ a b, NoDup (path <$> files a) → NoDup (path <$> files b)))
    with (4 := H) as [Hm _]; [done|auto| |by apply Hm].
  intros a q file Hex Hsrc Hfind _ Hparse Ha. cbn [files].
  rewrite fmap_app. apply NoDup_app. split; [done|]. split.
  - intros x Hx Hx'. apply list_elem_of_singleton in Hx'. subst x.
    destruct (parse_includes_path _ _ _ Hparse) as [Hp _].
    rewrite Hp, (Hplain _ Hex) in Hx.
    by apply (find_file_from_None (files a) 0 q) in Hfind.
  - apply NoDup_singleton.
Qed.

Lemma includes_closed_but_extend g file pend :
  includes_closed_but fs g pend →
  includes_closed_but fs (mkDependencyGraph (files g ++ [file]) (include_paths g))
    (includes file ++ pend).
Proof.
  intros Hc f inc Hf Hinc. cbn [files] in Hf. apply elem_of_app in Hf as [Hf|Hf].
  - destruct (Hc f inc Hf Hinc) as [Hh|Hp].
    + left. eapply include_handled_extends; [|exact Hh]. split; [|done]. by exists [file].
    + right. apply elem_of_app. by right.
  - apply list_elem_of_singleton in Hf. subst f. right. apply elem_of_app. by left.
Qed.

Lemma includes_closed_but_extends a b pend :
  extends a b →
  (∀ f, f ∈ files b → f ∈ files a ∨ ∀ inc, inc ∈ includes f →
                                    include_handled fs b inc ∨ inc ∈ pend) →
  includes_closed_but fs a pend → includes_closed_but fs b pend.
Proof.
  intros Hext Hnew Hc f inc Hf Hinc. destruct (Hnew f Hf) as [Ha|Hb]; [|by apply Hb].
  destruct (Hc f inc Ha Hinc) as [Hh|Hp]; [|by right].
  left. by eapply include_handled_extends.
Qed.

Lemma add_includes_with_closed add :
  (∀ g inc r g' pend,
     add g inc = Some (r, g') → file_exists fs inc = true →
     includes_closed_but fs g pend →
     includes_closed_but fs g' pend ∧ include_handled fs g' inc) →
  ∀ incs g r g' pend,
    Forall (λ inc, file_exists fs inc = true) incs →
    add_includes_with add incs g = Some (r, g') →
    includes_closed_but fs g (incs ++ pend) →
    includes_closed_but fs g' pend.
Proof.
  intros Hadd. induction incs as [|inc incs IH]; intros g r g' pend Hex.
  - by intros [= _ <-].
  - rewrite add_includes_with_cons.
    destruct (add g inc) as [[r1 g1]|] eqn:E; [|discriminate].
    apply Forall_cons in Hex as [Hinc Hex]. intros Hloop Hc.
    destruct (Hadd _ _ _ _ _ E Hinc Hc) as [Hc1 Hh1].
    apply (IH _ _ _ _ Hex Hloop). intros f i Hf Hi.
    destruct (Hc1 f i Hf Hi) as [Hh|Hp]; [by left|].
    apply elem_of_cons in Hp as [->|Hp]; [by left|by right].
Qed.

Lemma add_file_closed_but fuel :
  ∀ g p r g' pend,
    dependency_graph_add_file fuel fs g p = Some (r, g') →
    includes_closed_but fs g pend →
    includes_closed_but fs g' pend ∧
    (file_exists fs p = true → include_handled fs g' p).
Proof.
  induction fuel as [|fuel IH]; intros g p r g' pend H Hc; [discriminate|].
  destruct (dependency_graph_add_file_cases _ _ _ _ _ _ H)
    as [(Hex & -> & ->)|[(Hex & Hsrc & -> & ->)|[(Hex & Hsrc & Hfind & -> & ->)
       |[(Hex & Hsrc & Hfind & Hfull & -> & ->)
       |[(Hex & Hsrc & Hfind & Hroom & Hparse & Hne & ->)
       |(Hex & Hsrc & Hfind & Hroom & -> & file & fuel' & [= <-] & Hparse & Hloop)]]]]].
  - split; [done|]. intros Hex'. congruence.
  - split; [done|]. intros _. right. by left.
  - split; [done|]. intros _. by left.
  - split; [done|]. intros _. right. right. by left.
  - split; [done|]. intros _. right. right. right. by rewrite Hparse.
  - destruct (parse_includes_path _ _ _ Hparse) as [Hp Hrec].
    assert (Hext : extends (mkDependencyGraph (files g ++ [file]) (include_paths g)) g').
    { destruct (add_includes_with_rel extends (dependency_graph_add_file fuel fs))
        with (4 := Hloop) as [Hext _];
        [apply extends_refl|apply extends_trans| |done].
      intros ????. apply dependency_graph_add_file_extends. }
    split.
    + eapply (add_includes_with_closed (dependency_graph_add_file fuel fs));
        [|exact (Forall_impl _ _ _ Hrec (λ inc Hi, proj1 Hi))|exact Hloop
         |by apply includes_closed_but_extend].
      intros g1 inc r1 g1' pend1 E Hinc Hc1.
      destruct (IH _ _ _ _ _ E Hc1) as [Hc1' Hh]. split; [done|by apply Hh].
    + intros _. left. eapply extends_find; [exact Hext|].
      apply find_file_is_Some. cbn [files]. rewrite fmap_app. apply elem_of_app.
      right. rewrite <- (Hplain _ Hex), <- Hp. apply list_elem_of_singleton. reflexivity.
Qed.

End AddFileClosure.

Lemma plain_paths_header_includes_source : plain_paths header_includes_source_fs.
Proof.
  intros p H. unfold file_exists in H.
  destruct (header_includes_source_fs !! p) as [n|] eqn:E; [|discriminate].
  apply elem_of_list_to_map_2 in E.
  repeat (apply elem_of_cons in E as [E|E]; [injection E as -> _; reflexivity|]).
  by apply elem_of_nil in E.
Qed.

(** X14. No file is registered twice. In a file system whose paths contain
    no backslash and fit [MAX_PATH_LENGTH], a registry without duplicate
    paths stays without duplicates across [dependency_graph_add_file],
    whatever the includes look like. *)
Theorem dependency_graph_add_file_unique fuel fs g p r g' :
  plain_paths fs →
  NoDup (path <$> files g) →
  dependency_graph_add_file fuel fs g p = Some (r, g') →
  NoDup (path <$> files g').
Proof. intros Hplain. apply add_file_NoDup, Hplain. Qed.

Lemma dependency_graph_add_file_unique_witness :
  NoDup (path <$> files header_includes_source_graph).
Proof.
  apply (dependency_graph_add_file_unique (S MAX_SOURCE_FILES) header_includes_source_fs
           (mkDependencyGraph [] []) "h.h" DEP_SUCCESS).
  - exact plain_paths_header_includes_source.
  - apply NoDup_nil_2.
  - vm_compute. reflexivity.
Defined.

(** The hypothesis on the paths is needed: a file whose name contains a
    backslash is stored under the name with a slash, is not found under
    its own name afterwards, and a second call registers it again. *)
Example dependency_graph_add_file_backslash_twice :
  ∃ g1 g2,
    dependency_graph_add_file 2 backslash_fs (mkDependencyGraph [] []) backslash_name
    = Some (DEP_SUCCESS, g1) ∧
    dependency_graph_find_file g1 backslash_name = None ∧
    dependency_graph_add_file 2 backslash_fs g1 backslash_name
    = Some (DEP_SUCCESS, g2) ∧
    path <$> files g2 = ["a/b.c"; "a/b.c"].
Proof.
  eexists _, _. split; [vm_compute; reflexivity|].
  split; [vm_compute; reflexivity|].
  split; vm_compute; reflexivity.
Qed.

(** X15. The registry is closed under includes. In a file system with plain
    paths, if every include of every registered file is handled, the same
    holds after [dependency_graph_add_file]: each include recorded for a
    new file is registered itself, unless it is no source file by its
    name, the registry is full, or its own directives cannot be parsed.
    So the edges the topological sort looks up are all there. *)
Theorem dependency_graph_add_file_closed fuel fs g p r g' :
  plain_paths fs →
  includes_closed fs g →
  dependency_graph_add_file fuel fs g p = Some (r, g') →
  includes_closed fs g'.
Proof.
  intros Hplain Hc H f inc Hf Hinc.
  destruct (add_file_closed_but fs Hplain fuel g p r g' [] H) as [Hc' _].
  - intros f0 i Hf0 Hi. left. by eapply Hc.
  - destruct (Hc' f inc Hf Hinc) as [Hh|Hp]; [done|]. by apply elem_of_nil in Hp.
Qed.

Lemma dependency_graph_add_file_closed_witness :
  includes_closed header_includes_source_fs header_includes_source_graph.
Proof.
  apply (dependency_graph_add_file_closed (S MAX_SOURCE_FILES) header_includes_source_fs
           (mkDependencyGraph [] []) "h.h" DEP_SUCCESS).
  - exact plain_paths_header_includes_source.
  - intros f inc Hf. by apply elem_of_nil in Hf.
  - vm_compute. reflexivity.
Defined.

(** X16. Registering is idempotent. Once a call for a plain path has
    reported success, any later call for the same path reports success
    again and leaves the registry as it is. *)
Theorem dependency_graph_add_file_idempotent fuel fuel' fs g p g' :
  normalize_path p MAX_PATH_LENGTH = p →
  dependency_graph_add_file fuel fs g p = Some (DEP_SUCCESS, g') →
  dependency_graph_add_file (S fuel') fs g' p = Some (DEP_SUCCESS, g').
Proof.
  intros Hp H.
  pose proof (dependency_graph_add_file_result _ _ _ _ _ _ H) as Hout.
  cbv beta match in Hout. destruct Hout as (Hex & Hsrc & Hfind).
  rewrite Hp in Hfind.
  assert (Hsome : is_Some (dependency_graph_find_file g' p)) by tauto.
  destruct Hsome as [i Hi].
  rewrite dependency_graph_add_file_unfold, Hex, Hsrc, Hi. reflexivity.
Qed.

Lemma dependency_graph_add_file_idempotent_witness :
  dependency_graph_add_file 1 header_includes_source_fs header_includes_source_graph "h.h"
  = Some (DEP_SUCCESS, header_includes_source_graph).
Proof.
  apply (dependency_graph_add_file_idempotent (S MAX_SOURCE_FILES) 0
           header_includes_source_fs (mkDependencyGraph [] []) "h.h").
  - vm_compute. reflexivity.
  - vm_compute. reflexivity.
Defined.

(** ** Scanning a directory *)

Section ScanExtras.

Variable w : World.



End ScanExtras.



(** ** Include cycles *)

Section CycleExtras.

Lemma include_edge_static g g' u d :
  same_static g g' → include_edge g u d → include_edge g' u d.
Proof.
  intros Hs (inc & Hinc & Hfind). exists inc. split.
  - by rewrite <- (same_static_includes _ _ u Hs).
  - by rewrite <- (same_static_find _ _ inc Hs).
Qed.

Lemma same_static_sym g g' : same_static g g' → same_static g' g.
Proof. unfold same_static. by intros ->. Qed.

Lemma rtc_include_edge_static g g' u d :
  same_static g g' → rtc (include_edge g) u d → rtc (include_edge g') u d.
Proof.
  intros Hs. induction 1 as [|x y z Hxy _ IH]; [constructor|].
  econstructor; [by eapply include_edge_static|done].
Qed.

Lemma tc_include_edge_static g g' u d :
  same_static g g' → tc (include_edge g) u d → tc (include_edge g') u d.
Proof.
  intros Hs. induction 1 as [a b He|a b c He _ IH].
  - apply tc_once. by eapply include_edge_static.
  - eapply tc_l; [by eapply include_edge_static|done].
Qed.

Lemma has_include_cycle_static g g' :
  same_static g g' → has_include_cycle g → has_include_cycle g'.
Proof. intros Hs [u Hu]. exists u. by eapply tc_include_edge_static. Qed.

Lemma same_static_path g g' j :
  same_static g g' → path (file_at g' j) = path (file_at g j).
Proof.
  intros Hs. pose proof (same_static_file_at _ _ j Hs) as H.
  unfold static_part in H. congruence.
Qed.

Lemma back_edge_trace_static g g' size msg :
  same_static g g' → back_edge_trace g' size msg → back_edge_trace g size msg.
Proof.
  intros Hs (u & d & He & Hr & ->). exists u, d.
  pose proof (same_static_sym _ _ Hs) as Hs'.
  split; [by eapply include_edge_static|].
  split; [by eapply rtc_include_edge_static|].
  by rewrite !(same_static_path _ _ _ Hs).
Qed.

Lemma back_edge_trace_cycle g size msg :
  back_edge_trace g size msg → has_include_cycle g.
Proof.
  intros (u & d & He & Hr & _). exists u. eapply tc_rtc_r; [|exact Hr].
  by apply tc_once.
Qed.

Lemma stack_reaches_static g g' i :
  same_static g g' →
  (∀ j, in_stack (file_at g' j) = in_stack (file_at g j)) →
  stack_reaches g i → stack_reaches g' i.
Proof.
  intros Hs Hstk H j Hj. eapply rtc_include_edge_static; [exact Hs|].
  apply H. by rewrite <- Hstk.
Qed.

Lemma visit_includes_cycle dfs fuel ps file :
  dfs_spec_at dfs fuel → dfs_cycle_at dfs fuel ps →
  ∀ incs g order,
    (count_unvisited (files g) ≤ fuel)%nat → sort_inv g order →
    (∀ inc, inc ∈ incs → inc ∈ includes (file_at g file)) →
    stack_reaches g file →
    match visit_includes dfs ps file incs g order with
    | DfsCycle _ _ msg => back_edge_trace g ps msg
    | _ => True
    end.
Proof.
  intros Hok Hcyc. induction incs as [|inc rest IH];
    intros g order Hc Hinv Hincs Hreach; simpl; [done|].
  assert (Hrest : ∀ x, x ∈ rest → x ∈ includes (file_at g file)).
  { intros x Hx. apply Hincs. apply elem_of_cons. by right. }
  assert (Hinc : inc ∈ includes (file_at g file)).
  { apply Hincs. apply elem_of_cons. by left. }
  destruct (dependency_graph_find_file g inc) as [dep|] eqn:Hfind; [|by apply IH].
  assert (Hedge : include_edge g file dep) by (by exists inc).
  destruct (in_stack (file_at g dep)) eqn:Hstk.
  { exists file, dep. split; [done|]. split; [by apply Hreach|done]. }
  destruct (visited (file_at g dep)) eqn:Hvis; simpl; [by apply IH|].
  destruct (find_file_Some _ _ _ Hfind) as [Hdep _].
  assert (Hreach' : stack_reaches g dep).
  { intros j Hj. eapply rtc_r; [by apply Hreach|done]. }
  pose proof (Hok g dep order Hdep Hvis Hc Hinv) as Hspec.
  pose proof (Hcyc g dep order Hdep Hvis Hc Hinv Hreach') as Hfail.
  destruct (dfs g dep order) as [g' order'|g' order' msg|]; [|done|done].
  destruct Hspec as (Hg & Hinv' & _).
  pose proof (gr_static _ _ Hg) as Hs.
  specialize (IH g' order').
  assert (Hc' : (count_unvisited (files g') ≤ fuel)%nat).
  { pose proof (grows_count _ _ Hg). lia. }
  specialize (IH Hc' Hinv').
  destruct (visit_includes dfs ps file rest g' order'); [done| |done].
  eapply back_edge_trace_static; [exact Hs|]. apply IH.
  - intros x Hx. rewrite <- (same_static_includes _ _ file Hs). by apply Hrest.
  - eapply stack_reaches_static; [exact Hs|apply (gr_stack _ _ Hg)|done].
Qed.

Lemma topological_sort_dfs_cycle fuel ps :
  dfs_cycle_at (topological_sort_dfs fuel ps) fuel ps.
Proof.
  induction fuel as [|fuel IH]; intros g i order Hi Hv Hc Hinv Hreach; [done|].
  simpl.
  set (g1 := update_file g i (λ f, set_in_stack true (set_visited true f))).
  assert (Hs1 : same_static g g1) by (by apply same_static_update).
  assert (Hi1 : file_at g1 i = set_in_stack true (set_visited true (file_at g i)))
    by (by apply file_at_update_eq).
  assert (Hne1 : ∀ j, i ≠ j → file_at g1 j = file_at g j)
    by (intros j Hj; by apply file_at_update_ne).
  assert (Hc1 : (count_unvisited (files g1) ≤ fuel)%nat).
  { destruct (lookup_lt_is_Some_2 _ _ Hi) as [f Hf].
    pose proof (count_unvisited_mark (files g) i f
                  (λ f, set_in_stack true (set_visited true f)) Hf) as Hm.
    rewrite (file_at_lookup _ _ _ Hf) in Hv. specialize (Hm Hv (λ _, eq_refl)).
    unfold g1, update_file. cbn [files]. lia. }
  pose proof (visit_includes_cycle (topological_sort_dfs fuel ps) fuel ps i
                (topological_sort_dfs_spec fuel ps) IH
                (includes (file_at g1 i)) g1 order Hc1
                (sort_inv_enter g order i Hi Hv Hinv) (λ _ H, H)) as Hloop.
  destruct (visit_includes _ ps i (includes (file_at g1 i)) g1 order); [done| |done].
  eapply back_edge_trace_static; [exact Hs1|]. apply Hloop.
  intros j Hj. destruct (decide (i = j)) as [<-|Hij]; [constructor|].
  eapply rtc_include_edge_static; [exact Hs1|]. apply Hreach.
  by rewrite <- (Hne1 j Hij).
Qed.

(** When every registered file is in the order, the positions in the
    order rule out a cycle. *)
Lemma sort_inv_acyclic g order :
  sort_inv g order →
  (∀ j, (j < length (files g))%nat → j ∈ order) →
  ¬ has_include_cycle g.
Proof.
  intros Hinv Hall [u Hcyc].
  assert (Hpos : ∀ a b, tc (include_edge g) a b →
            ∃ pa pb, order !! pa = Some a ∧ order !! pb = Some b ∧ (pb < pa)%nat).
  { intros a b. induction 1 as [a b (inc & Hinc & Hfind)
                               |a b c (inc & Hinc & Hfind) _ IH].
    - assert (Ha : a ∈ order).
      { apply Hall. destruct (decide (a < length (files g))%nat) as [|Hge]; [done|].
        rewrite file_at_ge in Hinc by lia. by apply elem_of_nil in Hinc. }
      apply list_elem_of_lookup in Ha as [pa Hpa].
      destruct (inv_deps _ _ Hinv pa a inc b Hpa Hinc Hfind) as (pb & Hpb & Hlt).
      by exists pa, pb.
    - assert (Ha : a ∈ order).
      { apply Hall. destruct (decide (a < length (files g))%nat) as [|Hge]; [done|].
        rewrite file_at_ge in Hinc by lia. by apply elem_of_nil in Hinc. }
      apply list_elem_of_lookup in Ha as [pa Hpa].
      destruct (inv_deps _ _ Hinv pa a inc b Hpa Hinc Hfind) as (pb & Hpb & Hlt).
      destruct IH as (pb' & pc & Hpb' & Hpc & Hlt').
      assert (pb = pb') as <-.
      { eapply NoDup_lookup; [apply (inv_nodup _ _ Hinv)|done|done]. }
      exists pa, pc. repeat split; [done|done|lia]. }
  destruct (Hpos u u Hcyc) as (pa & pb & Hpa & Hpb & Hlt).
  assert (pa = pb); [|lia].
  eapply NoDup_lookup; [apply (inv_nodup _ _ Hinv)|done|done].
Qed.

Lemma sort_pass_cycle fuel ph :
  ∀ idxs g order,
    (∀ i, i ∈ idxs → (i < length (files g))%nat) →
    (count_unvisited (files g) ≤ fuel)%nat → sort_inv g order →
    (∀ j, in_stack (file_at g j) = false) →
    match sort_pass fuel ph idxs g order with
    | DfsOk g' _ => ∀ j, in_stack (file_at g' j) = false
    | DfsCycle _ _ msg => back_edge_trace g CYCLE_PATH_SIZE msg
    | DfsOutOfFuel => True
    end.
Proof.
  induction idxs as [|i rest IH]; intros g order Hidx Hc Hinv Hstk; simpl; [done|].
  assert (Hrest : ∀ j, j ∈ rest → (j < length (files g))%nat).
  { intros j Hj. apply Hidx. apply elem_of_cons; by right. }
  assert (Hi : (i < length (files g))%nat).
  { apply Hidx. apply elem_of_cons; by left. }
  destruct (negb (Bool.eqb (is_header (file_at g i)) ph)); [by apply IH|].
  destruct (visited (file_at g i)) eqn:Hv; [by apply IH|].
  assert (Hreach : stack_reaches g i) by (intros j Hj; by rewrite Hstk in Hj).
  pose proof (topological_sort_dfs_spec fuel CYCLE_PATH_SIZE g i order Hi Hv Hc Hinv)
    as Hspec.
  pose proof (topological_sort_dfs_cycle fuel CYCLE_PATH_SIZE g i order Hi Hv Hc Hinv
                Hreach) as Hfail.
  destruct (topological_sort_dfs fuel CYCLE_PATH_SIZE g i order)
    as [g' order'|g' order' msg|]; [|done|done].
  destruct Hspec as (Hg & Hinv' & _).
  pose proof (gr_static _ _ Hg) as Hs.
  specialize (IH g' order').
  assert (Hrest' : ∀ j, j ∈ rest → (j < length (files g'))%nat).
  { intros j Hj. rewrite <- (same_static_length _ _ Hs). by apply Hrest. }
  assert (Hc' : (count_unvisited (files g') ≤ fuel)%nat).
  { pose proof (grows_count _ _ Hg). lia. }
  assert (Hstk' : ∀ j, in_stack (file_at g' j) = false).
  { intros j. by rewrite (gr_stack _ _ Hg). }
  specialize (IH Hrest' Hc' Hinv' Hstk').
  destruct (sort_pass fuel ph rest g' order'); [done| |done].
  by eapply back_edge_trace_static.
Qed.

Lemma topological_sort_cycle_cases g :
  match dependency_graph_topological_sort g with
  | Some (code, _, _) =>
      (code = DEP_SUCCESS ∧ ¬ has_include_cycle g) ∨
      (code = DEP_ERROR_CIRCULAR_DEPENDENCY ∧ has_include_cycle g)
  | None => False
  end.
Proof.
  pose proof (topological_sort_result g) as Hres. revert Hres.
  unfold dependency_graph_topological_sort.
  set (g0 := reset_marks g). unfold file_count.
  set (n := length (files g0)).
  assert (Hidx : ∀ g', length (files g') = n →
            ∀ i, i ∈ seq 0 n → (i < length (files g'))%nat).
  { intros g' Hg' i Hin. apply elem_of_seq in Hin. lia. }
  pose proof (same_static_reset g) as Hs0. fold g0 in Hs0.
  assert (Hstk0 : ∀ j, in_stack (file_at g0 j) = false).
  { intros j. by destruct (file_at_reset g j). }
  pose proof (sort_pass_spec n true (seq 0 n) g0 [] (Hidx g0 eq_refl)
                (count_unvisited_le _) (sort_inv_reset g)) as H1.
  pose proof (sort_pass_cycle n true (seq 0 n) g0 [] (Hidx g0 eq_refl)
                (count_unvisited_le _) (sort_inv_reset g) Hstk0) as C1.
  destruct (sort_pass n true (seq 0 n) g0 []) as [g1 o1|g1 o1 msg1|]; [| |done].
  2:{ intros _. right. split; [done|].
      eapply back_edge_trace_cycle, back_edge_trace_static; [exact Hs0|exact C1]. }
  destruct H1 as (Hg1 & Hi1 & Hv1 & _).
  pose proof (same_static_length _ _ (gr_static _ _ Hg1)) as Hlen1.
  assert (Hc1 : (count_unvisited (files g1) ≤ n)%nat).
  { pose proof (grows_count _ _ Hg1). pose proof (count_unvisited_le (files g0)).
    lia. }
  pose proof (sort_pass_cycle n false (seq 0 n) g1 o1
                (Hidx g1 (eq_sym Hlen1)) Hc1 Hi1 C1) as C2.
  destruct (sort_pass n false (seq 0 n) g1 o1) as [g2 o2|g2 o2 msg2|]; [| |done].
  - intros (Hs & Hinv & Hall). left. split; [done|].
    intros Hcyc.
    apply (sort_inv_acyclic g2 o2 Hinv).
    + intros j Hj. apply (inv_finished _ _ Hinv), Hall.
      by rewrite (same_static_length _ _ Hs).
    + by eapply has_include_cycle_static.
  - intros _. right. split; [done|].
    eapply back_edge_trace_cycle, back_edge_trace_static; [exact Hs0|].
    eapply back_edge_trace_static; [exact (gr_static _ _ Hg1)|exact C2].
Qed.

(** X18. The sort fails exactly on include cycles. The sort always returns;
    it reports [DEP_ERROR_CIRCULAR_DEPENDENCY] if and only if some
    registered file reaches itself along resolved includes, and
    [DEP_SUCCESS] if and only if none does. No other code is returned. *)
Theorem topological_sort_detects_cycles g :
  ∃ code g' order,
    dependency_graph_topological_sort g = Some (code, g', order) ∧
    (code = DEP_ERROR_CIRCULAR_DEPENDENCY ↔ has_include_cycle g) ∧
    (code = DEP_SUCCESS ↔ ¬ has_include_cycle g).
Proof.
  pose proof (topological_sort_cycle_cases g) as H.
  destruct (dependency_graph_topological_sort g) as [[[code g'] order]|]; [|done].
  exists code, g', order. split; [done|].
  destruct H as [[-> Hno]|[-> Hyes]].
  - by split; split.
  - by split; split.
Qed.

Lemma file_at_reset_flags g j :
  visited (file_at (reset_flags g) j) = false ∧
  in_stack (file_at (reset_flags g) j) = false.
Proof.
  unfold file_at, reset_flags; simpl. rewrite list_lookup_fmap.
  by destruct (files g !! j).
Qed.

Lemma same_static_reset_flags g : same_static g (reset_flags g).
Proof.
  unfold same_static, reset_flags; simpl. rewrite <- list_fmap_compose.
  apply list_fmap_ext. intros i f _. by destruct f.
Qed.

Lemma sort_inv_reset_flags g : sort_inv (reset_flags g) [].
Proof.
  constructor.
  - constructor.
  - intros j. split.
    + intros H. by apply elem_of_nil in H.
    + intros (_ & Hv & _). destruct (file_at_reset_flags g j). congruence.
  - intros pj j inc d H. done.
  - intros j H. destruct (file_at_reset_flags g j). congruence.
Qed.

Lemma has_cycle_loop_spec fuel ps :
  ∀ idxs g order,
    (∀ i, i ∈ idxs → (i < length (files g))%nat) →
    (count_unvisited (files g) ≤ fuel)%nat → sort_inv g order →
    (∀ j, in_stack (file_at g j) = false) →
    match has_cycle_loop fuel ps idxs g order with
    | DfsOk g' order' =>
        grows g g' ∧ sort_inv g' order' ∧
        ∀ i, i ∈ idxs → visited (file_at g' i) = true
    | DfsCycle _ _ msg => back_edge_trace g ps msg
    | DfsOutOfFuel => False
    end.
Proof.
  induction idxs as [|i rest IH]; intros g order Hidx Hc Hinv Hstk; simpl.
  { split; [apply grows_refl|]. split; [done|]. intros i Hi. by apply elem_of_nil in Hi. }
  assert (Hrest : ∀ j, j ∈ rest → (j < length (files g))%nat).
  { intros j Hj. apply Hidx. apply elem_of_cons; by right. }
  assert (Hi : (i < length (files g))%nat).
  { apply Hidx. apply elem_of_cons; by left. }
  destruct (visited (file_at g i)) eqn:Hv.
  { specialize (IH g order Hrest Hc Hinv Hstk).
    destruct (has_cycle_loop fuel ps rest g order) as [g' order'| |]; [|done|done].
    destruct IH as (Hg & Hinv' & Hvis). split; [done|]. split; [done|].
    intros j Hj. apply elem_of_cons in Hj as [->|Hj]; [|by apply Hvis].
    by apply (gr_visited _ _ Hg). }
  assert (Hreach : stack_reaches g i) by (intros j Hj; by rewrite Hstk in Hj).
  pose proof (topological_sort_dfs_spec fuel ps g i order Hi Hv Hc Hinv) as Hspec.
  pose proof (topological_sort_dfs_cycle fuel ps g i order Hi Hv Hc Hinv Hreach)
    as Hfail.
  destruct (topological_sort_dfs fuel ps g i order)
    as [g1 order1|g1 order1 msg|]; [|done|done].
  destruct Hspec as (Hg1 & Hinv1 & Hvi & _).
  pose proof (gr_static _ _ Hg1) as Hs.
  specialize (IH g1 order1).
  assert (Hrest1 : ∀ j, j ∈ rest → (j < length (files g1))%nat).
  { intros j Hj. rewrite <- (same_static_length _ _ Hs). by apply Hrest. }
  assert (Hc1 : (count_unvisited (files g1) ≤ fuel)%nat).
  { pose proof (grows_count _ _ Hg1). lia. }
  assert (Hstk1 : ∀ j, in_stack (file_at g1 j) = false).
  { intros j. by rewrite (gr_stack _ _ Hg1). }
  specialize (IH Hrest1 Hc1 Hinv1 Hstk1).
  destruct (has_cycle_loop fuel ps rest g1 order1) as [g2 order2|g2 order2 msg|];
    [| |done].
  - destruct IH as (Hg2 & Hinv2 & Hvis). split; [by eapply grows_trans|].
    split; [done|]. intros j Hj.
    apply elem_of_cons in Hj as [->|Hj]; [|by apply Hvis].
    by apply (gr_visited _ _ Hg2).
  - by eapply back_edge_trace_static.
Qed.

Lemma has_cycle_cases g size :
  match dependency_graph_has_cycle g size with
  | Some (true, _, msg) => has_include_cycle g ∧ back_edge_trace g size msg
  | Some (false, g', _) => ¬ has_include_cycle g ∧ same_static g g'
  | None => False
  end.
Proof.
  unfold dependency_graph_has_cycle. fold (reset_flags g).
  set (g0 := reset_flags g). unfold file_count. set (n := length (files g0)).
  pose proof (same_static_reset_flags g) as Hs0. fold g0 in Hs0.
  assert (Hidx : ∀ i, i ∈ seq 0 n → (i < length (files g0))%nat).
  { intros i Hin. apply elem_of_seq in Hin. lia. }
  assert (Hstk0 : ∀ j, in_stack (file_at g0 j) = false).
  { intros j. by destruct (file_at_reset_flags g j). }
  pose proof (has_cycle_loop_spec n size (seq 0 n) g0 [] Hidx
                (count_unvisited_le _) (sort_inv_reset_flags g) Hstk0) as H.
  destruct (has_cycle_loop n size (seq 0 n) g0 []) as [g1 o1|g1 o1 msg|]; [| |done].
  - destruct H as (Hg1 & Hinv1 & Hvis).
    pose proof (gr_static _ _ Hg1) as Hs1.
    split; [|by eapply same_static_trans]. intros Hcyc.
    apply (sort_inv_acyclic g1 o1 Hinv1).
    + intros j Hj. apply (inv_finished _ _ Hinv1).
      rewrite <- (same_static_length _ _ Hs1) in Hj. split; [by rewrite <- (same_static_length _ _ Hs1)|].
      split.
      * apply Hvis. apply elem_of_seq. fold n in Hj. lia.
      * by rewrite (gr_stack _ _ Hg1).
    + eapply has_include_cycle_static; [|exact Hcyc].
      by eapply same_static_trans.
  - assert (Hb : back_edge_trace g size msg) by (by eapply back_edge_trace_static).
    split; [by eapply back_edge_trace_cycle|done].
Qed.

(** X19. [dependency_graph_has_cycle] answers the question it is named
    after. It always returns; it returns true if and only if some
    registered file reaches itself along resolved includes; the text it
    then writes to [cycle_path] is [u -> d], cut to the buffer, for two
    registered files such that [u] includes [d] and [d] reaches [u]; and
    when it returns false it has changed nothing but traversal marks. *)
Theorem dependency_graph_has_cycle_spec g size :
  ∃ found g' msg,
    dependency_graph_has_cycle g size = Some (found, g', msg) ∧
    (found = true ↔ has_include_cycle g) ∧
    (found = true → back_edge_trace g size msg) ∧
    (found = false → same_static g g').
Proof.
  pose proof (has_cycle_cases g size) as H.
  destruct (dependency_graph_has_cycle g size) as [[[found g'] msg]|]; [|done].
  exists found, g', msg. split; [done|].
  destruct found.
  - destruct H as [Hcyc Htrace]. by repeat split.
  - destruct H as [Hno Hs]. by repeat split.
Qed.

(** X20. The cycle check and the sort agree. The sort reports a circular
    dependency exactly when [dependency_graph_has_cycle] returns true on
    the same registry; and on the registry as a negative check leaves it,
    which is what [main] hands to the build, the sort succeeds. *)
Theorem has_cycle_agrees_with_sort g size :
  ∃ b g1 msg,
    dependency_graph_has_cycle g size = Some (b, g1, msg) ∧
    (∃ g2 order,
       dependency_graph_topological_sort g
       = Some (if b then DEP_ERROR_CIRCULAR_DEPENDENCY else DEP_SUCCESS, g2, order)) ∧
    (b = false →
     ∃ g2 order, dependency_graph_topological_sort g1 = Some (DEP_SUCCESS, g2, order)).
Proof.
  pose proof (has_cycle_cases g size) as Hc.
  pose proof (topological_sort_cycle_cases g) as Hs.
  destruct (dependency_graph_has_cycle g size) as [[[b g1] msg]|]; [|done].
  exists b, g1, msg. split; [done|].
  destruct (dependency_graph_topological_sort g) as [[[code g2] order]|]; [|done].
  destruct b.
  - destruct Hc as [Hc _]. split; [|done].
    destruct Hs as [[_ Hn]|[-> _]]; [done|by eexists _, _].
  - destruct Hc as [Hc Hst]. split.
    + destruct Hs as [[-> _]|[_ Hy]]; [by eexists _, _|done].
    + intros _. pose proof (topological_sort_cycle_cases g1) as Hs1.
      destruct (dependency_graph_topological_sort g1) as [[[code1 g3] order1]|];
        [|done].
      destruct Hs1 as [[-> _]|[_ Hy]]; [by eexists _, _|].
      exfalso. apply Hc. eapply has_include_cycle_static; [|exact Hy].
      by apply same_static_sym.
Qed.

(** Two headers that include each other: the text names the edge that
    closes the cycle. *)
Example has_cycle_mutual :
  ∃ g', dependency_graph_has_cycle mutual_graph 1024 = Some (true, g', "b.h -> a.h").
Proof. eexists. vm_compute. reflexivity. Qed.

End CycleExtras.

(** ** The recorded sort positions *)

Section PositionExtras.

Lemma visit_includes_positions dfs fuel ps file :
  dfs_spec_at dfs fuel → dfs_positions_at dfs fuel →
  ∀ incs g order,
    (count_unvisited (files g) ≤ fuel)%nat → sort_inv g order →
    order_positions g order →
    match visit_includes dfs ps file incs g order with
    | DfsOk g' order' => order_positions g' order'
    | _ => True
    end.
Proof.
  intros Hok Hpos. induction incs as [|inc rest IH];
    intros g order Hc Hinv Hp; simpl; [done|].
  destruct (dependency_graph_find_file g inc) as [dep|] eqn:Hfind; [|by apply IH].
  destruct (in_stack (file_at g dep)); [done|].
  destruct (visited (file_at g dep)) eqn:Hvis; simpl; [by apply IH|].
  destruct (find_file_Some _ _ _ Hfind) as [Hdep _].
  pose proof (Hok g dep order Hdep Hvis Hc Hinv) as Hspec.
  pose proof (Hpos g dep order Hdep Hvis Hc Hinv Hp) as Hp'.
  destruct (dfs g dep order) as [g' order'| |]; [|done|done].
  destruct Hspec as (Hg & Hinv' & _). apply IH; [|done|done].
  pose proof (grows_count _ _ Hg). lia.
Qed.

Lemma topological_sort_dfs_positions fuel ps :
  dfs_positions_at (topological_sort_dfs fuel ps) fuel.
Proof.
  induction fuel as [|fuel IH]; intros g i order Hi Hv Hc Hinv Hp; [done|].
  simpl.
  set (g1 := update_file g i (λ f, set_in_stack true (set_visited true f))).
  assert (Hs1 : same_static g g1) by (by apply same_static_update).
  assert (Hi1 : file_at g1 i = set_in_stack true (set_visited true (file_at g i)))
    by (by apply file_at_update_eq).
  assert (Hne1 : ∀ j, i ≠ j → file_at g1 j = file_at g j)
    by (intros j Hj; by apply file_at_update_ne).
  assert (Hc1 : (count_unvisited (files g1) ≤ fuel)%nat).
  { destruct (lookup_lt_is_Some_2 _ _ Hi) as [f Hf].
    pose proof (count_unvisited_mark (files g) i f
                  (λ f, set_in_stack true (set_visited true f)) Hf) as Hm.
    rewrite (file_at_lookup _ _ _ Hf) in Hv. specialize (Hm Hv (λ _, eq_refl)).
    unfold g1, update_file. cbn [files]. lia. }
  assert (Hinv1 : sort_inv g1 order) by (by apply sort_inv_enter).
  assert (Hp1 : order_positions g1 order).
  { intros p j Hpj. destruct (decide (i = j)) as [<-|Hij].
    - rewrite Hi1. simpl. by apply Hp.
    - rewrite (Hne1 j Hij). by apply Hp. }
  pose proof (visit_includes_spec (topological_sort_dfs fuel ps) fuel ps i
                (topological_sort_dfs_spec fuel ps)
                (includes (file_at g1 i)) g1 order Hc1 Hinv1) as Hspec.
  pose proof (visit_includes_positions (topological_sort_dfs fuel ps) fuel ps i
                (topological_sort_dfs_spec fuel ps) IH
                (includes (file_at g1 i)) g1 order Hc1 Hinv1 Hp1) as Hp2.
  destruct (visit_includes _ ps i (includes (file_at g1 i)) g1 order)
    as [g2 order2| |]; [|done|done].
  destruct Hspec as (Hg2 & Hinv2 & _).
  assert (Hi2 : (i < length (files g2))%nat).
  { rewrite <- (same_static_length _ _ (gr_static _ _ Hg2)).
    by rewrite <- (same_static_length _ _ Hs1). }
  assert (Hnot : i ∉ order2).
  { intros Hin. apply (inv_finished _ _ Hinv2) in Hin as (_ & _ & Hstk).
    rewrite (gr_stack _ _ Hg2), Hi1 in Hstk. discriminate. }
  intros p j Hpj.
  destruct (decide (p < length order2)%nat) as [Hlt|Hge].
  - rewrite lookup_app_l in Hpj by done.
    assert (i ≠ j).
    { intros <-. apply Hnot. by eapply list_elem_of_lookup_2. }
    rewrite file_at_update_ne by done. by apply Hp2.
  - rewrite lookup_app_r in Hpj by lia.
    destruct (p - length order2)%nat as [|k] eqn:Hk; [|done].
    injection Hpj as <-. rewrite file_at_update_eq by done. simpl.
    f_equal. lia.
Qed.

Lemma sort_pass_positions fuel ph :
  ∀ idxs g order,
    (∀ i, i ∈ idxs → (i < length (files g))%nat) →
    (count_unvisited (files g) ≤ fuel)%nat → sort_inv g order →
    order_positions g order →
    match sort_pass fuel ph idxs g order with
    | DfsOk g' order' => order_positions g' order'
    | _ => True
    end.
Proof.
  induction idxs as [|i rest IH]; intros g order Hidx Hc Hinv Hp; simpl; [done|].
  assert (Hrest : ∀ j, j ∈ rest → (j < length (files g))%nat).
  { intros j Hj. apply Hidx. apply elem_of_cons; by right. }
  assert (Hi : (i < length (files g))%nat).
  { apply Hidx. apply elem_of_cons; by left. }
  destruct (negb (Bool.eqb (is_header (file_at g i)) ph)); [by apply IH|].
  destruct (visited (file_at g i)) eqn:Hv; [by apply IH|].
  pose proof (topological_sort_dfs_spec fuel CYCLE_PATH_SIZE g i order Hi Hv Hc Hinv)
    as Hspec.
  pose proof (topological_sort_dfs_positions fuel CYCLE_PATH_SIZE g i order
                Hi Hv Hc Hinv Hp) as Hp'.
  destruct (topological_sort_dfs fuel CYCLE_PATH_SIZE g i order)
    as [g' order'| |]; [|done|done].
  destruct Hspec as (Hg & Hinv' & _).
  apply IH; [| |done|done].
  - intros j Hj. rewrite <- (same_static_length _ _ (gr_static _ _ Hg)). by apply Hrest.
  - pose proof (grows_count _ _ Hg). lia.
Qed.

(** X21. [sort_order] is the position in the build order. After a
    successful sort every registered file carries in its field
    [sort_order] the index at which the build order lists it, and is
    marked visited and off the stack. *)
Theorem topological_sort_sort_order g g' order j :
  dependency_graph_topological_sort g = Some (DEP_SUCCESS, g', order) →
  (j < length (files g))%nat →
  ∃ p, order !! p = Some j ∧ sort_order (file_at g' j) = Z.of_nat p ∧
       visited (file_at g' j) = true ∧ in_stack (file_at g' j) = false.
Proof.
  intros Hsort Hj.
  pose proof (topological_sort_result g) as Hres. rewrite Hsort in Hres.
  destruct Hres as (Hs & Hinv & Hall).
  destruct (Hall j Hj) as (_ & Hv & Hstk).
  assert (Hin : j ∈ order) by (apply (inv_finished _ _ Hinv); by apply Hall).
  apply list_elem_of_lookup in Hin as [p Hp]. exists p.
  split; [done|]. split; [|done].
  revert Hsort. unfold dependency_graph_topological_sort.
  set (g0 := reset_marks g). unfold file_count. set (n := length (files g0)).
  assert (Hidx : ∀ g', length (files g') = n →
            ∀ i, i ∈ seq 0 n → (i < length (files g'))%nat).
  { intros g1 Hg1 i Hin. apply elem_of_seq in Hin. lia. }
  assert (Hp0 : order_positions g0 []) by (intros q k Hq; done).
  pose proof (sort_pass_spec n true (seq 0 n) g0 [] (Hidx g0 eq_refl)
                (count_unvisited_le _) (sort_inv_reset g)) as H1.
  pose proof (sort_pass_positions n true (seq 0 n) g0 [] (Hidx g0 eq_refl)
                (count_unvisited_le _) (sort_inv_reset g) Hp0) as P1.
  destruct (sort_pass n true (seq 0 n) g0 []) as [g1 o1| |]; [|done|done].
  destruct H1 as (Hg1 & Hi1 & _).
  pose proof (same_static_length _ _ (gr_static _ _ Hg1)) as Hlen1.
  assert (Hc1 : (count_unvisited (files g1) ≤ n)%nat).
  { pose proof (grows_count _ _ Hg1). pose proof (count_unvisited_le (files g0)).
    lia. }
  pose proof (sort_pass_positions n false (seq 0 n) g1 o1
                (Hidx g1 (eq_sym Hlen1)) Hc1 Hi1 P1) as P2.
  destruct (sort_pass n false (seq 0 n) g1 o1) as [g2 o2| |]; [|done|done].
  intros [= <- <-]. by apply P2.
Qed.

Lemma topological_sort_sort_order_witness :
  ∃ p, [2; 1; 0]%nat !! p = Some 0%nat ∧
       sort_order
         (file_at
            (mkDependencyGraph
               [ mkSourceFile "main.c" ["math.h"] false true false 2;
                 mkSourceFile "math.h" ["util.h"] true true false 1;
                 mkSourceFile "util.h" [] true true false 0 ] []) 0) = Z.of_nat p ∧
       visited
         (file_at
            (mkDependencyGraph
               [ mkSourceFile "main.c" ["math.h"] false true false 2;
                 mkSourceFile "math.h" ["util.h"] true true false 1;
                 mkSourceFile "util.h" [] true true false 0 ] []) 0) = true ∧
       in_stack
         (file_at
            (mkDependencyGraph
               [ mkSourceFile "main.c" ["math.h"] false true false 2;
                 mkSourceFile "math.h" ["util.h"] true true false 1;
                 mkSourceFile "util.h" [] true true false 0 ] []) 0) = false.
Proof.
  apply (topological_sort_sort_order chain_graph).
  - vm_compute. reflexivity.
  - simpl. lia.
Defined.

End PositionExtras.

(** ** The entry point *)

(** X22. A project with an include cycle is refused before anything
    happens. When the command line is accepted and asks for a build, and
    the scan yields a registry in which some file reaches itself along
    resolved includes, [main] returns 1 and leaves the world as it was: no
    command is run, no directory made, no file written. *)
Theorem main_refuses_cycles tc argv w args g :
  parse_arguments argv = Some args →
  Cli.help args = false → Cli.version args = false →
  main_scan w args = Some (DEP_SUCCESS, g) →
  has_include_cycle g →
  main tc argv w = Some (1, w).
Proof.
  intros Hparse Hhelp Hver Hscan Hcyc. unfold main.
  rewrite Hparse, Hhelp, Hver, Hscan.
  destruct (file_count g =? 0)%nat; [done|].
  pose proof (has_cycle_cases g 1024) as Hc.
  destruct (dependency_graph_has_cycle g 1024) as [[[b g1] msg]|]; [|done].
  destruct b; [done|]. by destruct Hc.
Qed.

Lemma main_refuses_cycles_witness :
  main always_ok ["proj"] mutual_world = Some (1, mutual_world).
Proof.
  apply (main_refuses_cycles always_ok ["proj"] mutual_world mutual_args mutual_scanned).
  - vm_compute. reflexivity.
  - reflexivity.
  - reflexivity.
  - vm_compute. reflexivity.
  - exists 0%nat. eapply tc_l; [|apply tc_once].
    + exists "proj/b.h". split; [apply list_elem_of_here|reflexivity].
    + exists "proj/a.h". split; [apply list_elem_of_here|reflexivity].
Defined.

(** ** Paths of object files and of the project directory *)

Section PathExtras.

Lemma strrchr_from_free pos s c last :
  free_of c s = true → CString.strrchr_from pos s c last = last.
Proof.
  revert pos. induction s as [|a s IH]; intros pos; simpl; [done|].
  intros [Ha Hs]%andb_prop. apply negb_true_iff in Ha. rewrite Ha. by apply IH.
Qed.

Lemma strrchr_from_app pos a b c last :
  CString.strrchr_from pos (a +:+ b) c last =
  CString.strrchr_from (pos + String.length a) b c (CString.strrchr_from pos a c last).
Proof.
  revert pos last. induction a as [|x a IH]; intros pos last.
  - rewrite append_nil. simpl. by rewrite Nat.add_0_r.
  - rewrite append_cons. simpl. rewrite IH. f_equal. lia.
Qed.

(** The last occurrence of [c] in [a c b] is the one shown when [b] has
    none. *)
Lemma strrchr_last a b c :
  free_of c b = true →
  CString.strrchr (a +:+ String c b) c = Some (String.length a).
Proof.
  intros Hb. unfold CString.strrchr. rewrite strrchr_from_app. simpl.
  rewrite Ascii.eqb_refl. by apply strrchr_from_free.
Qed.

Lemma substring_app a b : String.substring 0 (String.length a) (a +:+ b) = a.
Proof.
  induction a as [|x a IH]; [by destruct b|].
  rewrite append_cons. simpl. by f_equal.
Qed.

Lemma drop_S_app a c b : CString.drop (S (String.length a)) (a +:+ String c b) = b.
Proof. induction a as [|x a IH]; [done|]. rewrite append_cons. exact IH. Qed.

Lemma base_name_join d name :
  free_of "/"%char name = true → base_name (d +:+ "/" +:+ name) = name.
Proof.
  intros H. unfold base_name.
  change (d +:+ "/" +:+ name) with (d +:+ String "/"%char name).
  rewrite (strrchr_last d name "/"%char H). apply drop_S_app.
Qed.

(** X23. Where the object file goes. For a source [d/stem.ext] the object
    path is [output_dir/stem.o], cut to the destination: the directory of
    the source and its extension play no part, so [a/util.c], [b/util.c]
    and [a/util.cpp] all share one object file. The base name must fit the
    512-byte buffer with the new extension. *)
Theorem get_object_file_path_closed_form d stem ext output_dir dest_size :
  free_of "/"%char stem = true → free_of "/"%char ext = true →
  free_of "."%char ext = true →
  (String.length (stem +:+ "." +:+ ext) < 512)%nat →
  (String.length stem + 3 ≤ 512)%nat →
  get_object_file_path (d +:+ "/" +:+ stem +:+ "." +:+ ext) output_dir dest_size
  = CString.truncate dest_size (output_dir +:+ "/" +:+ stem +:+ ".o").
Proof.
  intros Hstem Hext Hdot Hlen _. unfold get_object_file_path.
  assert (Hname : free_of "/"%char (stem +:+ "." +:+ ext) = true).
  { clear -Hstem Hext. unfold free_of in *.
    induction stem as [|x stem IH]; [done|].
    rewrite append_cons. simpl in *.
    apply andb_prop in Hstem as [-> Hs]. by apply IH. }
  rewrite (base_name_join d _ Hname).
  rewrite (truncate_short _ _ Hlen).
  change (stem +:+ "." +:+ ext) with (stem +:+ String "."%char ext).
  rewrite (strrchr_last stem ext "."%char Hdot).
  by rewrite substring_app.
Qed.

Lemma get_object_file_path_closed_form_witness :
  get_object_file_path ("src/net" +:+ "/" +:+ "util" +:+ "." +:+ "cpp") "build" MAX_PATH_LENGTH
  = CString.truncate MAX_PATH_LENGTH ("build" +:+ "/" +:+ "util" +:+ ".o").
Proof.
  apply get_object_file_path_closed_form.
  - reflexivity.
  - reflexivity.
  - reflexivity.
  - vm_compute. lia.
  - vm_compute. lia.
Defined.




End PathExtras.

(** ** Command line *)

Section CliExtras.

Lemma parse_arguments_loop_jobs n :
  ∀ argv args r,
    (length argv ≤ n)%nat →
    1 ≤ Cli.parallel_jobs args →
    parse_arguments_loop argv args = Some r →
    1 ≤ Cli.parallel_jobs r.
Proof.
  induction n as [|n IH]; intros argv args r Hlen Hjobs.
  { destruct argv; [|simpl in Hlen; lia]. simpl. by intros [= <-]. }
  destruct argv as [|a rest]; [simpl; by intros [= <-]|].
  simpl in Hlen. cbn [parse_arguments_loop].
  repeat (match goal with
          | |- context [if ?b then _ else _] =>
              destruct b; [first [apply IH; [lia|exact Hjobs] | idtac]|]
          end);
  try (destruct rest as [|v rest']; [discriminate|];
       apply IH; [simpl in *; lia|]; cbn [Cli.parallel_jobs]; try exact Hjobs);
  try discriminate.
  - destruct (atoi v <? 1) eqn:E; [lia|]. by apply Z.ltb_ge in E.
Qed.

(** X25. The job count is at least 1. Whatever the command line, if
    [parse_arguments] accepts it, the number of parallel jobs it returns
    is 1 or more: a [-j] value below 1, or one that is no number, is
    replaced by 1. *)
Theorem parse_arguments_jobs argv args :
  parse_arguments argv = Some args → 1 ≤ Cli.parallel_jobs args.
Proof.
  apply (parse_arguments_loop_jobs (length argv)); [done|].
  cbn [Cli.parallel_jobs]. lia.
Qed.

Lemma parse_arguments_jobs_witness :
  1 ≤ Cli.parallel_jobs
        (Cli.mk "src" "build" "program" [] false false false false false false 1).
Proof.
  apply (parse_arguments_jobs ["-j"; "0"; "src"]). vm_compute. reflexivity.
Defined.

End CliExtras.

(** ** The layers around the compile event *)

Section PipelineExtras.

Lemma compiles_with_data ev source config data h :
  user_data ev = Some data → Event.source data = Some source →
  Event.config data = Some config → is_header source = false →
  compiles (with_data ev (Event.set_cache_hit data h)) source config.
Proof. intros _ Hs Hc Hh. by exists (Event.set_cache_hit data h). Qed.

Lemma layered_keeps_object tc h :
  layered tc h →
  ∀ ev source config st,
    compiles ev source config →
    needs_recompilation (w_fs (st_world st)) (path source)
      (get_object_file_path (path source) (Config.output_dir config) MAX_PATH_LENGTH)
    = false →
    success (h ev st).1.1 = true ∧ st_world (h ev st).2 = st_world st.
Proof.
  induction 1 as [|verbose h _ IH|quiet h _ IH|h _ IH|h _ IH];
    intros ev source config st Hev Hfresh.
  - destruct Hev as (data & Hd & Hs & Hc & Hh).
    unfold compile_event_execute, compile_source_file.
    rewrite Hd, Hs, Hc, Hh, Hfresh. cbn. done.
  - unfold timing_middleware_execute.
    set (st0 := if verbose then print st _ else st).
    assert (Hw : st_world st0 = st_world st) by (unfold st0; by destruct verbose).
    destruct (IH ev source config st0 Hev ltac:(by rewrite Hw)) as [Hok Hsame].
    destruct (h ev st0) as [[result ev'] st'].
    cbn [fst snd] in *. split; [done|]. rewrite <- Hw, <- Hsame. by destruct verbose.
  - unfold logging_middleware_execute.
    set (st0 := if negb quiet && is_compile_event ev then print st _ else st).
    assert (Hw : st_world st0 = st_world st).
    { unfold st0. by destruct (negb quiet && is_compile_event ev). }
    destruct (IH ev source config st0 Hev ltac:(by rewrite Hw)) as [Hok Hsame].
    destruct (h ev st0) as [[result ev'] st'].
    cbn [fst snd] in *. split; [done|]. rewrite Hok, <- Hw, <- Hsame.
    destruct (is_compile_event ev && event_cache_hit ev'); by destruct (negb quiet).
  - unfold statistics_middleware_execute.
    destruct (st_stats st); [|by apply (IH ev source config)].
    destruct (IH ev source config st Hev Hfresh) as [Hok Hsame].
    destruct (h ev st) as [[result ev'] st'].
    cbn [fst snd] in *.
    destruct (st_stats st'); [|done].
    by destruct (is_compile_event ev).
  - destruct Hev as (data & Hd & Hs & Hc & Hh).
    unfold cache_middleware_execute. rewrite Hd, Hs, Hh.
    set (q := match st_cache st with
              | Some cache =>
                  let '(needs, cache') :=
                    build_cache_needs_recompilation (w_fs (st_world st)) cache
                      source (Event.object_path data) in
                  (negb needs, with_cache st (Some cache'))
              | None => (false, st)
              end).
    assert (Hq : st_world q.2 = st_world st).
    { unfold q. destruct (st_cache st) as [cache|]; [|done].
      by destruct (build_cache_needs_recompilation _ _ _ _). }
    destruct q as [hit st1]. cbn [snd] in Hq.
    destruct (hit && file_exists_cache (w_fs (st_world st1)) (Event.object_path data)).
    { cbn. done. }
    destruct (IH (with_data ev (Event.set_cache_hit data false)) source config st1
                (compiles_with_data ev source config data false Hd Hs Hc Hh)
                ltac:(by rewrite Hq)) as [Hok Hsame].
    destruct (h (with_data ev (Event.set_cache_hit data false)) st1)
      as [[result ev'] st2].
    cbn [fst snd] in *.
    destruct (st_cache st2) as [cache|];
      [|cbn [fst snd]; split; [done|congruence]].
    destruct (user_data ev') as [data'|];
      [|cbn [fst snd]; split; [done|congruence]].
    rewrite Hok.
    destruct (build_cache_update _ _ _ _ _ _) as [cache' lines].
    cbn [fst snd]. split; [done|]. cbn. congruence.
Qed.

(** X26. An object file that is not older than its source is never rebuilt.
    Whatever layers surround the compile event, and whatever the store
    says, when the object file of a source exists and its modification
    time is not before that of the source, the event succeeds without any
    command being run and without any change to the files. A changed
    header that the store has noticed therefore does not lead to a
    recompilation as long as the object file is newer than the source. *)
Theorem up_to_date_object_is_kept tc h ev source config st :
  layered tc h →
  compiles ev source config →
  needs_recompilation (w_fs (st_world st)) (path source)
    (get_object_file_path (path source) (Config.output_dir config) MAX_PATH_LENGTH)
  = false →
  success (h ev st).1.1 = true ∧ st_world (h ev st).2 = st_world st.
Proof. intros Hl. by apply (layered_keeps_object tc). Qed.

Lemma up_to_date_object_is_kept_witness :
  build_cache_needs_recompilation stale_fs stale_store stale_source "build/main.o"
  = (true, count_miss stale_store) ∧
  success
    ((cache_middleware_execute (compile_event_execute rewriting_toolchain))
       (create_compile_event stale_source stale_config) stale_state).1.1 = true ∧
  st_world
    ((cache_middleware_execute (compile_event_execute rewriting_toolchain))
       (create_compile_event stale_source stale_config) stale_state).2
  = st_world stale_state.
Proof.
  split; [vm_compute; reflexivity|].
  apply (up_to_date_object_is_kept rewriting_toolchain
           (cache_middleware_execute (compile_event_execute rewriting_toolchain))
           (create_compile_event stale_source stale_config)
           stale_source stale_config stale_state).
  - apply layered_cache, layered_core.
  - eexists. repeat split.
  - vm_compute. reflexivity.
Defined.

End PipelineExtras.

(** ** Projects without a source file *)

Section HeaderOnlyExtras.

Lemma sorted_headers g g' order :
  Forall (λ f, is_header f = true) (files g) →
  dependency_graph_topological_sort g = Some (DEP_SUCCESS, g', order) →
  Forall (λ i, is_header (file_at g' i) = true) order.
Proof.
  intros Hall Hsort.
  pose proof (topological_sort_result g) as H. rewrite Hsort in H.
  destruct H as (Hs & Hinv & _).
  apply Forall_forall. intros i Hi.
  apply (inv_finished _ _ Hinv) in Hi as [Hi _].
  rewrite <- (same_static_length _ _ Hs) in Hi.
  rewrite <- (same_static_is_header _ _ i Hs).
  destruct (lookup_lt_is_Some_2 _ _ Hi) as [f Hf].
  rewrite (file_at_lookup _ _ _ Hf).
  rewrite Forall_forall in Hall. apply Hall. by eapply list_elem_of_lookup_2.
Qed.

Lemma compile_events_of_headers g config order :
  Forall (λ i, is_header (file_at g i) = true) order →
  compile_events_of g config order = [].
Proof. induction 1 as [|i order Hi _ IH]; simpl; [done|]. by rewrite Hi. Qed.

Lemma build_project_loop_headers tc g config order objects compiled cached w :
  Forall (λ i, is_header (file_at g i) = true) order →
  build_project_loop tc g config order objects compiled cached w
  = (Some (objects, compiled, cached), w).
Proof. induction 1 as [|i order Hi _ IH]; simpl; [done|]. by rewrite Hi. Qed.

(** [build_project] on such a project: without a compiler, or with an
    include cycle, it returns 1; otherwise it reaches the link step with
    no object file, [link_executable] returns before it has initialised
    the result, and the clean-up frees that structure: the outcome is
    undefined. It never returns 0. *)
Lemma build_project_without_sources tc g config source_dir w :
  Forall (λ f, is_header f = true) (files g) →
  build_project tc g config source_dir w = None ∨
  ∃ w', build_project tc g config source_dir w = Some (1, w').
Proof.
  intros Hall. unfold build_project.
  destruct (match Config.compiler config, Config.compiler_path config with
            | COMPILER_AUTO, _ | _, None =>
                build_config_auto_detect_compiler tc config w
            | _, Some _ => (true, config, w)
            end) as [[found config'] w'].
  destruct found; cbn [negb]; [|right; by eexists].
  destruct (dependency_graph_topological_sort g) as [[[code g'] order]|] eqn:Hsort;
    [|right; by eexists].
  destruct code; try (right; by eexists).
  rewrite build_project_loop_headers by (by eapply sorted_headers).
  by left.
Qed.

(** X27. A project without a source file gets no chain. When every
    registered file is a header (or none is registered),
    [eventchains_build_project] ends with exit code 1 because
    [build_compilation_chain] returns no chain; it runs no command and
    writes no cache file, however its layers are stacked. *)
Theorem header_only_build_fails compose tc g config with_statistics w :
  Forall (λ f, is_header f = true) (files g) →
  ∃ o, eventchains_build_project_with compose tc g config with_statistics w = Some o ∧
       exit_code o = 1 ∧
       w_commands (out_world o) = w_commands w ∧
       w_cache_files (out_world o) = w_cache_files w.
Proof.
  intros Hall. unfold eventchains_build_project_with.
  set (w1 := set_fs w _).
  destruct (build_cache_create w1 _) as [[cache w2] lines] eqn:Hcreate.
  assert (Hw2 : w_commands w2 = w_commands w ∧ w_cache_files w2 = w_cache_files w).
  { revert Hcreate. unfold build_cache_create.
    repeat (match goal with
            | |- context [match ?x with _ => _ end] => destruct x
            end); by intros [= _ <- _]. }
  unfold build_compilation_chain.
  destruct (topological_sort_total g) as [[[code g'] order] Hsort]. rewrite Hsort.
  destruct code; try (eexists; split; [reflexivity|done]).
  rewrite compile_events_of_headers by (by eapply sorted_headers).
  eexists. split; [reflexivity|done].
Qed.

Lemma header_only_build_fails_witness :
  ∃ o, eventchains_build_project_with compose_layers always_ok header_only_graph
         build_config_create true single_world = Some o ∧
       exit_code o = 1 ∧
       w_commands (out_world o) = w_commands single_world ∧
       w_cache_files (out_world o) = w_cache_files single_world.
Proof.
  apply (header_only_build_fails compose_layers always_ok header_only_graph
           build_config_create true single_world).
  repeat constructor.
Defined.

End HeaderOnlyExtras.

(** ** Transitive dependencies *)

Section DependencyExtras.

Lemma count_false_insert l i :
  l !! i = Some false → (count_false (<[i := true]> l) + 1 = count_false l)%nat.
Proof.
  revert i. induction l as [|b l IH]; intros [|i] H; simpl in *; try discriminate.
  - injection H as ->. lia.
  - specialize (IH i H). change (list_insert i true l) with (<[i := true]> l).
    destruct b; lia.
Qed.

Lemma count_false_replicate n : count_false (replicate n false) = n.
Proof. induction n as [|n IH]; simpl; [done|]. by rewrite IH. Qed.

Variable g : DependencyGraph.
Variable max_deps : nat.
Hypothesis Hcount : (file_count g ≤ MAX_SOURCE_FILES)%nat.

Lemma collect_includes_spec collect fuel file :
  collect_spec_at collect g max_deps fuel →
  ∀ incs deps visited,
    (∀ inc, inc ∈ incs → inc ∈ includes (file_at g file)) →
    length visited = MAX_SOURCE_FILES →
    (count_false visited < fuel)%nat →
    ∃ deps' visited',
      collect_includes collect g max_deps incs deps visited = Some (deps', visited') ∧
      length visited' = MAX_SOURCE_FILES ∧
      (∀ j, visited !! j = Some true → visited' !! j = Some true) ∧
      (count_false visited' ≤ count_false visited)%nat ∧
      (∃ l, deps' = deps ++ l ∧ Forall (λ d, tc (include_edge g) file d) l) ∧
      (length deps' ≤ length deps `max` max_deps)%nat ∧
      ((length deps' < max_deps)%nat →
       (∀ inc d, inc ∈ incs → dependency_graph_find_file g inc = Some d →
                 d ∈ deps' ∧ visited' !! d = Some true) ∧
       (∀ u, visited' !! u = Some true → visited !! u ≠ Some true →
             ∀ d, include_edge g u d → d ∈ deps' ∧ visited' !! d = Some true)).
Proof.
  intros Hrec. induction incs as [|inc rest IH]; intros deps visited Hincs Hlen Hfuel.
  { exists deps, visited. simpl. split; [done|]. split; [done|]. split; [done|].
    split; [done|]. split; [exists []; by rewrite app_nil_r|]. split; [lia|].
    intros _. split.
    - intros i d Hin. by apply elem_of_nil in Hin.
    - intros u Hu Hu'. done. }
  assert (Hrest : ∀ x, x ∈ rest → x ∈ includes (file_at g file)).
  { intros x Hx. apply Hincs. apply elem_of_cons. by right. }
  assert (Hinc : inc ∈ includes (file_at g file)).
  { apply Hincs. apply elem_of_cons. by left. }
  cbn [collect_includes].
  destruct (dependency_graph_find_file g inc) as [dep|] eqn:Hfind.
  2:{ destruct (IH deps visited Hrest Hlen Hfuel)
        as (deps' & visited' & Hrun & Hlen' & Hmono & Hcnt & Hl & Hbound & Hcomp).
      exists deps', visited'. split; [done|]. split; [done|]. split; [done|].
      split; [done|]. split; [done|]. split; [done|].
      intros Hroom. destruct (Hcomp Hroom) as [Hincs' Hnew']. split; [|done].
      intros i d Hi Hd. apply elem_of_cons in Hi as [->|Hi]; [congruence|].
      by apply (Hincs' i d). }
  assert (Hedge : include_edge g file dep) by (by exists inc).
  destruct (find_file_Some _ _ _ Hfind) as [Hdep _].
  set (deps1 := if (length deps <? max_deps)%nat then deps ++ [dep] else deps).
  destruct (Hrec dep deps1 visited Hdep Hlen Hfuel)
    as (deps2 & visited2 & Hrun2 & Hlen2 & Hmono2 & Hvis2 & Hcnt2 & (l2 & Hl2 & Hreach2)
        & Hbound2 & Hcomp2).
  rewrite Hrun2.
  destruct (IH deps2 visited2 Hrest Hlen2 ltac:(lia))
    as (deps3 & visited3 & Hrun3 & Hlen3 & Hmono3 & Hcnt3 & (l3 & Hl3 & Hreach3)
        & Hbound3 & Hcomp3).
  exists deps3, visited3. split; [done|]. split; [done|].
  assert (Hlen1 : (length deps1 ≤ length deps `max` max_deps)%nat).
  { unfold deps1. destruct (length deps <? max_deps)%nat eqn:E.
    - apply Nat.ltb_lt in E. rewrite length_app. simpl. lia.
    - lia. }
  assert (Hpre1 : ∃ l1, deps1 = deps ++ l1 ∧ Forall (λ d, tc (include_edge g) file d) l1).
  { unfold deps1. destruct (length deps <? max_deps)%nat.
    - exists [dep]. split; [done|]. constructor; [by apply tc_once|constructor].
    - exists []. by rewrite app_nil_r. }
  destruct Hpre1 as (l1 & Hl1 & Hreach1).
  split; [auto|]. split; [lia|]. split.
  { exists (l1 ++ l2 ++ l3). split.
    - by rewrite Hl3, Hl2, Hl1, <- !app_assoc.
    - apply Forall_app. split; [done|]. apply Forall_app. split; [|done].
      eapply Forall_impl; [exact Hreach2|]. intros d Hd. simpl in Hd.
      by eapply tc_l. }
  split; [lia|].
  intros Hroom.
  assert (Hlen23 : (length deps2 ≤ length deps3)%nat).
  { rewrite Hl3, length_app. lia. }
  assert (Hlen12 : (length deps1 ≤ length deps2)%nat).
  { rewrite Hl2, length_app. lia. }
  assert (Hlen01 : (length deps ≤ length deps1)%nat).
  { rewrite Hl1, length_app. lia. }
  assert (Hpush : deps1 = deps ++ [dep]).
  { unfold deps1. destruct (length deps <? max_deps)%nat eqn:E; [done|].
    apply Nat.ltb_ge in E. lia. }
  destruct (Hcomp3 Hroom) as [Hincs3 Hnew3].
  specialize (Hcomp2 ltac:(lia)).
  assert (Hin23 : ∀ d, d ∈ deps2 → d ∈ deps3).
  { intros d Hd. rewrite Hl3. apply elem_of_app. by left. }
  split.
  - intros i d Hi Hd. apply elem_of_cons in Hi as [->|Hi]; [|by apply (Hincs3 i d)].
    assert (d = dep) as -> by congruence. split.
    + apply Hin23. rewrite Hl2, Hpush. apply elem_of_app. left.
      apply elem_of_app. right. apply list_elem_of_singleton. reflexivity.
    + by apply Hmono3.
  - intros u Hu3 Hu0 d Hd.
    destruct (decide (visited2 !! u = Some true)) as [Hu2|Hu2].
    + destruct (Hcomp2 u Hu2 Hu0 d Hd) as [Hd2 Hv2]. split; [by apply Hin23|by apply Hmono3].
    + by apply (Hnew3 u Hu3 Hu2 d Hd).
Qed.

Lemma collect_dependencies_recursive_spec fuel :
  collect_spec_at (collect_dependencies_recursive fuel g max_deps) g max_deps fuel.
Proof.
  induction fuel as [|fuel IH]; intros file deps visited Hfile Hlen Hfuel; [lia|].
  cbn [collect_dependencies_recursive]. unfold pointer_index.
  apply Nat.ltb_lt in Hfile as Hltb. rewrite Hltb.
  assert (Hin : (file < length visited)%nat) by lia.
  destruct (lookup_lt_is_Some_2 _ _ Hin) as [b Hb]. rewrite Hb. cbn [default].
  destruct b.
  { exists deps, visited. split; [done|]. split; [done|]. split; [done|].
    split; [done|]. split; [done|]. split; [exists []; by rewrite app_nil_r|].
    split; [lia|]. intros _ u Hu Hu'. done. }
  pose proof (count_false_insert _ _ Hb) as Hcnt.
  set (visited1 := <[file := true]> visited) in *.
  assert (Hlen1 : length visited1 = MAX_SOURCE_FILES).
  { unfold visited1. by rewrite length_insert. }
  destruct (collect_includes_spec (collect_dependencies_recursive fuel g max_deps)
              fuel file IH (includes (file_at g file)) deps visited1
              (λ _ H, H) Hlen1 ltac:(lia))
    as (deps' & visited' & Hrun & Hlen' & Hmono & Hcnt' & Hl & Hbound & Hcomp).
  exists deps', visited'. split; [done|]. split; [done|].
  assert (Hself : visited1 !! file = Some true).
  { unfold visited1. by apply list_lookup_insert_eq. }
  assert (Hmono1 : ∀ j, visited !! j = Some true → visited1 !! j = Some true).
  { intros j Hj. unfold visited1. destruct (decide (file = j)) as [<-|Hne].
    - by apply list_lookup_insert_eq.
    - by rewrite list_lookup_insert_ne. }
  split; [auto|]. split; [auto|]. split; [lia|]. split; [done|]. split; [done|].
  intros Hroom u Hu Hu0 d Hd.
  destruct (Hcomp Hroom) as [Hincs Hnew].
  destruct (decide (file = u)) as [<-|Hne].
  - destruct Hd as (inc & Hinc & Hfind). by apply (Hincs inc d).
  - apply (Hnew u Hu); [|done]. unfold visited1.
    by rewrite list_lookup_insert_ne.
Qed.

(** X28. [dependency_graph_get_all_dependencies] collects what the file
    reaches. For a registered file in a registry within its capacity the
    call returns; each file it reports is reached from the given one along
    one or more resolved includes; at most [max_deps] files are reported;
    and when fewer than [max_deps] are reported, every file so reached is
    among them. *)
Theorem get_all_dependencies_spec file :
  (file < file_count g)%nat →
  ∃ deps,
    dependency_graph_get_all_dependencies g file max_deps = Some (DEP_SUCCESS, deps) ∧
    (length deps ≤ max_deps)%nat ∧
    Forall (λ d, tc (include_edge g) file d) deps ∧
    ((length deps < max_deps)%nat →
     ∀ d, tc (include_edge g) file d → d ∈ deps).
Proof.
  intros Hfile. unfold dependency_graph_get_all_dependencies.
  destruct (collect_dependencies_recursive_spec (S MAX_SOURCE_FILES) file []
              (replicate MAX_SOURCE_FILES false) Hfile)
    as (deps & visited & Hrun & Hlen & _ & Hvis & _ & (l & Hl & Hreach) & Hbound & Hcomp).
  { by rewrite length_replicate. }
  { rewrite count_false_replicate. lia. }
  rewrite Hrun. exists deps. split; [done|]. split; [simpl in Hbound; lia|].
  split; [by rewrite Hl|].
  intros Hroom. specialize (Hcomp Hroom).
  assert (Hfresh : ∀ u, replicate MAX_SOURCE_FILES false !! u ≠ Some true).
  { intros u Hu. apply lookup_replicate in Hu as [? _]. discriminate. }
  assert (Hstep : ∀ u d, visited !! u = Some true → include_edge g u d →
            d ∈ deps ∧ visited !! d = Some true).
  { intros u d Hu Hd. by apply (Hcomp u Hu (Hfresh u) d Hd). }
  assert (Hall : ∀ u d, tc (include_edge g) u d → visited !! u = Some true →
            d ∈ deps ∧ visited !! d = Some true).
  { intros u d. induction 1 as [u d He|u m d He _ IH]; intros Hu.
    - by apply (Hstep u d).
    - apply IH. by apply (Hstep u m). }
  intros d Hd. by apply (Hall file d).
Qed.

End DependencyExtras.

Lemma get_all_dependencies_spec_witness :
  ∃ deps,
    dependency_graph_get_all_dependencies diamond_graph 0 16 = Some (DEP_SUCCESS, deps) ∧
    (length deps ≤ 16)%nat ∧
    Forall (λ d, tc (include_edge diamond_graph) 0%nat d) deps ∧
    ((length deps < 16)%nat →
     ∀ d, tc (include_edge diamond_graph) 0%nat d → d ∈ deps).
Proof.
  apply (get_all_dependencies_spec diamond_graph 16).
  - unfold file_count, MAX_SOURCE_FILES. simpl. lia.
  - unfold file_count. simpl. lia.
Defined.

(** A file reached along two routes is reported once per route. *)
Example get_all_dependencies_diamond :
  dependency_graph_get_all_dependencies diamond_graph 0 16
  = Some (DEP_SUCCESS, [1; 3; 2; 3]%nat).
Proof. vm_compute. reflexivity. Qed.
